(** * Wi-Fi motion heat-map painter (matrix.py): model and properties

    A shallow embedding of [matrix.py].  Python floats are modelled as exact
    real numbers ([R]): rounding, overflow to infinity and NaN are outside
    the model.  Python integers are [Z], lists are [list] indexed the way
    Python indexes them (negative positions count from the end, anything
    else out of range is an [IndexError], here [None]).  The wall clock
    ([time.time()]), the terminal size and the pseudo-random generator are
    inputs of the model. *)

From Stdlib Require Import Reals Lra Lia ZArith List Bool.
From Stdlib Require Import Ascii String DecimalString.
From stdpp Require Import base option list gmap strings.
From Stdlib Require PrimFloat FloatOps SpecFloat.

Local Open Scope Z_scope.

(** ** Python primitives *)

(** [int(x)] on a finite float: truncation toward zero.  On an infinity
    or a NaN [int] raises instead; the real numbers have neither, and that
    path is modelled on binary64 itself by [B64.py_int] below. *)
Definition py_int (x : R) : Z :=
  if Rle_dec 0 x then Int_part x else - Int_part (- x).

(** [round(x)] on a float: nearest integer, ties to the even one. *)
Definition py_round (x : R) : Z :=
  let f := Int_part x in
  if Rlt_dec (x - IZR f) (1 / 2) then f
  else if Rlt_dec (1 / 2) (x - IZR f) then f + 1
  else if Z.even f then f else f + 1.

(** [l[i]]: positions [-len l .. len l - 1] are valid. *)
Definition py_index {A : Type} (l : list A) (i : Z) : option A :=
  let n := Z.of_nat (length l) in
  if (0 <=? i) && (i <? n) then l !! Z.to_nat i
  else if (- n <=? i) && (i <? 0) then l !! Z.to_nat (i + n)
  else None.

(** [l[i] = v] *)
Definition py_store {A : Type} (l : list A) (i : Z) (v : A) : option (list A) :=
  let n := Z.of_nat (length l) in
  if (0 <=? i) && (i <? n) then Some (<[Z.to_nat i := v]> l)
  else if (- n <=? i) && (i <? 0) then Some (<[Z.to_nat (i + n) := v]> l)
  else None.

(** [str(n)] for an integer, as used inside f-strings. *)
Definition str_of_int (n : Z) : string := NilZero.string_of_int (Z.to_int n).

(** ** Tunables *)

Definition TARGET_FPS : R := 20.
Definition RSSI_NEAR : R := -30.
Definition RSSI_FAR : R := -90.
Definition BASE_SAMPLES : Z := 24.
Definition SAMPLES_PER_MOTION : Z := 10.
Definition SAMPLES_PER_DRSSI : Z := 30.
Definition MAX_SAMPLES_PER : Z := 600.
Definition JITTER_ARC_DEG : R := 22.
Definition JITTER_R_FRAC : R := 10 / 100.
Definition RAY_STEPS_PER_M : R := 9.
Definition FAST_DECAY_PER_SEC : R := 88 / 100.
Definition SLOW_DECAY_PER_SEC : R := 995 / 1000.
Definition SLOW_GAIN : R := 25 / 100.
Definition BORDER : bool := true.
Definition HEADER_LINES : Z := 2.
Definition CHAR_FG_RAMP : list Z := [240; 71; 184; 208; 196].
Definition HISTO_EQ_FRACTION : R := 95 / 100.
Definition EMA_RSSI_ALPHA : R := 35 / 100.
Definition EMA_MOTION_ALPHA : R := 4 / 10.
Definition DRSSI_CLAMP : R := 8.

(** ** Projection and colour *)

Definition rssi_to_radius_pix (rssi Rsub : R) : R :=
  let rssi := if Rgt_dec rssi RSSI_NEAR then RSSI_NEAR else rssi in
  let rssi := if Rlt_dec rssi RSSI_FAR then RSSI_FAR else rssi in
  let t := ((RSSI_NEAR - rssi) / (RSSI_NEAR - RSSI_FAR))%R in
  (2 + t * (Rsub - 4))%R.

Definition ESC : string := String (ascii_of_nat 27) EmptyString.

(** The escape sequence selecting colour [c] of the 256-colour palette. *)
Definition fg_escape (c : Z) : string := ESC +:+ "[38;5;" +:+ str_of_int c +:+ "m".

Definition color_for (u : R) : option string :=
  if Rle_dec u 0 then Some (ESC +:+ "[38;5;240m")
  else if Rge_dec u 1 then c ← py_index CHAR_FG_RAMP (-1); Some (fg_escape c)
  else
    let segs := Z.of_nat (length CHAR_FG_RAMP) - 1 in
    let x := (u * IZR segs)%R in
    let i := py_int x in
    let t := (x - IZR i)%R in
    c1 ← py_index CHAR_FG_RAMP i;
    c2 ← py_index CHAR_FG_RAMP (Z.min (i + 1) segs);
    Some (fg_escape (if Rgt_dec t (1 / 2) then c2 else c1)).

Definition clamp (a lo hi : R) : R :=
  if Rlt_dec a lo then lo else if Rgt_dec a hi then hi else a.

(** ** Terminal geometry *)

(** [term_dims()], from the terminal size [(columns, lines)] that
    [shutil.get_terminal_size] reports. *)
Definition term_dims (sz : Z * Z) : Z * Z * Z * Z * Z * Z * Z * Z :=
  let W := Z.max 120 sz.1 in
  let H := Z.max 40 sz.2 in
  let l := if BORDER then 1 else 0 in
  let r := if BORDER then 1 else 0 in
  let t := HEADER_LINES + (if BORDER then 1 else 0) in
  let b := if BORDER then 1 else 0 in
  let w_chars := W - l - r in
  let h_chars := H - t - b in
  let w_sub := w_chars * 2 in
  let h_sub := h_chars * 4 in
  (W, H, w_chars, h_chars, w_sub, h_sub, l, t).

(** ** The sub-pixel canvas *)

Record BrailleCanvas : Type := mkCanvas {
  cv_W : Z; cv_H : Z; cv_wc : Z; cv_hc : Z;
  cv_ws : Z; cv_hs : Z; cv_left : Z; cv_top : Z;
  cv_cx : Z; cv_cy : Z; cv_R : Z;
  fast : list R; slow : list R; hit : list Z;
  cell_mask : list bool;
  last_fast : R; last_slow : R
}.

Definition with_layers (cv : BrailleCanvas) (f s : list R) (h : list Z) : BrailleCanvas :=
  mkCanvas (cv_W cv) (cv_H cv) (cv_wc cv) (cv_hc cv) (cv_ws cv) (cv_hs cv)
           (cv_left cv) (cv_top cv) (cv_cx cv) (cv_cy cv) (cv_R cv)
           f s h (cell_mask cv) (last_fast cv) (last_slow cv).

Definition with_last (cv : BrailleCanvas) (tf ts : R) : BrailleCanvas :=
  mkCanvas (cv_W cv) (cv_H cv) (cv_wc cv) (cv_hc cv) (cv_ws cv) (cv_hs cv)
           (cv_left cv) (cv_top cv) (cv_cx cv) (cv_cy cv) (cv_R cv)
           (fast cv) (slow cv) (hit cv) (cell_mask cv) tf ts.

(** The test [dx*dx + dy*dy <= R*R] shared by [resize] and [_in_circle_sub]. *)
Definition in_circle (cx cy rad x y : Z) : bool :=
  let dx := x - cx in
  let dy := y - cy in
  dx * dx + dy * dy <=? rad * rad.

(** The inner loop of [resize]: row [j] of the cell mask.  Every position
    written is inside the list (see [build_mask_lookup]). *)
Definition mask_row (wc cx cy rad j : Z) (m : list bool) : list bool :=
  foldl (fun m i =>
           let cx_sub := i * 2 + 1 in
           let cy_sub := j * 4 + 2 in
           <[Z.to_nat (j * wc + i) := in_circle cx cy rad cx_sub cy_sub]> m)
        m (seqZ 0 wc).

Definition build_mask (wc hc cx cy rad : Z) : list bool :=
  foldl (fun m j => mask_row wc cx cy rad j m)
        (replicate (Z.to_nat (wc * hc)) true) (seqZ 0 hc).

(** [resize]: geometry, layers and mask are rebuilt; the two decay
    time stamps are left as they are. *)
Definition resize (sz : Z * Z) (tf ts : R) : BrailleCanvas :=
  let '(W, H, wc, hc, ws, hs, l, t) := term_dims sz in
  let cx := ws `div` 2 in
  let cy := hs `div` 2 in
  let rad := Z.min cx cy - 4 in
  mkCanvas W H wc hc ws hs l t cx cy rad
           (replicate (Z.to_nat (ws * hs)) 0%R)
           (replicate (Z.to_nat (ws * hs)) 0%R)
           (replicate (Z.to_nat (ws * hs)) 0)
           (build_mask wc hc cx cy rad) tf ts.

(** [BrailleCanvas()] at wall-clock time [now]. *)
Definition new_canvas (sz : Z * Z) (now : R) : BrailleCanvas := resize sz now now.

Definition _idx (cv : BrailleCanvas) (x y : Z) : Z := y * cv_ws cv + x.

Definition _in_circle_sub (cv : BrailleCanvas) (x y : Z) : bool :=
  in_circle (cv_cx cv) (cv_cy cv) (cv_R cv) x y.

Definition decay (now : R) (cv : BrailleCanvas) : BrailleCanvas :=
  let dtf := (now - last_fast cv)%R in
  let cv :=
    if Rgt_dec dtf 0 then
      let f := Rpower FAST_DECAY_PER_SEC dtf in
      with_last
        (with_layers cv (map (fun v => (v * f)%R) (fast cv)) (slow cv)
                     (map (fun h => py_int (IZR h * f)) (hit cv)))
        now (last_slow cv)
    else cv in
  let dts := (now - last_slow cv)%R in
  if Rgt_dec dts 0 then
    let g := Rpower SLOW_DECAY_PER_SEC dts in
    with_last
      (with_layers cv (fast cv) (map (fun v => (v * g)%R) (slow cv)) (hit cv))
      (last_fast cv) now
  else cv.

(** ** The random source

    [random.Random] is used through [uniform] and [randint] only; both
    advance the generator and return a value in the closed range asked for. *)
Class RandomSource (G : Type) : Type := {
  uniform : R -> R -> G -> R * G;
  randint : Z -> Z -> G -> Z * G;
  uniform_range : forall a b g, (a <= b)%R -> (a <= (uniform a b g).1 <= b)%R;
  randint_range : forall a b g, a <= b -> a <= (randint a b g).1 <= b
}.

(** The generator that always returns the low end of the range asked for. *)
Inductive LowEnd : Type := low_end.

#[export] Instance LowEnd_random : RandomSource LowEnd := {|
  uniform := fun a _ g => (a, g);
  randint := fun a _ g => (a, g);
  uniform_range := fun a b _ Hab => conj (Rle_refl a) Hab;
  randint_range := fun a b _ Hab => conj (Z.le_refl a) Hab
|}.

Section Deposition.
Context {G : Type} `{RandomSource G}.

(** The probing loop of [splat_subpixel]: [n] probes left. *)
Fixpoint splat_probe (n : nat) (cv : BrailleCanvas) (x y best_i best_h : Z) (g : G)
  : option (Z * G) :=
  match n with
  | O => Some (best_i, g)
  | S n' =>
      let '(rx, g) := randint (-1) 1 g in
      let '(ry, g) := randint (-1) 1 g in
      let nx := x + rx in
      let ny := y + ry in
      if (nx <? 0) || (nx >=? cv_ws cv) || (ny <? 0) || (ny >=? cv_hs cv)
      then splat_probe n' cv x y best_i best_h g
      else if negb (_in_circle_sub cv nx ny)
      then splat_probe n' cv x y best_i best_h g
      else
        let ii := _idx cv nx ny in
        hh ← py_index (hit cv) ii;
        if hh <? best_h then
          if hh =? 0 then Some (ii, g)
          else splat_probe n' cv x y ii hh g
        else splat_probe n' cv x y best_i best_h g
  end.

Definition splat_subpixel (cv : BrailleCanvas) (x y : Z) (ink : R) (g : G)
  : option (BrailleCanvas * G) :=
  if (x <? 0) || (x >=? cv_ws cv) || (y <? 0) || (y >=? cv_hs cv) then Some (cv, g)
  else if negb (_in_circle_sub cv x y) then Some (cv, g)
  else
    let idx := _idx cv x y in
    best_h ← py_index (hit cv) idx;
    '(best_i, g) ← splat_probe 4 cv x y idx best_h g;
    f ← py_index (fast cv) best_i;
    fast' ← py_store (fast cv) best_i (f + ink)%R;
    s ← py_index (slow cv) best_i;
    slow' ← py_store (slow cv) best_i (s + ink * SLOW_GAIN)%R;
    h ← py_index (hit cv) best_i;
    hit' ← py_store (hit cv) best_i (h + 1);
    Some (with_layers cv fast' slow' hit', g).

Definition radians (deg : R) : R := (deg * PI / 180)%R.

(** The number of steps [deposit_ray] takes for a ray of length [r_pix]. *)
Definition ray_start (r_pix : R) : Z := py_int (2 / 10 * r_pix).
Definition ray_steps (r_pix : R) : Z :=
  Z.max 1 (py_int ((r_pix - IZR (ray_start r_pix)) * (RAY_STEPS_PER_M / 8))).

(** One iteration of the loop of [deposit_ray], for loop index [s]. *)
Definition ray_step (theta r_pix k : R) (start steps s : Z)
           (cv : BrailleCanvas) (g : G) : option (BrailleCanvas * G) :=
  let t := (IZR s / IZR (Z.max 1 (steps - 1)))%R in
  let r := (IZR start + t * (r_pix - IZR start))%R in
  let '(u1, g) := uniform (- JITTER_ARC_DEG) JITTER_ARC_DEG g in
  let dth := radians u1 in
  let '(u2, g) := uniform (- JITTER_R_FRAC) JITTER_R_FRAC g in
  let rr := (r * (1 + u2))%R in
  let th := (theta + dth)%R in
  let x := py_round (IZR (cv_cx cv) + rr * cos th) in
  let y := py_round (IZR (cv_cy cv) + rr * sin th) in
  if (0 <=? x) && (x <? cv_ws cv) && (0 <=? y) && (y <? cv_hs cv)
     && _in_circle_sub cv x y
  then splat_subpixel cv x y k g
  else Some (cv, g).

Fixpoint ray_loop (theta r_pix k : R) (start steps : Z) (ss : list Z)
         (cv : BrailleCanvas) (g : G) : option (BrailleCanvas * G) :=
  match ss with
  | [] => Some (cv, g)
  | s :: ss' =>
      '(cv, g) ← ray_step theta r_pix k start steps s cv g;
      ray_loop theta r_pix k start steps ss' cv g
  end.

Definition deposit_ray (cv : BrailleCanvas) (theta r_pix k : R) (g : G)
  : option (BrailleCanvas * G) :=
  let start := ray_start r_pix in
  let steps := ray_steps r_pix in
  ray_loop theta r_pix k start steps (seqZ 0 steps) cv g.

End Deposition.

(** ** Strings written to the terminal *)

Definition NL : string := String (ascii_of_nat 10) EmptyString.

(** [s * n] *)
Definition str_mul (s : string) (n : Z) : string :=
  String.concat "" (replicate (Z.to_nat n) s).

Definition byte_of (n : Z) : ascii := ascii_of_N (Z.to_N n).

(** [chr(c)], in the UTF-8 encoding the text reaches the terminal in. *)
Definition chr (c : Z) : string :=
  if c <? 0x80 then String (byte_of c) EmptyString
  else if c <? 0x800 then
    String (byte_of (0xC0 + Z.shiftr c 6))
      (String (byte_of (0x80 + Z.land c 0x3F)) EmptyString)
  else if c <? 0x10000 then
    String (byte_of (0xE0 + Z.shiftr c 12))
      (String (byte_of (0x80 + Z.land (Z.shiftr c 6) 0x3F))
         (String (byte_of (0x80 + Z.land c 0x3F)) EmptyString))
  else
    String (byte_of (0xF0 + Z.shiftr c 18))
      (String (byte_of (0x80 + Z.land (Z.shiftr c 12) 0x3F))
         (String (byte_of (0x80 + Z.land (Z.shiftr c 6) 0x3F))
            (String (byte_of (0x80 + Z.land c 0x3F)) EmptyString))).

(** ** Frame renderer *)

Fixpoint insert_sorted (x : R) (l : list R) : list R :=
  match l with
  | [] => [x]
  | y :: l' => if Rle_dec x y then x :: l else y :: insert_sorted x l'
  end.

(** [sorted(l)] on floats. *)
Definition sorted (l : list R) : list R := foldr insert_sorted [] l.

(** [clamp] at the integer positions of [render]. *)
Definition clampZ (a lo hi : Z) : Z :=
  if a <? lo then lo else if a >? hi then hi else a.

(** [a / b] on floats: a zero divisor raises [ZeroDivisionError]. *)
Definition py_div (a b : R) : option R :=
  if Req_dec_T b 0 then None else Some (a / b)%R.

(** The brightness divisor [q] of [render], for a non-empty [merged]. *)
Definition render_scale (merged : list R) : option R :=
  let vals := sorted merged in
  let n := Z.of_nat (length vals) in
  let q_idx := py_int (HISTO_EQ_FRACTION * IZR n) - 1 in
  let q_idx := clampZ q_idx 0 (n - 1) in
  q ← match vals with [] => Some 1%R | _ => py_index vals q_idx end;
  if Rle_dec q (1 / 1000000000) then
    top ← py_index vals (-1);
    Some (if Rgt_dec 1 top then 1%R else top)
  else Some q.

(** [v = merged[idx] / q; if v > 1: v = 1.0] *)
Definition normalized (merged : list R) (q : R) (idx : Z) : option R :=
  m ← py_index merged idx;
  v ← py_div m q;
  Some (if Rgt_dec v 1 then 1%R else v).

(** The eight tests mapping sub-cell [(sx, sy)] to its Braille dot bit. *)
Definition set_dot (bits sx sy : Z) : Z :=
  let bits := if (sx =? 0) && (sy =? 0) then Z.lor bits 0x01 else bits in
  let bits := if (sx =? 0) && (sy =? 1) then Z.lor bits 0x02 else bits in
  let bits := if (sx =? 0) && (sy =? 2) then Z.lor bits 0x04 else bits in
  let bits := if (sx =? 0) && (sy =? 3) then Z.lor bits 0x40 else bits in
  let bits := if (sx =? 1) && (sy =? 0) then Z.lor bits 0x08 else bits in
  let bits := if (sx =? 1) && (sy =? 1) then Z.lor bits 0x10 else bits in
  let bits := if (sx =? 1) && (sy =? 2) then Z.lor bits 0x20 else bits in
  let bits := if (sx =? 1) && (sy =? 3) then Z.lor bits 0x80 else bits in
  bits.

(** The body of the two innermost loops of [render]. *)
Definition cell_subpixel (cv : BrailleCanvas) (merged : list R) (q : R)
           (base_x base_y : Z) (st : Z * R) (p : Z * Z) : option (Z * R) :=
  let '(bits, agg) := st in
  let '(sy, sx) := p in
  let x := base_x + sx in
  let y := base_y + sy in
  v ← normalized merged q (_idx cv x y);
  let agg := (agg + v)%R in
  Some (if Rgt_dec v (12 / 100) then set_dot bits sx sy else bits, agg).

Fixpoint cell_loop (cv : BrailleCanvas) (merged : list R) (q : R)
         (base_x base_y : Z) (st : Z * R) (ps : list (Z * Z)) : option (Z * R) :=
  match ps with
  | [] => Some st
  | p :: ps' =>
      st ← cell_subpixel cv merged q base_x base_y st p;
      cell_loop cv merged q base_x base_y st ps'
  end.

(** [for sy in range(4): for sx in range(2)] *)
Definition cell_positions : list (Z * Z) :=
  sy ← seqZ 0 4; sx ← seqZ 0 2; [(sy, sx)].

(** What [render] appends to the line for the character cell [(i, j)]. *)
Definition render_cell (cv : BrailleCanvas) (merged : list R) (q : R) (j i : Z)
  : option string :=
  inside ← py_index (cell_mask cv) (j * cv_wc cv + i);
  if negb inside then Some " "
  else
    let base_x := i * 2 in
    let base_y := j * 4 in
    '(bits, agg) ← cell_loop cv merged q base_x base_y (0, 0%R) cell_positions;
    let u := clamp (agg / 8) 0 1 in
    col ← color_for u;
    let ch := if bits =? 0 then " " else chr (0x2800 + bits) in
    Some (col +:+ ch).

Definition render_row (cv : BrailleCanvas) (merged : list R) (q : R) (j : Z)
  : option string :=
  line ← mapM (render_cell cv merged q j) (seqZ 0 (cv_wc cv));
  Some ((if BORDER then "│" else "") +:+ String.concat "" line +:+ ESC +:+ "[0m"
        +:+ (if BORDER then "│" else "") +:+ NL).

(** [render()]; [stamp] is the text [time.strftime] returns. *)
Definition render (stamp : string) (cv : BrailleCanvas) : option string :=
  let merged := zip_with Rplus (fast cv) (slow cv) in
  match merged with
  | [] => Some ""
  | _ =>
      q ← render_scale merged;
      rows ← mapM (render_row cv merged q) (seqZ 0 (cv_hc cv));
      Some (ESC +:+ "[H" +:+ ESC +:+ "[J"
            +:+ " Wi-Fi Room Mapper — " +:+ stamp
            +:+ "   near≈" +:+ str_of_int (py_int RSSI_NEAR)
            +:+ " dBm  far≈" +:+ str_of_int (py_int RSSI_FAR)
            +:+ " dBm    fps≈" +:+ str_of_int (py_int TARGET_FPS) +:+ NL
            +:+ " Fast = motion (bright),  Slow = persistent structure (dim). Ray-painted paths; density adaptively scaled." +:+ NL
            +:+ (if BORDER then "┌" +:+ str_mul "─" (cv_wc cv) +:+ "┐" +:+ NL else "")
            +:+ String.concat "" rows
            +:+ (if BORDER then "└" +:+ str_mul "─" (cv_wc cv) +:+ "┘" +:+ NL else ""))
  end.

(** ** Signal conditioner and loop controller *)

(** The per-MAC dictionary [{rssi_ema, motion_ema, last_t, last_rssi}] once
    the first observation has filled it. *)
Record MacState : Type := mkMacState {
  rssi_ema : R; motion_ema : R; last_t : R; last_rssi : R
}.

Record Engine : Type := mkEngine {
  cv : BrailleCanvas;
  last_draw : R;
  min_dt : R;
  seed_counter : Z;
  state : gmap string MacState;
  stdout : list string   (* what has been written, oldest first *)
}.

(** [Engine()] at time [now] on a terminal of size [sz]. *)
Definition new_engine (sz : Z * Z) (now : R) : Engine :=
  mkEngine (new_canvas sz now) 0 (1 / TARGET_FPS) 0 ∅ [ESC +:+ "[?25l"].

(** The [SIGWINCH] handler: [self.cv.resize()]. *)
Definition on_resize (sz : Z * Z) (e : Engine) : Engine :=
  mkEngine (resize sz (last_fast (cv e)) (last_slow (cv e)))
           (last_draw e) (min_dt e) (seed_counter e) (state e) (stdout e).

(** The EMA update of [ingest]: the new per-MAC state and [d_rs]. *)
Definition update_mac (old : option MacState) (now rssi motion : R) : MacState * R :=
  match old with
  | None => (mkMacState rssi motion now rssi, 0%R)
  | Some st =>
      let dt := (if Rgt_dec (now - last_t st) (1 / 1000)
                 then now - last_t st else 1 / 1000)%R in
      (mkMacState (EMA_RSSI_ALPHA * rssi + (1 - EMA_RSSI_ALPHA) * rssi_ema st)
                  (EMA_MOTION_ALPHA * motion + (1 - EMA_MOTION_ALPHA) * motion_ema st)
                  now rssi,
       ((rssi - last_rssi st) / dt)%R)
  end.

(** [motion_u = max(0.0, st["motion_ema"])] *)
Definition motion_unit (m_ema : R) : R := if Rgt_dec m_ema 0 then m_ema else 0%R.

(** [drssi_u = clamp(abs(d_rs), 0.0, DRSSI_CLAMP) / DRSSI_CLAMP] *)
Definition drssi_unit (d_rs : R) : R := (clamp (Rabs d_rs) 0 DRSSI_CLAMP / DRSSI_CLAMP)%R.

(** The sample count [k] before the cap, and after it, on finite numbers
    whose products are finite; [B64.sample_count] below is the same
    computation on binary64, where [int] can raise. *)
Definition raw_sample_count (motion_u drssi_u : R) : Z :=
  BASE_SAMPLES
  + py_int (IZR SAMPLES_PER_MOTION * motion_u)
  + py_int (IZR SAMPLES_PER_DRSSI * drssi_u).

Definition sample_count (motion_u drssi_u : R) : Z :=
  let k := raw_sample_count motion_u drssi_u in
  if k >? MAX_SAMPLES_PER then MAX_SAMPLES_PER else k.

(** [ink_per = (0.9*motion_u + 0.1*drssi_u) / max(1, k)] *)
Definition ink_per_deposit (motion_u drssi_u : R) (k : Z) : R :=
  ((9 / 10 * motion_u + 1 / 10 * drssi_u) / IZR (Z.max 1 k))%R.

Section Engine.
Context {G : Type} `{RandomSource G}.

(** [int(hashlib.md5(mac.encode()).hexdigest(), 16)] and Python's
    [float(text)] ([None] for [ValueError]) are taken as given. *)
Variable md5_int : string -> Z.
Variable py_float : string -> option R.

Definition mac_angle (mac : string) : R :=
  (IZR (md5_int mac `mod` 360) * PI / 180)%R.

(** The deposit loop of [ingest]: [n] micro-deposits left. *)
Fixpoint ingest_loop (n : nat) (theta r_pix ink_per : R)
         (cv : BrailleCanvas) (g : G) : option (BrailleCanvas * G) :=
  match n with
  | O => Some (cv, g)
  | S n' =>
      let '(u1, g) := uniform (- JITTER_ARC_DEG) JITTER_ARC_DEG g in
      let dth := radians u1 in
      let '(u2, g) := uniform (- JITTER_R_FRAC) JITTER_R_FRAC g in
      let rr := (r_pix * (1 + u2))%R in
      '(cv, g) ← deposit_ray cv (theta + dth)%R rr ink_per g;
      ingest_loop n' theta r_pix ink_per cv g
  end.

(** [ingest(mac, rssi, motion)] at time [now]; [g] is the generator that
    [random.Random(hash(...))] builds for this observation. *)
Definition ingest (e : Engine) (now : R) (g : G) (mac : string) (rssi motion : R)
  : option Engine :=
  let '(st, d_rs) := update_mac (state e !! mac) now rssi motion in
  let motion_u := motion_unit (motion_ema st) in
  let drssi_u := drssi_unit d_rs in
  let k := sample_count motion_u drssi_u in
  let theta := mac_angle mac in
  let r_pix := rssi_to_radius_pix (rssi_ema st) (IZR (cv_R (cv e))) in
  let ink_per := ink_per_deposit motion_u drssi_u k in
  '(cv', _) ← ingest_loop (Z.to_nat k) theta r_pix ink_per (cv e) g;
  Some (mkEngine cv' (last_draw e) (min_dt e) (seed_counter e + 1)
                 (<[mac := st]> (state e)) (stdout e)).

(** [tick()] at time [now]. *)
Definition tick (e : Engine) (now : R) (stamp : string) : option Engine :=
  let cv' := decay now (cv e) in
  if Rge_dec (now - last_draw e) (min_dt e) then
    frame ← render stamp cv';
    Some (mkEngine cv' now (min_dt e) (seed_counter e) (state e)
                   (stdout e ++ [frame]))
  else
    Some (mkEngine cv' (last_draw e) (min_dt e) (seed_counter e) (state e)
                   (stdout e)).

(** *** Reading a line *)

(** White space as [str.strip] sees it in ASCII text: the characters 9 to
    13 and 28 to 32.  [str.strip] also removes the white space Unicode has
    beyond ASCII (U+00A0 and the like), so [strip] below is [str.strip] on
    lines made of ASCII characters only. *)
Definition is_space (a : ascii) : bool :=
  let n := nat_of_ascii a in
  ((9 <=? n) && (n <=? 13) || (28 <=? n) && (n <=? 32))%nat.

Fixpoint lstrip (s : string) : string :=
  match s with
  | String a s' => if is_space a then lstrip s' else s
  | EmptyString => EmptyString
  end.

Fixpoint rstrip (s : string) : string :=
  match s with
  | String a s' =>
      match rstrip s' with
      | EmptyString => if is_space a then EmptyString else String a EmptyString
      | r => String a r
      end
  | EmptyString => EmptyString
  end.

Definition strip (s : string) : string := rstrip (lstrip s).

(** [s.split(",")]: the fields between the commas, at least one. *)
Fixpoint split_comma (s : string) : list string :=
  match s with
  | EmptyString => [EmptyString]
  | String a s' =>
      if Ascii.eqb a "," then EmptyString :: split_comma s'
      else match split_comma s' with
           | f :: fs => String a f :: fs
           | [] => [String a EmptyString]
           end
  end.

(** [str.lower] on ASCII text: [A] to [Z] become [a] to [z].  On letters
    beyond ASCII [str.lower] does more (it can even change the length), so
    [lower] below is [str.lower] on ASCII text only. *)
Definition lower_ascii (a : ascii) : ascii :=
  let n := nat_of_ascii a in
  if ((65 <=? n) && (n <=? 90))%nat then ascii_of_nat (n + 32) else a.

Fixpoint lower (s : string) : string :=
  match s with
  | String a s' => String (lower_ascii a) (lower s')
  | EmptyString => EmptyString
  end.

(** What one line read from standard input needs from the outside. *)
Record LineEnv : Type := mkLineEnv {
  t_ingest : R;      (* [time.time()] inside [ingest] *)
  t_tick : R;        (* [time.time()] inside [tick] *)
  env_stamp : string;
  env_rng : G
}.

(** The body of the [for line in sys.stdin] loop of [main]. *)
Definition process_line (e : Engine) (line : string) (env : LineEnv) : option Engine :=
  let s := strip line in
  if String.eqb s "" || String.prefix "cnt" s then tick e (t_tick env) (env_stamp env)
  else
    let parts := split_comma s in
    if (Z.of_nat (length parts) <? 3) then tick e (t_tick env) (env_stamp env)
    else
      match parts with
      | p0 :: p1 :: p2 :: _ =>
          let mac := lower (strip p0) in
          match py_float p1 with
          | None => tick e (t_tick env) (env_stamp env)
          | Some rssi =>
              match py_float p2 with
              | None => tick e (t_tick env) (env_stamp env)
              | Some motion =>
                  e' ← ingest e (t_ingest env) (env_rng env) mac rssi motion;
                  tick e' (t_tick env) (env_stamp env)
              end
          end
      | _ => None
      end.


End Engine.


(** The sample count as the specification words it: each scaled unit is
    rounded to the nearest integer before the sum is capped. *)
Definition sample_count_rounded (motion_u drssi_u : R) : Z :=
  let k := BASE_SAMPLES
           + py_round (IZR SAMPLES_PER_MOTION * motion_u)
           + py_round (IZR SAMPLES_PER_DRSSI * drssi_u) in
  if k >? MAX_SAMPLES_PER then MAX_SAMPLES_PER else k.

(** ** Canvas states

    What [resize] establishes and neither [decay] nor deposition changes:
    the geometry derived from a terminal of at least 120 x 40 characters,
    three layers of [ws * hs] entries, and the cell mask of that geometry. *)
Record canvas_wf (cv : BrailleCanvas) : Prop := mk_canvas_wf {
  wf_wc : 118 <= cv_wc cv;
  wf_hc : 36 <= cv_hc cv;
  wf_ws : cv_ws cv = cv_wc cv * 2;
  wf_hs : cv_hs cv = cv_hc cv * 4;
  wf_cx : cv_cx cv = cv_ws cv `div` 2;
  wf_cy : cv_cy cv = cv_hs cv `div` 2;
  wf_R : cv_R cv = Z.min (cv_cx cv) (cv_cy cv) - 4;
  wf_fast : length (fast cv) = Z.to_nat (cv_ws cv * cv_hs cv);
  wf_slow : length (slow cv) = Z.to_nat (cv_ws cv * cv_hs cv);
  wf_hit : length (hit cv) = Z.to_nat (cv_ws cv * cv_hs cv);
  wf_mask : cell_mask cv
            = build_mask (cv_wc cv) (cv_hc cv) (cv_cx cv) (cv_cy cv) (cv_R cv)
}.

(** Every entry of the three layers is non-negative. *)
Definition layers_nonneg (cv : BrailleCanvas) : Prop :=
  Forall (fun v => (0 <= v)%R) (fast cv)
  /\ Forall (fun v => (0 <= v)%R) (slow cv)
  /\ Forall (fun h => 0 <= h) (hit cv).

(** The ink a layer holds: the sum of its entries. *)
Definition layer_total (l : list R) : R := foldr Rplus 0%R l.

(** A bound on the steps of any ray [ingest] casts on a canvas of radius
    [Rsub]: the ray is at most [1 + JITTER_R_FRAC] times [Rsub - 2] long. *)
Definition ray_steps_bound (Rsub : R) : R :=
  Rmax 1 ((1 + JITTER_R_FRAC) * (Rsub - 2) * (RAY_STEPS_PER_M / 8)).

Section Runs.
Context {G : Type} `{RandomSource G}.
Variable md5_int : string -> Z.
Variable py_float : string -> option R.

(** The operations that change an engine while [main] runs. *)
Inductive engine_step : Engine -> Engine -> Prop :=
| step_ingest e now g mac rssi motion e' :
    ingest md5_int e now g mac rssi motion = Some e' -> engine_step e e'
| step_tick e now stamp e' :
    tick e now stamp = Some e' -> engine_step e e'
| step_resize e sz :
    engine_step e (on_resize sz e).

(** The engines reachable from a freshly constructed one. *)
Inductive reachable : Engine -> Prop :=
| reach_new sz now : reachable (new_engine sz now)
| reach_step e e' : reachable e -> engine_step e e' -> reachable e'.

(** The lines [main] does not hand to [ingest]: blank, starting with
    [cnt], fewer than three fields, or a strength or motion field that
    [float] rejects. *)
Definition malformed (line : string) : Prop :=
  let s := strip line in
  s = ""
  \/ String.prefix "cnt" s = true
  \/ (length (split_comma s) < 3)%nat
  \/ (exists p0 p1 p2 rest, split_comma s = p0 :: p1 :: p2 :: rest
                            /\ (py_float p1 = None \/ py_float p2 = None)).

End Runs.

(** A layer with every entry multiplied by [f], as [decay] leaves it. *)
Definition scale (f : R) (l : list R) : list R := map (fun v => (v * f)%R) l.

(** The position [render] reads the percentile value from. *)
Definition q_index (merged : list R) : Z :=
  let n := Z.of_nat (length (sorted merged)) in
  clampZ (py_int (HISTO_EQ_FRACTION * IZR n)%R - 1) 0 (n - 1).

(** A list of floats in ascending order. *)
Fixpoint ascending (l : list R) : Prop :=
  match l with
  | [] => True
  | x :: l' => Forall (fun y => (x <= y)%R) l' /\ ascending l'
  end.

(** [cv'] is [cv] after deposits worth at most [budget] of ink: the
    geometry, the mask and the time stamps are those of [cv], the layers
    keep their sizes, non-negative layers stay non-negative, and the fast
    layer holds no less ink than before and at most [budget] more. *)
Record deposited (budget : R) (cv cv' : BrailleCanvas) : Prop := mk_deposited {
  dep_frame : cv' = with_layers cv (fast cv') (slow cv') (hit cv');
  dep_fast_len : length (fast cv') = length (fast cv);
  dep_slow_len : length (slow cv') = length (slow cv);
  dep_hit_len : length (hit cv') = length (hit cv);
  dep_nonneg : layers_nonneg cv -> layers_nonneg cv';
  dep_total : (layer_total (fast cv) <= layer_total (fast cv')
               <= layer_total (fast cv) + budget)%R
}.

(** ** Example states

    A freshly built canvas on the smallest terminal (236 x 144
    sub-pixels, centre (118, 72)), the same canvas after one splat of one
    unit of ink at the centre, and engines around them. *)
Definition fresh_canvas : BrailleCanvas := new_canvas (0, 0) 0.

Definition centre_idx : nat := Z.to_nat (72 * 236 + 118).

Definition lit_canvas : BrailleCanvas :=
  with_layers fresh_canvas
              (<[centre_idx := 1%R]> (fast fresh_canvas))
              (<[centre_idx := (1 * SLOW_GAIN)%R]> (slow fresh_canvas))
              (<[centre_idx := 1]> (hit fresh_canvas)).

Definition lit_engine : Engine :=
  mkEngine lit_canvas 0 (1 / TARGET_FPS) 1 ∅ [ESC +:+ "[?25l"].

(** No text is a number, and every MAC hashes to 0: enough to run the
    line reader on lines that never reach [float]. *)
Definition no_float (s : string) : option R := None.
Definition zero_hash (s : string) : Z := 0.

(** ** The whole program and its bookkeeping *)

Section Program.
Context {G : Type} `{RandomSource G}.
Variable md5_int : string -> Z.
Variable py_float : string -> option R.


End Program.

(** [",".join(fields)] *)
Definition join_comma (fields : list string) : string := String.concat "," fields.

(** The number of hits a congestion layer holds. *)
Definition hit_total (l : list Z) : Z := foldr Z.add 0 l.

(** [cv'] is [cv] after exactly [n] splats of [ink] have landed: same
    geometry, mask and time stamps, layers of the same sizes; the fast layer
    holds [n * ink] more, the slow layer [n * ink * SLOW_GAIN] more, the hit
    layer [n] more; and an entry that is not the position of a sub-pixel
    inside the circle is the same in all three layers. *)
Record painted (ink : R) (n : Z) (cv cv' : BrailleCanvas) : Prop := mk_painted {
  pt_frame : cv' = with_layers cv (fast cv') (slow cv') (hit cv');
  pt_fast_len : length (fast cv') = length (fast cv);
  pt_slow_len : length (slow cv') = length (slow cv);
  pt_hit_len : length (hit cv') = length (hit cv);
  pt_count : 0 <= n;
  pt_fast : layer_total (fast cv') = (layer_total (fast cv) + IZR n * ink)%R;
  pt_slow : layer_total (slow cv')
            = (layer_total (slow cv) + IZR n * (ink * SLOW_GAIN))%R;
  pt_hit : hit_total (hit cv') = hit_total (hit cv) + n;
  pt_outside : forall i : nat,
      (forall x y, 0 <= x < cv_ws cv -> 0 <= y < cv_hs cv ->
                   _in_circle_sub cv x y = true -> Z.to_nat (_idx cv x y) <> i) ->
      fast cv' !! i = fast cv !! i
      /\ slow cv' !! i = slow cv !! i
      /\ hit cv' !! i = hit cv !! i
}.

(** Every sub-pixel of the grid that lies outside the circle holds no ink
    and no hit. *)
Definition outside_dark (cv : BrailleCanvas) : Prop :=
  forall x y, 0 <= x < cv_ws cv -> 0 <= y < cv_hs cv ->
    _in_circle_sub cv x y = false ->
    py_index (fast cv) (_idx cv x y) = Some 0%R
    /\ py_index (slow cv) (_idx cv x y) = Some 0%R
    /\ py_index (hit cv) (_idx cv x y) = Some 0.

(** [i] is the position of a sub-pixel inside the circle, at most one step
    away from [(x, y)] in each direction, whose hit counter is [h]. *)
Definition near_target (cv : BrailleCanvas) (x y i h : Z) : Prop :=
  exists nx ny,
    i = _idx cv nx ny
    /\ 0 <= nx < cv_ws cv /\ 0 <= ny < cv_hs cv
    /\ _in_circle_sub cv nx ny = true
    /\ x - 1 <= nx <= x + 1 /\ y - 1 <= ny <= y + 1
    /\ py_index (hit cv) i = Some h.

(** ** Vocabulary for the line reader and the dot patterns *)


(** [s] contains no comma. *)
Fixpoint no_comma (s : string) : bool :=
  match s with
  | EmptyString => true
  | String a s' => negb (Ascii.eqb a ",") && no_comma s'
  end.

(** The number of commas in [s]. *)
Fixpoint count_commas (s : string) : nat :=
  match s with
  | EmptyString => O
  | String a s' => ((if Ascii.eqb a "," then 1 else 0) + count_commas s')%nat
  end.



(** The Braille dot number of sub-cell [(sx, sy)], as the comment in
    [render] lists them: (0,0)->1, (0,1)->2, (0,2)->3, (0,3)->7,
    (1,0)->4, (1,1)->5, (1,2)->6, (1,3)->8. *)
Definition dot_number (sx sy : Z) : Z :=
  if sy <? 3 then 3 * sx + sy + 1 else 7 + sx.


(** ** The sample count on binary64

    The sample count of [ingest] once more, this time on IEEE binary64
    numbers as Python computes it, where a product can overflow to an
    infinity and [int] then raises.  [None] stands for the exception. *)
Module B64.
Import PrimFloat FloatOps SpecFloat.

(** [int(x)]: truncation toward zero; [OverflowError] on an infinity and
    [ValueError] on a NaN. *)
Definition py_int (x : float) : option Z :=
  match Prim2SF x with
  | S754_zero _ => Some 0
  | S754_finite s m e =>
      let mag := Z.shiftl (Z.pos m) e in
      Some (if s then - mag else mag)
  | S754_infinity _ => None
  | S754_nan => None
  end.

Definition DRSSI_CLAMP : float := 8.
Definition SAMPLES_PER_MOTION : float := 10.
Definition SAMPLES_PER_DRSSI : float := 30.

Definition clamp (a lo hi : float) : float :=
  if ltb a lo then lo else if ltb hi a then hi else a.

(** [motion_u = max(0.0, st["motion_ema"])] *)
Definition motion_unit (m_ema : float) : float := if ltb 0 m_ema then m_ema else 0.

(** [drssi_u = clamp(abs(d_rs), 0.0, DRSSI_CLAMP) / DRSSI_CLAMP] *)
Definition drssi_unit (d_rs : float) : float :=
  div (clamp (abs d_rs) 0 DRSSI_CLAMP) DRSSI_CLAMP.

(** The sample count [k], with [int] called on each product before the
    cap is applied. *)
Definition sample_count (motion_u drssi_u : float) : option Z :=
  a ← py_int (mul SAMPLES_PER_MOTION motion_u);
  b ← py_int (mul SAMPLES_PER_DRSSI drssi_u);
  let k := BASE_SAMPLES + a + b in
  Some (if k >? MAX_SAMPLES_PER then MAX_SAMPLES_PER else k).

(** The count for the first observation of a MAC with motion score
    [motion]: [motion_ema] is [motion] itself and [d_rs] is [0.0]. *)
Definition first_sample_count (motion : float) : option Z :=
  sample_count (motion_unit motion) (drssi_unit 0).

(** What [float] reads from the texts [1e308], [1e6] and [0.06]. *)
#[warnings="-inexact-float"]
Definition huge_motion : float := 1e308.
Definition large_motion : float := 1e6.
#[warnings="-inexact-float"]
Definition small_motion : float := 0.06.

End B64.

(** ** The inputs the line reader is verified for

    [strip] and [lower] are [str.strip] and [str.lower] on ASCII text, and
    the numbers are real numbers, which [float] values are as long as they
    are finite.  What is proved of [main]'s loop is therefore stated for
    lines of ASCII characters whose numeric fields cannot be read as an
    infinity or a NaN and are read, if at all, as numbers of moderate size,
    starting from per-MAC states that hold such numbers. *)









Section Inputs.
Variable py_float : string -> option R.



End Inputs.

(** * Properties *)

(** ** Truncation and rounding *)

Section Truncation.
Local Open Scope R_scope.

Lemma py_int_floor (x : R) : 0 <= x -> IZR (py_int x) <= x < IZR (py_int x) + 1.
Proof.
  intros Hx. unfold py_int. destruct (Rle_dec 0 x) as [_|Hn]; [|lra].
  destruct (base_Int_part x). lra.
Qed.

Lemma py_int_nonneg (x : R) : 0 <= x -> (0 <= py_int x)%Z.
Proof.
  intros Hx. destruct (py_int_floor x Hx) as [_ Hlt].
  assert (Hm : IZR (-1) < IZR (py_int x)) by (simpl; lra).
  apply lt_IZR in Hm. lia.
Qed.

Lemma py_int_eq (x : R) (z : Z) : IZR z <= x < IZR z + 1 -> 0 <= x -> py_int x = z.
Proof.
  intros [Hlo Hhi] Hx. destruct (py_int_floor x Hx) as [Hl Hh].
  assert (H1 : IZR (py_int x) < IZR (z + 1)) by (rewrite plus_IZR; simpl; lra).
  assert (H2 : IZR z < IZR (py_int x + 1)) by (rewrite plus_IZR; simpl; lra).
  apply lt_IZR in H1. apply lt_IZR in H2. lia.
Qed.

Lemma py_int_neg (x : R) : x < 0 -> py_int x = (- py_int (- x))%Z.
Proof.
  intros Hx. unfold py_int.
  destruct (Rle_dec 0 x); [lra|]. destruct (Rle_dec 0 (- x)); [reflexivity|lra].
Qed.

Lemma py_int_nonpos (x : R) : x <= 0 -> (py_int x <= 0)%Z.
Proof.
  intros [Hx| ->].
  - rewrite (py_int_neg x Hx). assert (0 <= py_int (- x))%Z by (apply py_int_nonneg; lra). lia.
  - rewrite (py_int_eq 0 0); [lia| simpl; lra | lra].
Qed.

Lemma py_int_IZR (z : Z) : (0 <= z)%Z -> py_int (IZR z) = z.
Proof.
  intros Hz. apply py_int_eq; [lra|]. apply (IZR_le 0 z Hz).
Qed.

Lemma py_int_mono (x y : R) : 0 <= x -> x <= y -> (py_int x <= py_int y)%Z.
Proof.
  intros Hx Hxy. destruct (py_int_floor x Hx), (py_int_floor y) as [? ?]; [lra|].
  assert (Hm : IZR (py_int x) < IZR (py_int y + 1)) by (rewrite plus_IZR; simpl; lra).
  apply lt_IZR in Hm. lia.
Qed.

Lemma py_round_eq (x : R) (z : Z) :
  IZR z - 1 / 2 < x < IZR z + 1 / 2 -> py_round x = z.
Proof.
  intros [Hlo Hhi]. unfold py_round. destruct (base_Int_part x) as [Hl Hh].
  destruct (Rlt_dec (x - IZR (Int_part x)) (1 / 2)) as [Hf|Hf].
  - assert (H1 : IZR (Int_part x) < IZR (z + 1)) by (rewrite plus_IZR; simpl; lra).
    assert (H2 : IZR (z - 1) < IZR (Int_part x)) by (rewrite minus_IZR; simpl; lra).
    apply lt_IZR in H1. apply lt_IZR in H2. lia.
  - assert (Hz : (Int_part x + 1 = z)%Z).
    { assert (H1 : IZR (Int_part x) < IZR z) by lra.
      assert (H2 : IZR (z - 2) < IZR (Int_part x)) by (rewrite minus_IZR; simpl; lra).
      apply lt_IZR in H1. apply lt_IZR in H2. lia. }
    destruct (Rlt_dec (1 / 2) (x - IZR (Int_part x))) as [Hg|Hg]; [exact Hz|].
    exfalso. rewrite <- Hz, plus_IZR in Hlo. simpl in Hlo. lra.
Qed.

End Truncation.

(** ** Projection: [rssi_to_radius_pix] *)

Section Projection.
Local Open Scope R_scope.

Lemma radius_affine (rssi Rsub : R) :
  RSSI_FAR <= rssi <= RSSI_NEAR ->
  rssi_to_radius_pix rssi Rsub = 2 + (RSSI_NEAR - rssi) / 60 * (Rsub - 4).
Proof.
  unfold rssi_to_radius_pix, RSSI_NEAR, RSSI_FAR. intros [Hlo Hhi].
  destruct (Rgt_dec rssi (-30)); [lra|]. destruct (Rlt_dec rssi (-90)); [lra|].
  f_equal. f_equal. f_equal. lra.
Qed.

Lemma radius_saturates_near (rssi Rsub : R) :
  RSSI_NEAR <= rssi -> rssi_to_radius_pix rssi Rsub = 2.
Proof.
  unfold rssi_to_radius_pix, RSSI_NEAR, RSSI_FAR. intros Hn.
  destruct (Rgt_dec rssi (-30)).
  - destruct (Rlt_dec (-30) (-90)); [lra|]. field.
  - assert (rssi = -30) as -> by lra. destruct (Rlt_dec (-30) (-90)); [lra|]. field.
Qed.

Lemma radius_saturates_far (rssi Rsub : R) :
  rssi <= RSSI_FAR -> rssi_to_radius_pix rssi Rsub = Rsub - 2.
Proof.
  unfold rssi_to_radius_pix, RSSI_NEAR, RSSI_FAR. intros Hf.
  destruct (Rgt_dec rssi (-30)); [lra|].
  destruct (Rlt_dec rssi (-90)); [field|].
  assert (rssi = -90) as -> by lra. field.
Qed.

(** The value as a function of the clamped strength. *)
Lemma radius_cases (rssi Rsub : R) :
  exists c, RSSI_FAR <= c <= RSSI_NEAR /\
            (rssi <= RSSI_NEAR -> RSSI_FAR <= rssi -> c = rssi) /\
            (RSSI_NEAR <= rssi -> c = RSSI_NEAR) /\
            (rssi <= RSSI_FAR -> c = RSSI_FAR) /\
            rssi_to_radius_pix rssi Rsub = 2 + (RSSI_NEAR - c) / 60 * (Rsub - 4).
Proof.
  destruct (Rle_dec RSSI_NEAR rssi) as [Hn|Hn].
  - exists RSSI_NEAR. rewrite radius_saturates_near by exact Hn.
    unfold RSSI_NEAR, RSSI_FAR in *. repeat split; try lra.
  - destruct (Rle_dec rssi RSSI_FAR) as [Hf|Hf].
    + exists RSSI_FAR. rewrite radius_saturates_far by exact Hf.
      unfold RSSI_NEAR, RSSI_FAR in *. repeat split; try lra.
    + exists rssi. rewrite radius_affine by (unfold RSSI_NEAR, RSSI_FAR in *; lra).
      unfold RSSI_NEAR, RSSI_FAR in *. repeat split; try lra.
Qed.

(** C2, as stated, fails: at the weak end of the range the radius is
    [Rsub - 2], above [Rsub - 4]; and for a [Rsub] below 4 a stronger
    signal gets the larger radius. *)
Lemma rssi_to_radius_pix_exceeds_Rsub_minus_4 :
  (rssi_to_radius_pix (-90) 68 = 66 /\ ~ rssi_to_radius_pix (-90) 68 <= 68 - 4)
  /\ (-90 <= -30 /\ ~ rssi_to_radius_pix (-30) 0 <= rssi_to_radius_pix (-90) 0).
Proof.
  assert (H1 : rssi_to_radius_pix (-90) 68 = 66).
  { rewrite radius_saturates_far by (unfold RSSI_FAR; lra). lra. }
  assert (H2 : rssi_to_radius_pix (-30) 0 = 2).
  { apply radius_saturates_near. unfold RSSI_NEAR. lra. }
  assert (H3 : rssi_to_radius_pix (-90) 0 = -2).
  { rewrite radius_saturates_far by (unfold RSSI_FAR; lra). lra. }
  rewrite H1, H2, H3. repeat split; lra.
Qed.

(** C2 (amended): for a maximum radius of at least 4 sub-pixels,
    [rssi_to_radius_pix] is non-increasing in the strength, its result lies
    in [2, Rsub - 2], and strengths outside [RSSI_FAR, RSSI_NEAR] saturate
    to the values at the end points, 2 and [Rsub - 2]. *)
Theorem rssi_to_radius_pix_monotone_bounded (Rsub : R) (HR : 4 <= Rsub) :
  (forall rssi, 2 <= rssi_to_radius_pix rssi Rsub <= Rsub - 2)
  /\ (forall a b, a <= b -> rssi_to_radius_pix b Rsub <= rssi_to_radius_pix a Rsub)
  /\ (forall rssi, RSSI_NEAR <= rssi ->
        rssi_to_radius_pix rssi Rsub = rssi_to_radius_pix RSSI_NEAR Rsub
        /\ rssi_to_radius_pix rssi Rsub = 2)
  /\ (forall rssi, rssi <= RSSI_FAR ->
        rssi_to_radius_pix rssi Rsub = rssi_to_radius_pix RSSI_FAR Rsub
        /\ rssi_to_radius_pix rssi Rsub = Rsub - 2).
Proof.
  repeat split.
  - destruct (radius_cases rssi Rsub) as (c & Hc & _ & _ & _ & ->).
    unfold RSSI_NEAR, RSSI_FAR in *. nra.
  - destruct (radius_cases rssi Rsub) as (c & Hc & _ & _ & _ & ->).
    unfold RSSI_NEAR, RSSI_FAR in *. nra.
  - intros a b Hab.
    destruct (radius_cases a Rsub) as (ca & Hca & Ia & Na & Fa & ->).
    destruct (radius_cases b Rsub) as (cb & Hcb & Ib & Nb & Fb & ->).
    assert (Hc : ca <= cb).
    { unfold RSSI_NEAR, RSSI_FAR in *.
      destruct (Rle_dec (-30) b); [rewrite Nb by assumption; lra|].
      destruct (Rle_dec a (-90)); [rewrite Fa by assumption; lra|].
      rewrite Ia, Ib by lra. exact Hab. }
    unfold RSSI_NEAR in *. nra.
  - rewrite !radius_saturates_near; unfold RSSI_NEAR in *; auto; lra.
  - apply radius_saturates_near; assumption.
  - rewrite !radius_saturates_far; unfold RSSI_FAR in *; auto; lra.
  - apply radius_saturates_far; assumption.
Qed.

Lemma rssi_to_radius_pix_monotone_bounded_witness :
  4 <= 68
  /\ 2 <= rssi_to_radius_pix (-50) 68 <= 68 - 2
  /\ rssi_to_radius_pix (-40) 68 <= rssi_to_radius_pix (-50) 68.
Proof.
  assert (HR : 4 <= 68) by lra.
  destruct (rssi_to_radius_pix_monotone_bounded 68 HR) as (Hb & Hm & _).
  split; [exact HR|]. split; [apply Hb | apply Hm; lra].
Defined.

End Projection.

(** ** Signal conditioner: units and sample count *)

Section Conditioner.
Local Open Scope R_scope.

Lemma motion_unit_nonneg (m_ema : R) : 0 <= motion_unit m_ema.
Proof. unfold motion_unit. destruct (Rgt_dec m_ema 0); lra. Qed.

Lemma clamp_range (a lo hi : R) : lo <= hi -> lo <= clamp a lo hi <= hi.
Proof.
  intros Hlh. unfold clamp.
  destruct (Rlt_dec a lo); [lra|]. destruct (Rgt_dec a hi); lra.
Qed.

Lemma drssi_unit_range (d_rs : R) : 0 <= drssi_unit d_rs <= 1.
Proof.
  unfold drssi_unit, DRSSI_CLAMP.
  destruct (clamp_range (Rabs d_rs) 0 8) as [Hlo Hhi]; lra.
Qed.

Lemma sample_count_cap (motion_u drssi_u : R) :
  sample_count motion_u drssi_u = Z.min MAX_SAMPLES_PER (raw_sample_count motion_u drssi_u).
Proof.
  unfold sample_count.
  destruct (Z.gtb_spec (raw_sample_count motion_u drssi_u) MAX_SAMPLES_PER); lia.
Qed.

Lemma sample_count_bounds (m_ema d_rs : R) :
  (BASE_SAMPLES <= sample_count (motion_unit m_ema) (drssi_unit d_rs) <= MAX_SAMPLES_PER)%Z.
Proof.
  pose proof (motion_unit_nonneg m_ema) as Hm.
  pose proof (drssi_unit_range d_rs) as Hd.
  assert (Ha : (0 <= py_int (IZR SAMPLES_PER_MOTION * motion_unit m_ema))%Z).
  { apply py_int_nonneg. unfold SAMPLES_PER_MOTION. lra. }
  assert (Hb : (0 <= py_int (IZR SAMPLES_PER_DRSSI * drssi_unit d_rs))%Z).
  { apply py_int_nonneg. unfold SAMPLES_PER_DRSSI. lra. }
  rewrite sample_count_cap. unfold raw_sample_count, BASE_SAMPLES, MAX_SAMPLES_PER. lia.
Qed.

(** Over exact reals, where no product overflows: whatever the smoothed
    motion and the rate of change of the strength are, the sample count lies
    between [BASE_SAMPLES] and [MAX_SAMPLES_PER], that is between 24 and
    600; the motion unit it is computed from is floored at 0 and the rate
    unit lies in [0,1].  On binary64 the product [10 * motion_u] can
    overflow, which [B64.sample_count] accounts for. *)
Theorem sample_count_within_base_and_cap (m_ema d_rs : R) :
  (BASE_SAMPLES <= sample_count (motion_unit m_ema) (drssi_unit d_rs) <= MAX_SAMPLES_PER)%Z
  /\ (24 <= sample_count (motion_unit m_ema) (drssi_unit d_rs) <= 600)%Z
  /\ 0 <= motion_unit m_ema
  /\ 0 <= drssi_unit d_rs <= 1.
Proof.
  split; [apply sample_count_bounds|].
  split; [apply (sample_count_bounds m_ema d_rs)|].
  split; [apply motion_unit_nonneg | apply drssi_unit_range].
Qed.

(** C7, as stated, fails: for a motion unit of 0.06 the scaled motion is
    0.6, which [int] truncates to 0 where rounding gives 1. *)
Lemma sample_count_truncates_not_rounds :
  motion_unit (6 / 100) = 6 / 100 /\ drssi_unit 0 = 0
  /\ sample_count (6 / 100) 0 = 24%Z
  /\ sample_count_rounded (6 / 100) 0 = 25%Z
  /\ sample_count (6 / 100) 0 <> sample_count_rounded (6 / 100) 0.
Proof.
  assert (Hm : motion_unit (6 / 100) = 6 / 100).
  { unfold motion_unit. destruct (Rgt_dec (6 / 100) 0); lra. }
  assert (Hd : drssi_unit 0 = 0).
  { unfold drssi_unit, clamp, DRSSI_CLAMP. rewrite Rabs_R0.
    destruct (Rlt_dec 0 0); [lra|]. destruct (Rgt_dec 0 8); lra. }
  assert (Hc : sample_count (6 / 100) 0 = 24%Z).
  { unfold sample_count, raw_sample_count, SAMPLES_PER_MOTION, SAMPLES_PER_DRSSI.
    rewrite (py_int_eq (10 * (6 / 100)) 0), (py_int_eq (30 * 0) 0) by (simpl; lra).
    reflexivity. }
  assert (Hr : sample_count_rounded (6 / 100) 0 = 25%Z).
  { unfold sample_count_rounded, SAMPLES_PER_MOTION, SAMPLES_PER_DRSSI.
    rewrite (py_round_eq (10 * (6 / 100)) 1), (py_round_eq (30 * 0) 0) by (simpl; lra).
    reflexivity. }
  repeat split; try assumption. rewrite Hc, Hr. discriminate.
Qed.

(** C7 (amended): the sample count is [BASE_SAMPLES] plus the two scaled
    units each truncated to an integer (the largest integer not above the
    scaled unit, both being non-negative), capped at [MAX_SAMPLES_PER]. *)
Theorem sample_count_sums_truncations (m_ema d_rs : R) :
  exists a b : Z,
    IZR a <= IZR SAMPLES_PER_MOTION * motion_unit m_ema < IZR a + 1
    /\ IZR b <= IZR SAMPLES_PER_DRSSI * drssi_unit d_rs < IZR b + 1
    /\ sample_count (motion_unit m_ema) (drssi_unit d_rs)
       = Z.min MAX_SAMPLES_PER (BASE_SAMPLES + a + b).
Proof.
  pose proof (motion_unit_nonneg m_ema) as Hm.
  pose proof (drssi_unit_range d_rs) as Hd.
  exists (py_int (IZR SAMPLES_PER_MOTION * motion_unit m_ema)),
         (py_int (IZR SAMPLES_PER_DRSSI * drssi_unit d_rs)).
  split; [apply py_int_floor; unfold SAMPLES_PER_MOTION; lra|].
  split; [apply py_int_floor; unfold SAMPLES_PER_DRSSI; lra|].
  apply sample_count_cap.
Qed.

End Conditioner.

(** ** Colour ramp: [color_for] *)

Section Colour.
Local Open Scope R_scope.

Lemma ramp_index (i : Z) :
  (0 <= i < 5)%Z -> exists c, py_index CHAR_FG_RAMP i = Some c.
Proof.
  intros Hi.
  assert (Hc : i = 0%Z \/ i = 1%Z \/ i = 2%Z \/ i = 3%Z \/ i = 4%Z) by lia.
  destruct Hc as [-> | [-> | [-> | [-> | ->]]]]; eexists; reflexivity.
Qed.

Lemma ramp_segment (u : R) :
  0 < u < 1 -> (0 <= py_int (u * IZR (Z.of_nat (length CHAR_FG_RAMP) - 1)) <= 3)%Z.
Proof.
  intros Hu. change (IZR (Z.of_nat (length CHAR_FG_RAMP) - 1)) with 4. split.
  - apply py_int_nonneg. lra.
  - destruct (py_int_floor (u * 4)) as [Hlo _]; [lra|].
    assert (Hm : IZR (py_int (u * 4)) < IZR 4) by lra. apply lt_IZR in Hm. lia.
Qed.

Lemma color_for_low (u : R) : u <= 0 -> color_for u = Some (ESC +:+ "[38;5;240m").
Proof. intros Hu. unfold color_for. destruct (Rle_dec u 0); [reflexivity|lra]. Qed.

Lemma color_for_high (u : R) : 1 <= u -> color_for u = Some (fg_escape 196).
Proof.
  intros Hu. unfold color_for. destruct (Rle_dec u 0); [lra|].
  destruct (Rge_dec u 1); [reflexivity|lra].
Qed.

Lemma color_for_mid (u : R) :
  0 < u < 1 ->
  let segs := (Z.of_nat (length CHAR_FG_RAMP) - 1)%Z in
  let i := py_int (u * IZR segs) in
  (0 <= i < Z.of_nat (length CHAR_FG_RAMP))%Z
  /\ (0 <= Z.min (i + 1) segs < Z.of_nat (length CHAR_FG_RAMP))%Z
  /\ exists c1 c2,
       py_index CHAR_FG_RAMP i = Some c1
       /\ py_index CHAR_FG_RAMP (Z.min (i + 1) segs) = Some c2
       /\ color_for u
          = Some (fg_escape (if Rgt_dec (u * IZR segs - IZR i) (1 / 2) then c2 else c1)).
Proof.
  intros Hu segs i. pose proof (ramp_segment u Hu) as Hi. fold segs in Hi. fold i in Hi.
  assert (Hs : segs = 4%Z) by reflexivity.
  assert (Hl : Z.of_nat (length CHAR_FG_RAMP) = 5%Z) by reflexivity.
  destruct (ramp_index i) as [c1 Hc1]; [lia|].
  destruct (ramp_index (Z.min (i + 1) segs)) as [c2 Hc2]; [lia|].
  split; [lia|]. split; [lia|]. exists c1, c2. split; [exact Hc1|]. split; [exact Hc2|].
  unfold color_for. destruct (Rle_dec u 0); [lra|]. destruct (Rge_dec u 1); [lra|].
  fold segs. fold i. rewrite Hc1, Hc2. reflexivity.
Qed.

Lemma color_for_defined (u : R) : exists esc, color_for u = Some esc.
Proof.
  destruct (Rle_dec u 0) as [H0|H0]; [eexists; apply color_for_low; exact H0|].
  destruct (Rle_dec 1 u) as [H1|H1]; [eexists; apply color_for_high; exact H1|].
  destruct (color_for_mid u) as (_ & _ & c1 & c2 & _ & _ & Hc); [lra|]. eexists; exact Hc.
Qed.

(** C10: [color_for] returns an escape sequence for every intensity:
    the grey one at or below 0, that of the last palette entry at or
    above 1, and in between both palette positions it reads, [i] and
    [min(i+1, segs)], are inside the palette. *)
Theorem color_for_total (u : R) :
  (exists esc, color_for u = Some esc)
  /\ (u <= 0 -> color_for u = Some (ESC +:+ "[38;5;240m"))
  /\ (1 <= u -> color_for u = Some (fg_escape 196)
                /\ List.last CHAR_FG_RAMP 0%Z = 196%Z)
  /\ (0 < u < 1 ->
      let segs := (Z.of_nat (length CHAR_FG_RAMP) - 1)%Z in
      let i := py_int (u * IZR segs) in
      (0 <= i < Z.of_nat (length CHAR_FG_RAMP))%Z
      /\ (0 <= Z.min (i + 1) segs < Z.of_nat (length CHAR_FG_RAMP))%Z
      /\ exists c1 c2,
           py_index CHAR_FG_RAMP i = Some c1
           /\ py_index CHAR_FG_RAMP (Z.min (i + 1) segs) = Some c2
           /\ color_for u
              = Some (fg_escape (if Rgt_dec (u * IZR segs - IZR i) (1 / 2) then c2 else c1))).
Proof.
  split; [apply color_for_defined|]. split; [apply color_for_low|].
  split; [|apply color_for_mid].
  intros Hu. split; [apply color_for_high; exact Hu|reflexivity].
Qed.

Lemma color_for_total_witness :
  0 < 1 / 2 < 1
  /\ (0 <= py_int (1 / 2 * IZR (Z.of_nat (length CHAR_FG_RAMP) - 1))
      < Z.of_nat (length CHAR_FG_RAMP))%Z
  /\ exists esc, color_for (1 / 2) = Some esc.
Proof.
  assert (Hu : 0 < 1 / 2 < 1) by lra.
  destruct (color_for_total (1 / 2)) as (He & _ & _ & Hm).
  destruct (Hm Hu) as (Hi & _). split; [exact Hu|]. split; [exact Hi|exact He].
Defined.

End Colour.

(** ** Python indexing *)

Section Indexing.
Context {A : Type}.
Implicit Types (l : list A) (i : Z).

Lemma py_index_in_range l i :
  0 <= i < Z.of_nat (length l) -> py_index l i = l !! Z.to_nat i.
Proof.
  intros Hi. unfold py_index.
  destruct (Z.leb_spec 0 i); [|lia].
  destruct (Z.ltb_spec i (Z.of_nat (length l))); [reflexivity|lia].
Qed.

Lemma py_index_is_Some l i :
  0 <= i < Z.of_nat (length l) -> exists a, py_index l i = Some a.
Proof.
  intros Hi. rewrite py_index_in_range by exact Hi.
  destruct (lookup_lt_is_Some_2 l (Z.to_nat i)) as [a Ha]; [lia|]. eauto.
Qed.

Lemma py_store_in_range l i (v : A) :
  0 <= i < Z.of_nat (length l) -> py_store l i v = Some (<[Z.to_nat i := v]> l).
Proof.
  intros Hi. unfold py_store.
  destruct (Z.leb_spec 0 i); [|lia].
  destruct (Z.ltb_spec i (Z.of_nat (length l))); [reflexivity|lia].
Qed.

Lemma py_index_last l :
  l <> [] -> py_index l (-1) = l !! pred (length l).
Proof.
  intros Hl. unfold py_index.
  assert (0 < length l)%nat by (destruct l; [congruence | simpl; lia]).
  destruct (Z.leb_spec 0 (-1)); [lia|]. simpl.
  destruct (Z.leb_spec (- Z.of_nat (length l)) (-1)); [|lia]. simpl.
  f_equal. lia.
Qed.

(** A left fold of writes: position [n] ends up holding [b] as soon as one
    of the steps writes [b] there and every other step either does the
    same or leaves the position alone. *)
Lemma foldl_writes {B : Type} (F : list A -> B -> list A) (n : nat) (b : A) (js : list B) :
  (forall j m, j ∈ js -> length (F m j) = length m) ->
  (forall j, j ∈ js ->
     (forall m, (n < length m)%nat -> F m j !! n = Some b)
     \/ (forall m, F m j !! n = m !! n)) ->
  forall m, (n < length m)%nat ->
    (m !! n = Some b
     \/ exists j, j ∈ js /\ forall m, (n < length m)%nat -> F m j !! n = Some b) ->
    foldl F m js !! n = Some b.
Proof.
  induction js as [|j js IH]; intros Hlen Hstep m Hn Hm; simpl.
  - destruct Hm as [Hm|(j & Hj & _)]; [exact Hm|]. inversion Hj.
  - apply IH.
    + intros j' m' Hj'. apply Hlen. by right.
    + intros j' Hj'. apply Hstep. by right.
    + rewrite Hlen by (by left). exact Hn.
    + destruct (Hstep j) as [Hw|Hs]; [by left | left; by apply Hw |].
      destruct Hm as [Hm|(j' & Hj' & Hw')].
      * left. rewrite Hs. exact Hm.
      * apply elem_of_cons in Hj' as [->|Hj'].
        -- left. by apply Hw'.
        -- right. eauto.
Qed.

Lemma foldl_keeps_length {B : Type} (F : list A -> B -> list A) (js : list B) :
  (forall j m, j ∈ js -> length (F m j) = length m) ->
  forall m, length (foldl F m js) = length m.
Proof.
  induction js as [|j js IH]; intros Hlen m; simpl; [reflexivity|].
  rewrite IH; [apply Hlen; by left|]. intros j' m' Hj'. apply Hlen. by right.
Qed.

End Indexing.

(** ** The cell mask built by [resize] *)

Lemma mask_row_length (wc cx cy rad j : Z) (m : list bool) :
  length (mask_row wc cx cy rad j m) = length m.
Proof.
  unfold mask_row. apply foldl_keeps_length. intros i m' _. apply length_insert.
Qed.

Lemma build_mask_length (wc hc cx cy rad : Z) :
  length (build_mask wc hc cx cy rad) = Z.to_nat (wc * hc).
Proof.
  unfold build_mask. rewrite foldl_keeps_length; [apply length_replicate|].
  intros j m _. apply mask_row_length.
Qed.

Lemma mask_row_writes (wc cx cy rad j i : Z) (m : list bool) :
  0 <= i < wc -> 0 <= j -> (Z.to_nat (j * wc + i) < length m)%nat ->
  mask_row wc cx cy rad j m !! Z.to_nat (j * wc + i)
  = Some (in_circle cx cy rad (i * 2 + 1) (j * 4 + 2)).
Proof.
  intros Hi Hj Hn. unfold mask_row. apply foldl_writes.
  - intros i' m' _. apply length_insert.
  - intros i' Hi'. apply elem_of_seqZ in Hi'.
    destruct (decide (i' = i)) as [->|Hne].
    + left. intros m' Hm'. simpl. by apply list_lookup_insert_eq.
    + right. intros m'. simpl. apply list_lookup_insert_ne. nia.
  - exact Hn.
  - right. exists i. split; [apply elem_of_seqZ; lia|].
    intros m' Hm'. simpl. by apply list_lookup_insert_eq.
Qed.

Lemma mask_row_skips (wc cx cy rad j j' i : Z) (m : list bool) :
  0 <= i < wc -> 0 <= j -> 0 <= j' -> j' <> j ->
  mask_row wc cx cy rad j' m !! Z.to_nat (j * wc + i) = m !! Z.to_nat (j * wc + i).
Proof.
  intros Hi Hj Hj' Hne. unfold mask_row.
  assert (Hb : Forall (fun i' => 0 <= i' < wc) (seqZ 0 wc)).
  { apply Forall_seqZ. intros; lia. }
  revert m Hb. generalize (seqZ 0 wc) as cols.
  induction cols as [|i' cols IH]; intros m Hb; simpl; [reflexivity|].
  inversion Hb as [|? ? Hi' Hb']; subst. rewrite IH by exact Hb'.
  apply list_lookup_insert_ne. nia.
Qed.

Lemma build_mask_lookup (wc hc cx cy rad j i : Z) :
  0 <= i < wc -> 0 <= j < hc ->
  py_index (build_mask wc hc cx cy rad) (j * wc + i)
  = Some (in_circle cx cy rad (i * 2 + 1) (j * 4 + 2)).
Proof.
  intros Hi Hj.
  rewrite py_index_in_range by (rewrite build_mask_length; nia).
  unfold build_mask. apply foldl_writes.
  - intros j' m _. apply mask_row_length.
  - intros j' Hj'. apply elem_of_seqZ in Hj'.
    destruct (decide (j' = j)) as [->|Hne].
    + left. intros m Hm. apply mask_row_writes; [lia | lia | exact Hm].
    + right. intros m. apply mask_row_skips; lia.
  - rewrite length_replicate. nia.
  - right. exists j. split; [apply elem_of_seqZ; lia|].
    intros m Hm. apply mask_row_writes; [lia | lia | exact Hm].
Qed.

(** ** Canvas geometry *)

Lemma resize_wf (sz : Z * Z) (tf ts : R) : canvas_wf (resize sz tf ts).
Proof.
  unfold resize, term_dims, BORDER, HEADER_LINES.
  constructor; cbn [cv_wc cv_hc cv_ws cv_hs cv_cx cv_cy cv_R fast slow hit cell_mask];
    try reflexivity; try apply length_replicate; lia.
Qed.

Lemma with_layers_wf (cv : BrailleCanvas) (f s : list R) (h : list Z) :
  canvas_wf cv ->
  length f = length (fast cv) -> length s = length (slow cv) ->
  length h = length (hit cv) ->
  canvas_wf (with_layers cv f s h).
Proof.
  intros [] Hf Hs Hh. constructor; cbn; try assumption; congruence.
Qed.

Lemma with_last_wf (cv : BrailleCanvas) (tf ts : R) :
  canvas_wf cv -> canvas_wf (with_last cv tf ts).
Proof. intros []. constructor; cbn; assumption. Qed.

Lemma in_circle_spec (cx cy rad x y : Z) :
  in_circle cx cy rad x y = true <-> (x - cx) ^ 2 + (y - cy) ^ 2 <= rad ^ 2.
Proof. unfold in_circle. rewrite Z.leb_le. nia. Qed.

Lemma in_circle_false (cx cy rad x y : Z) :
  (x - cx) ^ 2 + (y - cy) ^ 2 > rad ^ 2 -> in_circle cx cy rad x y = false.
Proof.
  intros Hout. destruct (in_circle cx cy rad x y) eqn:E; [|reflexivity].
  apply in_circle_spec in E. lia.
Qed.

(** ** The circular active region *)

Section ActiveRegion.
Context {G : Type} `{RandomSource G}.

Lemma splat_outside_grid (cv : BrailleCanvas) (x y : Z) (ink : R) (g : G) :
  x < 0 \/ cv_ws cv <= x \/ y < 0 \/ cv_hs cv <= y ->
  splat_subpixel cv x y ink g = Some (cv, g).
Proof.
  intros Hout. unfold splat_subpixel.
  destruct (Z.ltb_spec x 0); [reflexivity|].
  destruct (Z.geb_spec x (cv_ws cv)); [reflexivity|].
  destruct (Z.ltb_spec y 0); [reflexivity|].
  destruct (Z.geb_spec y (cv_hs cv)); [reflexivity|]. lia.
Qed.

Lemma splat_outside_circle (cv : BrailleCanvas) (x y : Z) (ink : R) (g : G) :
  (x - cv_cx cv) ^ 2 + (y - cv_cy cv) ^ 2 > cv_R cv ^ 2 ->
  splat_subpixel cv x y ink g = Some (cv, g).
Proof.
  intros Hout. unfold splat_subpixel, _in_circle_sub.
  rewrite (in_circle_false _ _ _ _ _ Hout).
  destruct (_ || _); reflexivity.
Qed.

(** C1: on a canvas as [resize] lays it out, with any contents of the
    three layers, [splat_subpixel] at a point outside the grid or outside
    the circle of radius [R] about the centre returns with the canvas (and
    the generator) untouched, and [render] emits a single blank for every
    character cell whose centre lies outside that circle, whatever the
    merged layers and the scale are. *)
Theorem outside_circle_never_written_never_rendered
        (cv : BrailleCanvas) (f s : list R) (h : list Z) (Hwf : canvas_wf cv) :
  let cv' := with_layers cv f s h in
  (forall (x y : Z) (ink : R) (g : G),
      x < 0 \/ cv_ws cv' <= x \/ y < 0 \/ cv_hs cv' <= y
      \/ (x - cv_cx cv') ^ 2 + (y - cv_cy cv') ^ 2 > cv_R cv' ^ 2 ->
      splat_subpixel cv' x y ink g = Some (cv', g))
  /\ (forall (i j : Z) (merged : list R) (q : R),
      0 <= i < cv_wc cv' -> 0 <= j < cv_hc cv' ->
      (i * 2 + 1 - cv_cx cv') ^ 2 + (j * 4 + 2 - cv_cy cv') ^ 2 > cv_R cv' ^ 2 ->
      render_cell cv' merged q j i = Some " ").
Proof.
  intros cv'. split.
  - intros x y ink g [Hx|[Hx|[Hy|[Hy|Hc]]]];
      try (apply splat_outside_grid; tauto).
    apply splat_outside_circle. exact Hc.
  - intros i j merged q Hi Hj Hout. subst cv'. cbn in *.
    unfold render_cell. cbn. rewrite (wf_mask cv Hwf), build_mask_lookup by assumption.
    rewrite (in_circle_false _ _ _ _ _ Hout). reflexivity.
Qed.

End ActiveRegion.

Lemma outside_circle_never_written_never_rendered_witness :
  let cv := new_canvas (0, 0) 0 in
  canvas_wf cv
  /\ splat_subpixel (with_layers cv [1%R] [] [7]) (-1) 0 1 low_end
     = Some (with_layers cv [1%R] [] [7], low_end)
  /\ render_cell (with_layers cv [1%R] [] [7]) [5%R] 1 0 0 = Some " ".
Proof.
  intros cv. pose proof (resize_wf (0, 0) 0 0) as Hwf. fold (new_canvas (0, 0) 0) in Hwf.
  destruct (outside_circle_never_written_never_rendered (G := LowEnd)
              cv [1%R] [] [7] Hwf) as [Hs Hr].
  split; [exact Hwf|]. split.
  - apply Hs. left. lia.
  - apply Hr.
    + change (0 <= 0 < 118). lia.
    + change (0 <= 0 < 36). lia.
    + change ((0 * 2 + 1 - 118) ^ 2 + (0 * 4 + 2 - 72) ^ 2 > 68 ^ 2). lia.
Defined.

(** ** Decay *)

Section Decay.
Local Open Scope R_scope.

Lemma decay_fast (now : R) (cv : BrailleCanvas) :
  fast (decay now cv)
  = if Rgt_dec (now - last_fast cv) 0
    then scale (Rpower FAST_DECAY_PER_SEC (now - last_fast cv)) (fast cv)
    else fast cv.
Proof.
  unfold decay. destruct (Rgt_dec (now - last_fast cv) 0); cbn;
    destruct (Rgt_dec (now - last_slow cv) 0); reflexivity.
Qed.

Lemma decay_slow (now : R) (cv : BrailleCanvas) :
  slow (decay now cv)
  = if Rgt_dec (now - last_slow cv) 0
    then scale (Rpower SLOW_DECAY_PER_SEC (now - last_slow cv)) (slow cv)
    else slow cv.
Proof.
  unfold decay. destruct (Rgt_dec (now - last_fast cv) 0); cbn;
    destruct (Rgt_dec (now - last_slow cv) 0); reflexivity.
Qed.

Lemma decay_hit (now : R) (cv : BrailleCanvas) :
  hit (decay now cv)
  = if Rgt_dec (now - last_fast cv) 0
    then map (fun h => py_int (IZR h * Rpower FAST_DECAY_PER_SEC (now - last_fast cv)))
             (hit cv)
    else hit cv.
Proof.
  unfold decay. destruct (Rgt_dec (now - last_fast cv) 0); cbn;
    destruct (Rgt_dec (now - last_slow cv) 0); reflexivity.
Qed.

Lemma decay_last_fast (now : R) (cv : BrailleCanvas) :
  last_fast (decay now cv) = if Rgt_dec (now - last_fast cv) 0 then now else last_fast cv.
Proof.
  unfold decay. destruct (Rgt_dec (now - last_fast cv) 0); cbn;
    destruct (Rgt_dec (now - last_slow cv) 0); reflexivity.
Qed.

Lemma decay_last_slow (now : R) (cv : BrailleCanvas) :
  last_slow (decay now cv) = if Rgt_dec (now - last_slow cv) 0 then now else last_slow cv.
Proof.
  unfold decay. destruct (Rgt_dec (now - last_fast cv) 0); cbn;
    destruct (Rgt_dec (now - last_slow cv) 0); reflexivity.
Qed.

Lemma scale_scale (f g : R) (l : list R) : scale g (scale f l) = scale (f * g) l.
Proof.
  unfold scale. rewrite List.map_map. apply List.map_ext. intros v. ring.
Qed.

(** One layer: a rate raised to the time elapsed since the layer's stamp. *)
Lemma layer_decay_splits (rate last now1 now2 : R) (l : list R) :
  now1 <= now2 ->
  (let l1 := if Rgt_dec (now1 - last) 0 then scale (Rpower rate (now1 - last)) l else l in
   let last1 := if Rgt_dec (now1 - last) 0 then now1 else last in
   if Rgt_dec (now2 - last1) 0 then scale (Rpower rate (now2 - last1)) l1 else l1)
  = if Rgt_dec (now2 - last) 0 then scale (Rpower rate (now2 - last)) l else l.
Proof.
  intros Hle. cbv zeta.
  destruct (Rgt_dec (now1 - last) 0) as [H1|H1].
  - destruct (Rgt_dec (now2 - now1) 0) as [H2|H2];
      (destruct (Rgt_dec (now2 - last) 0) as [H3|H3]; [|lra]).
    + rewrite scale_scale, <- Rpower_plus. do 2 f_equal. lra.
    + do 2 f_equal. lra.
  - reflexivity.
Qed.

Lemma decay_decay (cv : BrailleCanvas) (now1 now2 : R) :
  now1 <= now2 ->
  fast (decay now2 (decay now1 cv)) = fast (decay now2 cv)
  /\ slow (decay now2 (decay now1 cv)) = slow (decay now2 cv)
  /\ last_fast (decay now2 (decay now1 cv)) = last_fast (decay now2 cv)
  /\ last_slow (decay now2 (decay now1 cv)) = last_slow (decay now2 cv).
Proof.
  intros Hle.
  repeat rewrite ?decay_fast, ?decay_slow, ?decay_last_fast, ?decay_last_slow.
  repeat split.
  - apply (layer_decay_splits FAST_DECAY_PER_SEC (last_fast cv) now1 now2 (fast cv) Hle).
  - apply (layer_decay_splits SLOW_DECAY_PER_SEC (last_slow cv) now1 now2 (slow cv) Hle).
  - destruct (Rgt_dec (now1 - last_fast cv) 0); [|reflexivity].
    destruct (Rgt_dec (now2 - now1) 0), (Rgt_dec (now2 - last_fast cv) 0); lra.
  - destruct (Rgt_dec (now1 - last_slow cv) 0); [|reflexivity].
    destruct (Rgt_dec (now2 - now1) 0), (Rgt_dec (now2 - last_slow cv) 0); lra.
Qed.

(** C5: starting at any time [t0], decaying after [t1] seconds and again
    after [t2] more leaves the fast and the slow layer (and their time
    stamps) exactly as one decay after [t1 + t2] seconds does; when [t0]
    is the time of the last decay, that one decay scales the fast layer
    by [FAST_DECAY_PER_SEC] and the slow layer by [SLOW_DECAY_PER_SEC]
    to the power [t1 + t2]. *)
Theorem decay_splits_elapsed_time (cv : BrailleCanvas) (t0 t1 t2 : R) :
  0 <= t1 -> 0 <= t2 ->
  let twice := decay (t0 + t1 + t2) (decay (t0 + t1) cv) in
  let once := decay (t0 + (t1 + t2)) cv in
  fast twice = fast once
  /\ slow twice = slow once
  /\ last_fast twice = last_fast once
  /\ last_slow twice = last_slow once
  /\ (last_fast cv = t0 -> 0 < t1 + t2 ->
      fast once = scale (Rpower FAST_DECAY_PER_SEC (t1 + t2)) (fast cv))
  /\ (last_slow cv = t0 -> 0 < t1 + t2 ->
      slow once = scale (Rpower SLOW_DECAY_PER_SEC (t1 + t2)) (slow cv)).
Proof.
  intros H1 H2 twice once. subst twice once.
  replace (t0 + (t1 + t2)) with (t0 + t1 + t2) by ring.
  destruct (decay_decay cv (t0 + t1) (t0 + t1 + t2)) as (Hf & Hs & Hlf & Hls); [lra|].
  repeat split; try assumption.
  - intros Hl Hpos. rewrite decay_fast, Hl.
    destruct (Rgt_dec (t0 + t1 + t2 - t0) 0); [|lra]. do 2 f_equal. ring.
  - intros Hl Hpos. rewrite decay_slow, Hl.
    destruct (Rgt_dec (t0 + t1 + t2 - t0) 0); [|lra]. do 2 f_equal. ring.
Qed.

Lemma decay_splits_elapsed_time_witness :
  let cv := with_layers (new_canvas (0%Z, 0%Z) 0) [4; 2] [1; 3] [5%Z; 0%Z] in
  0 <= 1 /\ 0 <= 2
  /\ fast (decay (0 + 1 + 2) (decay (0 + 1) cv)) = fast (decay (0 + (1 + 2)) cv)
  /\ slow (decay (0 + 1 + 2) (decay (0 + 1) cv)) = slow (decay (0 + (1 + 2)) cv).
Proof.
  intros cv.
  assert (H1 : 0 <= 1) by lra. assert (H2 : 0 <= 2) by lra.
  destruct (decay_splits_elapsed_time cv 0 1 2 H1 H2) as (Hf & Hs & _).
  repeat split; assumption.
Defined.

End Decay.

(** ** Adaptive brightness scale *)

Section Scale.
Local Open Scope R_scope.

Lemma insert_sorted_length (x : R) (l : list R) :
  length (insert_sorted x l) = S (length l).
Proof.
  induction l as [|y l IH]; simpl; [reflexivity|].
  destruct (Rle_dec x y); simpl; [reflexivity|]. by rewrite IH.
Qed.

Lemma sorted_length (l : list R) : length (sorted l) = length l.
Proof.
  induction l as [|x l IH]; simpl; [reflexivity|].
  rewrite insert_sorted_length. by rewrite IH.
Qed.

Lemma insert_sorted_elem (x y : R) (l : list R) :
  y ∈ insert_sorted x l <-> y = x \/ y ∈ l.
Proof.
  induction l as [|z l IH]; simpl.
  - rewrite list_elem_of_singleton. split; [tauto|]. intros [?|Hn]; [done|inversion Hn].
  - destruct (Rle_dec x z).
    + rewrite elem_of_cons. tauto.
    + rewrite !elem_of_cons, IH. tauto.
Qed.

Lemma sorted_elem (y : R) (l : list R) : y ∈ sorted l <-> y ∈ l.
Proof.
  induction l as [|x l IH]; simpl; [reflexivity|].
  rewrite insert_sorted_elem, elem_of_cons, IH. reflexivity.
Qed.

Lemma insert_sorted_ascending (x : R) (l : list R) :
  ascending l -> ascending (insert_sorted x l).
Proof.
  induction l as [|z l IH]; simpl; [intros _; split; [constructor|exact I]|].
  intros [Hz Hl]. destruct (Rle_dec x z) as [Hxz|Hxz]; simpl.
  - split; [|split; assumption]. constructor; [exact Hxz|].
    eapply Forall_impl; [exact Hz|]. intros y Hy. simpl in Hy. lra.
  - split; [|apply IH; exact Hl].
    apply Forall_forall. intros y Hy. apply insert_sorted_elem in Hy as [->|Hy]; [lra|].
    rewrite Forall_forall in Hz. by apply Hz.
Qed.

Lemma sorted_ascending (l : list R) : ascending (sorted l).
Proof.
  induction l as [|x l IH]; simpl; [exact I|]. by apply insert_sorted_ascending.
Qed.

Lemma ascending_last (l : list R) (t : R) :
  ascending l -> last l = Some t -> Forall (fun y => y <= t) l.
Proof.
  induction l as [|x l IH]; intros Hasc Hlast; [constructor|].
  destruct Hasc as [Hx Hl]. destruct l as [|z l].
  - simpl in Hlast. injection Hlast as ->. constructor; [lra|constructor].
  - change (last (z :: l) = Some t) in Hlast. specialize (IH Hl Hlast).
    constructor; [|exact IH].
    rewrite Forall_forall in Hx. apply Hx. apply list_elem_of_lookup.
    exists (pred (length (z :: l))). rewrite <- last_lookup. exact Hlast.
Qed.

Lemma clampZ_range (a lo hi : Z) : (lo <= hi)%Z -> (lo <= clampZ a lo hi <= hi)%Z.
Proof.
  intros Hlh. unfold clampZ.
  destruct (Z.ltb_spec a lo); [lia|]. destruct (Z.gtb_spec a hi); lia.
Qed.

Lemma render_scale_cases (merged : list R) :
  merged <> [] ->
  exists p top,
    py_index (sorted merged) (q_index merged) = Some p
    /\ top ∈ merged /\ Forall (fun m => m <= top) merged
    /\ render_scale merged
       = Some (if Rle_dec p (1 / 1000000000) then Rmax top 1 else p).
Proof.
  intros Hne.
  assert (Hlen : (0 < length (sorted merged))%nat).
  { rewrite sorted_length. destruct merged; [congruence|simpl; lia]. }
  assert (Hs : sorted merged <> []).
  { intros E. rewrite E in Hlen. simpl in Hlen. lia. }
  destruct (py_index_is_Some (sorted merged) (q_index merged)) as [p Hp].
  { unfold q_index.
    pose proof (clampZ_range (py_int (HISTO_EQ_FRACTION
                  * IZR (Z.of_nat (length (sorted merged)))) - 1)
                  0 (Z.of_nat (length (sorted merged)) - 1)). lia. }
  destruct (lookup_lt_is_Some_2 (sorted merged) (pred (length (sorted merged))))
    as [top Htop]; [lia|].
  exists p, top. split; [exact Hp|].
  assert (Hlast : last (sorted merged) = Some top) by (rewrite last_lookup; exact Htop).
  split; [apply sorted_elem; eapply list_elem_of_lookup_2; exact Htop|].
  split.
  { pose proof (ascending_last _ _ (sorted_ascending merged) Hlast) as Hall.
    rewrite Forall_forall in Hall |- *. intros m Hm. apply Hall. by apply sorted_elem. }
  assert (Hgen : forall (vals : list R) idx, vals <> [] ->
            match vals with [] => Some 1 | _ :: _ => py_index vals idx end
            = py_index vals idx) by (intros [|] ? ?; congruence).
  unfold render_scale. cbv zeta. rewrite Hgen by exact Hs.
  unfold q_index in Hp. cbv zeta in Hp. rewrite Hp. cbn [mbind option_bind].
  destruct (Rle_dec p (1 / 1000000000)); [|reflexivity].
  rewrite py_index_last by exact Hs. rewrite Htop. cbn [mbind option_bind].
  f_equal. unfold Rmax. destruct (Rgt_dec 1 top), (Rle_dec top 1); try reflexivity; lra.
Qed.

Lemma render_scale_pos (merged : list R) :
  merged <> [] -> exists q, render_scale merged = Some q /\ 0 < q.
Proof.
  intros Hne. destruct (render_scale_cases merged Hne) as (p & top & _ & _ & _ & Hq).
  eexists. split; [exact Hq|].
  destruct (Rle_dec p (1 / 1000000000)); [|lra].
  pose proof (Rmax_r top 1). lra.
Qed.

Lemma normalized_cases (merged : list R) (q : R) (idx : Z) (m : R) :
  0 < q -> py_index merged idx = Some m ->
  exists v, normalized merged q idx = Some v
            /\ v = Rmin (m / q) 1 /\ v <= 1 /\ (0 <= m -> 0 <= v).
Proof.
  intros Hq Hm. unfold normalized, py_div. rewrite Hm. cbn [mbind option_bind].
  destruct (Req_dec_T q 0); [lra|]. cbn [mbind option_bind].
  eexists. split; [reflexivity|].
  assert (Hdiv : 0 <= m -> 0 <= m / q).
  { intros Hm0. apply Rmult_le_pos; [exact Hm0|]. left. by apply Rinv_0_lt_compat. }
  unfold Rmin. destruct (Rgt_dec (m / q) 1), (Rle_dec (m / q) 1); try lra;
    repeat split; try lra; exact Hdiv.
Qed.

Lemma py_index_lookup {A : Type} (l : list A) (i : Z) (a : A) :
  py_index l i = Some a -> exists n, l !! n = Some a.
Proof.
  unfold py_index. destruct (_ && _); [eauto|]. destruct (_ && _); [eauto|discriminate].
Qed.

Lemma merged_nonneg (cv : BrailleCanvas) (idx : Z) (m : R) :
  layers_nonneg cv ->
  py_index (zip_with Rplus (fast cv) (slow cv)) idx = Some m -> 0 <= m.
Proof.
  intros (Nf & Ns & _) Hm. apply py_index_lookup in Hm as [n Hn].
  rewrite lookup_zip_with in Hn.
  destruct (fast cv !! n) as [f|] eqn:Ef; [|discriminate].
  destruct (slow cv !! n) as [s|] eqn:Es; [|discriminate].
  cbn in Hn. injection Hn as <-.
  rewrite Forall_lookup in Nf, Ns. specialize (Nf _ _ Ef). specialize (Ns _ _ Es).
  simpl in *. lra.
Qed.

(** C8: whatever the two layers hold, as long as the canvas has at
    least one sub-pixel the divisor [q] of [render] exists and is strictly
    positive: it is the value [p] at the percentile position of the sorted
    merged values, unless [p <= 1e-9], when it is the larger of the largest
    merged value and 1.  Dividing by [q] therefore never fails, and the
    normalized value is [min(merged[i]/q, 1)]: at most 1, and not below 0
    where the merged value is non-negative, as it is everywhere on a
    canvas with non-negative layers.  A canvas without sub-pixels is
    rendered as the empty frame, with no division at all. *)
Theorem render_scale_positive (stamp : string) (cv : BrailleCanvas) :
  let merged := zip_with Rplus (fast cv) (slow cv) in
  (merged = [] -> render stamp cv = Some EmptyString)
  /\ (merged <> [] ->
      exists q p top,
        render_scale merged = Some q /\ 0 < q
        /\ py_index (sorted merged) (q_index merged) = Some p
        /\ top ∈ merged /\ Forall (fun m => m <= top) merged
        /\ (p <= 1 / 1000000000 -> q = Rmax top 1 /\ 1 <= q)
        /\ (1 / 1000000000 < p -> q = p)
        /\ forall idx m, py_index merged idx = Some m ->
             exists v, normalized merged q idx = Some v
                       /\ v = Rmin (m / q) 1 /\ v <= 1
                       /\ (0 <= m -> 0 <= v)
                       /\ (layers_nonneg cv -> 0 <= v <= 1)).
Proof.
  intros merged. split.
  - intros E. unfold render. fold merged. rewrite E. reflexivity.
  - intros Hne. destruct (render_scale_cases merged Hne) as (p & top & Hp & Hin & Hmax & Hq).
    destruct (render_scale_pos merged Hne) as (q & Hq' & Hpos).
    exists q, p, top. rewrite Hq in Hq'. injection Hq' as Hq'.
    split; [rewrite Hq; by f_equal|]. split; [exact Hpos|].
    split; [exact Hp|]. split; [exact Hin|]. split; [exact Hmax|].
    split; [|split].
    + intros Hle. destruct (Rle_dec p (1 / 1000000000)); [|lra].
      split; [by symmetry|rewrite <- Hq'; apply Rmax_r].
    + intros Hgt. destruct (Rle_dec p (1 / 1000000000)); [lra|]. by symmetry.
    + intros idx m Hm.
      destruct (normalized_cases merged q idx m Hpos Hm) as (v & Hv & Hmin & Hle & Hge).
      exists v. repeat split; try assumption.
      apply Hge. eapply merged_nonneg; eassumption.
Qed.

End Scale.

Lemma render_scale_positive_witness :
  let cv := new_canvas (0, 0) 0 in
  zip_with Rplus (fast cv) (slow cv) <> []
  /\ exists q, render_scale (zip_with Rplus (fast cv) (slow cv)) = Some q /\ (0 < q)%R.
Proof.
  intros cv.
  assert (Hne : zip_with Rplus (fast cv) (slow cv) <> []).
  { intros E. apply (f_equal length) in E. rewrite length_zip_with in E.
    unfold cv, new_canvas, resize in E. cbn [term_dims fast slow] in E.
    rewrite !length_replicate in E. discriminate E. }
  split; [exact Hne|].
  destruct (render_scale_positive EmptyString cv) as [_ Hq].
  destruct (Hq Hne) as (q & _ & _ & Hs & Hpos & _).
  exists q. split; assumption.
Defined.

(** ** Deposition *)

Section Deposits.
Local Open Scope R_scope.

Lemma with_layers_same (cv : BrailleCanvas) :
  cv = with_layers cv (fast cv) (slow cv) (hit cv).
Proof. destruct cv; reflexivity. Qed.

Lemma deposited_refl (b : R) (cv : BrailleCanvas) : 0 <= b -> deposited b cv cv.
Proof.
  intros Hb. constructor; try reflexivity; [apply with_layers_same | tauto | lra].
Qed.

Lemma deposited_trans (b1 b2 : R) (cv cv' cv'' : BrailleCanvas) :
  deposited b1 cv cv' -> deposited b2 cv' cv'' -> deposited (b1 + b2) cv cv''.
Proof.
  intros [F1 Lf1 Ls1 Lh1 N1 T1] [F2 Lf2 Ls2 Lh2 N2 T2].
  constructor; try congruence; [|tauto|lra].
  rewrite F2 at 1. rewrite F1 at 1. reflexivity.
Qed.

Lemma deposited_weaken (b b' : R) (cv cv' : BrailleCanvas) :
  b <= b' -> deposited b cv cv' -> deposited b' cv cv'.
Proof. intros Hb [F Lf Ls Lh N T]. constructor; try assumption. lra. Qed.

Lemma deposited_wf (b : R) (cv cv' : BrailleCanvas) :
  canvas_wf cv -> deposited b cv cv' -> canvas_wf cv'.
Proof.
  intros Hwf [F Lf Ls Lh _ _]. rewrite F. by apply with_layers_wf.
Qed.

Lemma deposited_R (b : R) (cv cv' : BrailleCanvas) :
  deposited b cv cv' -> cv_R cv' = cv_R cv.
Proof. intros [F _ _ _ _ _]. rewrite F. reflexivity. Qed.

Lemma layer_total_insert (l : list R) (i : nat) (old v : R) :
  l !! i = Some old -> layer_total (<[i := v]> l) = layer_total l - old + v.
Proof.
  revert i. induction l as [|x l IH]; intros [|i] Hl; simpl in *; try discriminate.
  - injection Hl as ->. lra.
  - rewrite (IH i Hl). lra.
Qed.

Lemma layer_size (cv : BrailleCanvas) :
  canvas_wf cv ->
  Z.of_nat (length (fast cv)) = (cv_ws cv * cv_hs cv)%Z
  /\ Z.of_nat (length (slow cv)) = (cv_ws cv * cv_hs cv)%Z
  /\ Z.of_nat (length (hit cv)) = (cv_ws cv * cv_hs cv)%Z.
Proof.
  intros []. rewrite wf_fast0, wf_slow0, wf_hit0. nia.
Qed.

Lemma idx_in_range (cv : BrailleCanvas) (x y : Z) :
  (0 <= x < cv_ws cv)%Z -> (0 <= y < cv_hs cv)%Z ->
  (0 <= _idx cv x y < cv_ws cv * cv_hs cv)%Z.
Proof. unfold _idx. nia. Qed.

Lemma grid_guard (ws hs x y : Z) :
  (x <? 0)%Z || (x >=? ws)%Z || (y <? 0)%Z || (y >=? hs)%Z = false ->
  (0 <= x < ws)%Z /\ (0 <= y < hs)%Z.
Proof.
  rewrite !orb_false_iff, !Z.geb_leb, !Z.ltb_ge, !Z.leb_gt. lia.
Qed.

End Deposits.

Section Splatting.
Context {G : Type} `{RandomSource G}.
Local Open Scope R_scope.

Lemma splat_probe_in_range (n : nat) (cv : BrailleCanvas) (x y best_i best_h : Z) (g : G) :
  canvas_wf cv ->
  (0 <= best_i < cv_ws cv * cv_hs cv)%Z ->
  exists i g', splat_probe n cv x y best_i best_h g = Some (i, g')
               /\ (0 <= i < cv_ws cv * cv_hs cv)%Z.
Proof.
  intros Hwf. revert best_i best_h g.
  induction n as [|n IH]; intros best_i best_h g Hb; simpl; [eauto|].
  destruct (randint (-1) 1 g) as [rx g1]. destruct (randint (-1) 1 g1) as [ry g2].
  destruct (_ || _) eqn:Eg; [by apply IH|].
  apply grid_guard in Eg as [Hx Hy].
  destruct (_in_circle_sub cv (x + rx) (y + ry)); simpl; [|by apply IH].
  pose proof (idx_in_range cv _ _ Hx Hy) as Hi.
  destruct (layer_size cv Hwf) as (_ & _ & Hh).
  destruct (py_index_is_Some (hit cv) (_idx cv (x + rx) (y + ry))) as [hh Hhh]; [lia|].
  rewrite Hhh. cbn [mbind option_bind].
  destruct (hh <? best_h)%Z; [|by apply IH].
  destruct (hh =? 0)%Z; [eauto|by apply IH].
Qed.

(** [splat_subpixel] always returns, and what it leaves is the canvas
    with at most [ink] more in the fast layer. *)
Lemma splat_deposited (cv : BrailleCanvas) (x y : Z) (ink : R) (g : G) :
  canvas_wf cv -> 0 <= ink ->
  exists cv' g', splat_subpixel cv x y ink g = Some (cv', g') /\ deposited ink cv cv'.
Proof.
  intros Hwf Hink. unfold splat_subpixel.
  destruct (_ || _) eqn:Eg; [exists cv, g; split; [reflexivity|by apply deposited_refl]|].
  apply grid_guard in Eg as [Hx Hy].
  destruct (_in_circle_sub cv x y); cbn [negb];
    [|exists cv, g; split; [reflexivity|by apply deposited_refl]].
  pose proof (idx_in_range cv _ _ Hx Hy) as Hi.
  destruct (layer_size cv Hwf) as (Hf & Hs & Hh).
  destruct (py_index_is_Some (hit cv) (_idx cv x y)) as [bh Hbh]; [lia|].
  rewrite Hbh. cbn [mbind option_bind].
  destruct (splat_probe_in_range 4 cv x y (_idx cv x y) bh g Hwf Hi) as (bi & g' & Hp & Hbi).
  rewrite Hp. cbn [mbind option_bind].
  rewrite (py_index_in_range (fast cv)), (py_index_in_range (slow cv)),
    (py_index_in_range (hit cv)) by lia.
  destruct (lookup_lt_is_Some_2 (fast cv) (Z.to_nat bi)) as [f Ef]; [lia|].
  destruct (lookup_lt_is_Some_2 (slow cv) (Z.to_nat bi)) as [s Es]; [lia|].
  destruct (lookup_lt_is_Some_2 (hit cv) (Z.to_nat bi)) as [h Eh]; [lia|].
  rewrite Ef, Es, Eh. cbn [mbind option_bind].
  rewrite !py_store_in_range by lia. cbn [mbind option_bind].
  eexists _, g'. split; [reflexivity|].
  constructor; cbn [fast slow hit with_layers].
  - reflexivity.
  - apply length_insert.
  - apply length_insert.
  - apply length_insert.
  - intros (Nf & Ns & Nh). repeat split; cbn [fast slow hit]; apply Forall_insert; try assumption.
    + rewrite Forall_lookup in Nf. specialize (Nf _ _ Ef). simpl in Nf. lra.
    + rewrite Forall_lookup in Ns. specialize (Ns _ _ Es). simpl in Ns.
      unfold SLOW_GAIN. nra.
    + rewrite Forall_lookup in Nh. specialize (Nh _ _ Eh). simpl in Nh. lia.
  - rewrite (layer_total_insert _ _ _ _ Ef). lra.
Qed.

Lemma ray_step_deposited (theta r_pix k : R) (start steps s : Z)
      (cv : BrailleCanvas) (g : G) :
  canvas_wf cv -> 0 <= k ->
  exists cv' g', ray_step theta r_pix k start steps s cv g = Some (cv', g')
                 /\ deposited k cv cv'.
Proof.
  intros Hwf Hk. unfold ray_step.
  destruct (uniform (- JITTER_ARC_DEG) JITTER_ARC_DEG g) as [u1 g1].
  destruct (uniform (- JITTER_R_FRAC) JITTER_R_FRAC g1) as [u2 g2].
  destruct (_ && _); [by apply splat_deposited|].
  exists cv, g2. split; [reflexivity|by apply deposited_refl].
Qed.

Lemma ray_loop_deposited (theta r_pix k : R) (start steps : Z) (ss : list Z)
      (cv : BrailleCanvas) (g : G) :
  canvas_wf cv -> 0 <= k ->
  exists cv' g', ray_loop theta r_pix k start steps ss cv g = Some (cv', g')
                 /\ deposited (INR (length ss) * k) cv cv'.
Proof.
  intros Hwf Hk. revert cv g Hwf.
  induction ss as [|s ss IH]; intros cv g Hwf.
  - exists cv, g. split; [reflexivity|]. apply deposited_refl. simpl. lra.
  - cbn [ray_loop].
    destruct (ray_step_deposited theta r_pix k start steps s cv g Hwf Hk)
      as (cv1 & g1 & E1 & D1).
    rewrite E1. cbn [mbind option_bind].
    destruct (IH cv1 g1 (deposited_wf _ _ _ Hwf D1)) as (cv2 & g2 & E2 & D2).
    exists cv2, g2. split; [exact E2|].
    replace (INR (length (s :: ss)) * k) with (k + INR (length ss) * k)
      by (change (length (s :: ss)) with (S (length ss)); rewrite S_INR; ring).
    eapply deposited_trans; eassumption.
Qed.

Lemma ray_steps_pos (r_pix : R) : (1 <= ray_steps r_pix)%Z.
Proof. unfold ray_steps. lia. Qed.

Lemma deposit_ray_deposited (cv : BrailleCanvas) (theta r_pix k : R) (g : G) :
  canvas_wf cv -> 0 <= k ->
  exists cv' g', deposit_ray cv theta r_pix k g = Some (cv', g')
                 /\ deposited (IZR (ray_steps r_pix) * k) cv cv'.
Proof.
  intros Hwf Hk. unfold deposit_ray.
  destruct (ray_loop_deposited theta r_pix k (ray_start r_pix) (ray_steps r_pix)
              (seqZ 0 (ray_steps r_pix)) cv g Hwf Hk) as (cv' & g' & E & D).
  exists cv', g'. split; [exact E|].
  rewrite length_seqZ, INR_IZR_INZ, Z2Nat.id in D; [exact D|].
  pose proof (ray_steps_pos r_pix). lia.
Qed.

(** A ray of length at most [len] takes at most [max(1, len * 9/8)] steps. *)
Lemma ray_steps_le (rr len : R) :
  0 <= rr <= len ->
  IZR (ray_steps rr) <= Rmax 1 (len * (RAY_STEPS_PER_M / 8)).
Proof.
  intros [Hlo Hhi]. unfold ray_steps, ray_start, RAY_STEPS_PER_M.
  destruct (py_int_floor (2 / 10 * rr)) as [Hs1 Hs2]; [lra|].
  assert (Hs0 : (0 <= py_int (2 / 10 * rr))%Z) by (apply py_int_nonneg; lra).
  apply IZR_le in Hs0.
  destruct (py_int_floor ((rr - IZR (py_int (2 / 10 * rr))) * (9 / 8))) as [Hx _]; [nra|].
  destruct (Z.max_spec 1 (py_int ((rr - IZR (py_int (2 / 10 * rr))) * (9 / 8))))
    as [[_ ->]|[_ ->]].
  - eapply Rle_trans; [|apply Rmax_r]. nra.
  - apply Rmax_l.
Qed.

End Splatting.

(** ** One observation *)

Section Observation.
Context {G : Type} `{RandomSource G}.
Variable md5_int : string -> Z.
Local Open Scope R_scope.

Lemma radius_range (rssi Rsub : R) :
  4 <= Rsub -> 2 <= rssi_to_radius_pix rssi Rsub <= Rsub - 2.
Proof.
  intros HR. destruct (radius_cases rssi Rsub) as (c & Hc & _ & _ & _ & ->).
  unfold RSSI_NEAR, RSSI_FAR in *. nra.
Qed.

Lemma canvas_radius_ge (cv : BrailleCanvas) : canvas_wf cv -> (68 <= cv_R cv)%Z.
Proof.
  intros []. rewrite wf_R0, wf_cx0, wf_cy0, wf_ws0, wf_hs0.
  rewrite Z.div_mul by lia.
  replace (cv_hc cv * 4)%Z with (cv_hc cv * 2 * 2)%Z by ring.
  rewrite Z.div_mul by lia. lia.
Qed.

Lemma ray_steps_bound_ge_1 (Rsub : R) : 1 <= ray_steps_bound Rsub.
Proof. unfold ray_steps_bound. apply Rmax_l. Qed.

Lemma ingest_loop_deposited (n : nat) (theta r_pix ink len : R)
      (cv : BrailleCanvas) (g : G) :
  canvas_wf cv -> 0 <= ink -> 0 <= r_pix <= len ->
  exists cv' g',
    ingest_loop n theta r_pix ink cv g = Some (cv', g')
    /\ deposited (INR n * (Rmax 1 ((1 + JITTER_R_FRAC) * len * (RAY_STEPS_PER_M / 8)) * ink))
                 cv cv'.
Proof.
  intros Hwf Hink Hr. revert cv g Hwf.
  induction n as [|n IH]; intros cv g Hwf.
  - exists cv, g. split; [reflexivity|]. apply deposited_refl. simpl. lra.
  - cbn [ingest_loop].
    destruct (uniform (- JITTER_ARC_DEG) JITTER_ARC_DEG g) as [u1 g1].
    destruct (uniform (- JITTER_R_FRAC) JITTER_R_FRAC g1) as [u2 g2] eqn:E2.
    assert (Hu2 : - JITTER_R_FRAC <= u2 <= JITTER_R_FRAC).
    { pose proof (uniform_range (- JITTER_R_FRAC) JITTER_R_FRAC g1) as Hu.
      rewrite E2 in Hu. apply Hu. unfold JITTER_R_FRAC. lra. }
    destruct (deposit_ray_deposited cv (theta + radians u1) (r_pix * (1 + u2)) ink g2
                Hwf Hink) as (cv1 & g3 & E1 & D1).
    rewrite E1. cbn [mbind option_bind].
    destruct (IH cv1 g3 (deposited_wf _ _ _ Hwf D1)) as (cv2 & g4 & E3 & D3).
    exists cv2, g4. split; [exact E3|].
    rewrite S_INR.
    set (B := Rmax 1 ((1 + JITTER_R_FRAC) * len * (RAY_STEPS_PER_M / 8))) in *.
    replace ((INR n + 1) * (B * ink)) with (B * ink + INR n * (B * ink)) by ring.
    eapply deposited_trans; [|exact D3].
    eapply deposited_weaken; [|exact D1].
    apply Rmult_le_compat_r; [exact Hink|].
    apply ray_steps_le. unfold JITTER_R_FRAC in *. nra.
Qed.

(** [k] deposits of [w / max(1, k)] each never cost more than [w] per step
    of the longest ray. *)
Lemma ink_budget (k : Z) (w B : R) :
  0 <= w -> 0 <= B ->
  0 <= w / IZR (Z.max 1 k)
  /\ INR (Z.to_nat k) * (B * (w / IZR (Z.max 1 k))) <= w * B.
Proof.
  intros Hw HB.
  assert (Hmax : 1 <= IZR (Z.max 1 k)) by (apply IZR_le; lia).
  assert (Hq : 0 <= w / IZR (Z.max 1 k)).
  { apply Rmult_le_pos; [exact Hw|]. left. apply Rinv_0_lt_compat. lra. }
  split; [exact Hq|].
  destruct (Z_lt_le_dec k 1) as [Hk|Hk].
  - replace (Z.to_nat k) with 0%nat by lia. simpl. nra.
  - rewrite INR_IZR_INZ, Z2Nat.id, Z.max_r by lia.
    assert (Hk1 : 1 <= IZR k) by (apply IZR_le; lia).
    right. field. lra.
Qed.

Lemma ink_per_deposit_nonneg (m_ema d_rs : R) (k : Z) :
  0 <= ink_per_deposit (motion_unit m_ema) (drssi_unit d_rs) k.
Proof.
  unfold ink_per_deposit.
  pose proof (motion_unit_nonneg m_ema). pose proof (drssi_unit_range d_rs).
  apply (ink_budget k _ 0); lra.
Qed.

(** The deposit loop for any sample count [k]. *)
Lemma deposit_loop_total_ink (k : Z) (motion_u drssi_u theta r_pix : R)
      (cv : BrailleCanvas) (g : G) :
  canvas_wf cv -> 0 <= motion_u -> 0 <= drssi_u ->
  0 <= r_pix <= IZR (cv_R cv) - 2 ->
  exists cv' g',
    ingest_loop (Z.to_nat k) theta r_pix (ink_per_deposit motion_u drssi_u k) cv g
    = Some (cv', g')
    /\ deposited ((9 / 10 * motion_u + 1 / 10 * drssi_u) * ray_steps_bound (IZR (cv_R cv)))
                 cv cv'.
Proof.
  intros Hwf Hm Hd Hr. unfold ink_per_deposit.
  pose proof (ray_steps_bound_ge_1 (IZR (cv_R cv))) as HB.
  destruct (ink_budget k (9 / 10 * motion_u + 1 / 10 * drssi_u)
              (ray_steps_bound (IZR (cv_R cv)))) as [Hink Hbud]; [lra|lra|].
  destruct (ingest_loop_deposited (Z.to_nat k) theta r_pix
              ((9 / 10 * motion_u + 1 / 10 * drssi_u) / IZR (Z.max 1 k))
              (IZR (cv_R cv) - 2) cv g Hwf Hink Hr) as (cv' & g' & E & D).
  exists cv', g'. split; [exact E|].
  eapply deposited_weaken; [|exact D]. exact Hbud.
Qed.

(** [ingest] always returns; it leaves the canvas with the ink of the
    observation deposited, and touches nothing else but the entry of
    [mac] in the state and the seed counter. *)
Lemma ingest_deposited (e : Engine) (now : R) (g : G) (mac : string) (rssi motion : R) :
  canvas_wf (cv e) ->
  exists e',
    ingest md5_int e now g mac rssi motion = Some e'
    /\ deposited
         ((9 / 10 * motion_unit (motion_ema (update_mac (state e !! mac) now rssi motion).1)
           + 1 / 10 * drssi_unit (update_mac (state e !! mac) now rssi motion).2)
          * ray_steps_bound (IZR (cv_R (cv e))))
         (cv e) (cv e')
    /\ last_draw e' = last_draw e /\ min_dt e' = min_dt e /\ stdout e' = stdout e.
Proof.
  intros Hwf. unfold ingest.
  destruct (update_mac (state e !! mac) now rssi motion) as [st d_rs]. cbn [fst snd].
  pose proof (canvas_radius_ge _ Hwf) as HR. apply IZR_le in HR.
  destruct (deposit_loop_total_ink
              (sample_count (motion_unit (motion_ema st)) (drssi_unit d_rs))
              (motion_unit (motion_ema st)) (drssi_unit d_rs)
              (mac_angle md5_int mac)
              (rssi_to_radius_pix (rssi_ema st) (IZR (cv_R (cv e)))) (cv e) g)
    as (cv' & g' & E & D).
  - exact Hwf.
  - apply motion_unit_nonneg.
  - apply drssi_unit_range.
  - pose proof (radius_range (rssi_ema st) (IZR (cv_R (cv e)))). lra.
  - rewrite E. cbn [mbind option_bind]. eexists. split; [reflexivity|].
    cbn [cv last_draw min_dt stdout]. auto.
Qed.

End Observation.

(** ** Decay keeps the canvas well formed and non-negative *)

Section DecayInvariant.
Local Open Scope R_scope.

Lemma Rpower_pos (x y : R) : 0 < Rpower x y.
Proof. unfold Rpower. apply exp_pos. Qed.

Lemma decay_wf (now : R) (cv : BrailleCanvas) : canvas_wf cv -> canvas_wf (decay now cv).
Proof.
  intros Hwf. unfold decay.
  destruct (Rgt_dec (now - last_fast cv) 0);
    destruct (Rgt_dec _ 0);
    repeat first [ assumption
                 | apply with_last_wf
                 | apply with_layers_wf; cbn [fast slow hit with_last with_layers];
                   rewrite ?List.length_map; try reflexivity ].
Qed.

Lemma scale_nonneg (f : R) (l : list R) :
  0 < f -> Forall (fun v => 0 <= v) l -> Forall (fun v => 0 <= v) (scale f l).
Proof.
  intros Hf Hl. unfold scale. apply List.Forall_map.
  eapply Forall_impl; [exact Hl|]. intros v Hv. simpl in *. nra.
Qed.

Lemma decay_nonneg (now : R) (cv : BrailleCanvas) :
  layers_nonneg cv -> layers_nonneg (decay now cv).
Proof.
  intros (Nf & Ns & Nh). unfold layers_nonneg.
  rewrite decay_fast, decay_slow, decay_hit. repeat split.
  - destruct (Rgt_dec _ 0); [apply scale_nonneg; [apply Rpower_pos|]|]; assumption.
  - destruct (Rgt_dec _ 0); [apply scale_nonneg; [apply Rpower_pos|]|]; assumption.
  - destruct (Rgt_dec _ 0); [|assumption]. apply List.Forall_map.
    eapply Forall_impl; [exact Nh|]. intros h Hh. simpl in *.
    apply py_int_nonneg. apply Rmult_le_pos; [by apply IZR_le|].
    left. apply Rpower_pos.
Qed.

Lemma decay_no_elapsed (now : R) (cv : BrailleCanvas) :
  now <= last_fast cv -> now <= last_slow cv -> decay now cv = cv.
Proof.
  intros Hf Hs. unfold decay.
  destruct (Rgt_dec (now - last_fast cv) 0); [lra|].
  destruct (Rgt_dec (now - last_slow cv) 0); [lra|]. reflexivity.
Qed.

Lemma resize_nonneg (sz : Z * Z) (tf ts : R) : layers_nonneg (resize sz tf ts).
Proof.
  unfold resize, layers_nonneg. cbn [term_dims fast slow hit].
  repeat split; apply Forall_replicate; simpl; lra || lia.
Qed.

End DecayInvariant.

(** ** The renderer always produces a frame *)

Section RenderDefined.
Local Open Scope R_scope.

Lemma cell_positions_range :
  Forall (fun p : Z * Z => (0 <= p.1 < 4)%Z /\ (0 <= p.2 < 2)%Z) cell_positions.
Proof.
  change cell_positions
    with [(0, 0); (0, 1); (1, 0); (1, 1); (2, 0); (2, 1); (3, 0); (3, 1)]%Z.
  repeat constructor; simpl; lia.
Qed.

Lemma cell_loop_defined (cv : BrailleCanvas) (merged : list R) (q : R)
      (i j : Z) (ps : list (Z * Z)) (st : Z * R) :
  canvas_wf cv -> Z.of_nat (length merged) = (cv_ws cv * cv_hs cv)%Z -> 0 < q ->
  (0 <= i < cv_wc cv)%Z -> (0 <= j < cv_hc cv)%Z ->
  Forall (fun p : Z * Z => (0 <= p.1 < 4)%Z /\ (0 <= p.2 < 2)%Z) ps ->
  exists st', cell_loop cv merged q (i * 2) (j * 4) st ps = Some st'.
Proof.
  intros Hwf Hlen Hq Hi Hj Hps. revert st.
  induction Hps as [|[sy sx] ps [Hsy Hsx] _ IH]; intros [bits agg]; [simpl; eauto|].
  simpl in Hsy, Hsx. cbn [cell_loop]. unfold cell_subpixel.
  destruct (py_index_is_Some merged (_idx cv (i * 2 + sx) (j * 4 + sy))) as [m Hm].
  { rewrite Hlen. apply idx_in_range.
    - rewrite (wf_ws cv Hwf). lia.
    - rewrite (wf_hs cv Hwf). lia. }
  destruct (normalized_cases merged q _ m Hq Hm) as (v & Hv & _).
  rewrite Hv. cbn [mbind option_bind]. apply IH.
Qed.

Lemma render_cell_defined (cv : BrailleCanvas) (merged : list R) (q : R) (j i : Z) :
  canvas_wf cv -> Z.of_nat (length merged) = (cv_ws cv * cv_hs cv)%Z -> 0 < q ->
  (0 <= i < cv_wc cv)%Z -> (0 <= j < cv_hc cv)%Z ->
  exists s, render_cell cv merged q j i = Some s.
Proof.
  intros Hwf Hlen Hq Hi Hj. unfold render_cell.
  rewrite (wf_mask cv Hwf), build_mask_lookup by assumption. cbn [mbind option_bind].
  destruct (in_circle _ _ _ _ _); cbn [negb]; [|eauto].
  destruct (cell_loop_defined cv merged q i j cell_positions (0%Z, 0) Hwf Hlen Hq Hi Hj
              cell_positions_range) as [[bits agg] Hst].
  rewrite Hst. cbn [mbind option_bind].
  destruct (color_for_defined (clamp (agg / 8) 0 1)) as [col Hcol].
  rewrite Hcol. cbn [mbind option_bind]. eauto.
Qed.

Lemma render_row_defined (cv : BrailleCanvas) (merged : list R) (q : R) (j : Z) :
  canvas_wf cv -> Z.of_nat (length merged) = (cv_ws cv * cv_hs cv)%Z -> 0 < q ->
  (0 <= j < cv_hc cv)%Z ->
  exists s, render_row cv merged q j = Some s.
Proof.
  intros Hwf Hlen Hq Hj. unfold render_row.
  destruct (mapM_is_Some_2 (render_cell cv merged q j) (seqZ 0 (cv_wc cv))) as [line Hl].
  { apply Forall_seqZ. intros i Hi. simpl.
    destruct (render_cell_defined cv merged q j i Hwf Hlen Hq) as [s Hs]; [lia|exact Hj|].
    rewrite Hs. eauto. }
  rewrite Hl. cbn [mbind option_bind]. eauto.
Qed.

Lemma merged_size (cv : BrailleCanvas) :
  canvas_wf cv ->
  Z.of_nat (length (zip_with Rplus (fast cv) (slow cv))) = (cv_ws cv * cv_hs cv)%Z
  /\ zip_with Rplus (fast cv) (slow cv) <> [].
Proof.
  intros Hwf. destruct (layer_size cv Hwf) as (Hf & Hs & _).
  assert (Hl : Z.of_nat (length (zip_with Rplus (fast cv) (slow cv)))
               = (cv_ws cv * cv_hs cv)%Z)
    by (rewrite length_zip_with; lia).
  split; [exact Hl|]. intros E. rewrite E in Hl. simpl in Hl.
  destruct Hwf. nia.
Qed.

Lemma render_defined (stamp : string) (cv : BrailleCanvas) :
  canvas_wf cv -> exists frame, render stamp cv = Some frame.
Proof.
  intros Hwf. unfold render.
  destruct (merged_size cv Hwf) as [Hlen Hne].
  destruct (zip_with Rplus (fast cv) (slow cv)) as [|m0 ms] eqn:E; [congruence|].
  rewrite <- E in *.
  destruct (render_scale_pos _ Hne) as (q & Hq & Hpos).
  rewrite Hq. cbn [mbind option_bind].
  destruct (mapM_is_Some_2 (render_row cv (zip_with Rplus (fast cv) (slow cv)) q)
              (seqZ 0 (cv_hc cv))) as [rows Hr].
  { apply Forall_seqZ. intros j Hj. simpl.
    destruct (render_row_defined cv _ q j Hwf Hlen Hpos) as [s Hs]; [lia|].
    rewrite Hs. eauto. }
  rewrite Hr. cbn [mbind option_bind]. eauto.
Qed.

(** [tick] always returns: the canvas decayed to [now], maybe a frame
    written, and nothing else changed. *)
Lemma tick_defined (e : Engine) (now : R) (stamp : string) :
  canvas_wf (cv e) ->
  exists e', tick e now stamp = Some e'
             /\ cv e' = decay now (cv e)
             /\ state e' = state e /\ seed_counter e' = seed_counter e
             /\ min_dt e' = min_dt e.
Proof.
  intros Hwf. unfold tick.
  destruct (Rge_dec (now - last_draw e) (min_dt e)).
  - destruct (render_defined stamp (decay now (cv e)) (decay_wf now _ Hwf)) as [frame Hf].
    rewrite Hf. cbn [mbind option_bind]. eexists. split; [reflexivity|]. auto.
  - eexists. split; [reflexivity|]. auto.
Qed.

Lemma tick_canvas (e e' : Engine) (now : R) (stamp : string) :
  tick e now stamp = Some e' -> cv e' = decay now (cv e).
Proof.
  unfold tick. destruct (Rge_dec _ _).
  - destruct (render stamp (decay now (cv e))); cbn [mbind option_bind];
      [|discriminate]. intros [= <-]. reflexivity.
  - intros [= <-]. reflexivity.
Qed.

End RenderDefined.

(** ** Runs of the engine *)

Section RunInvariant.
Context {G : Type} `{RandomSource G}.
Variable md5_int : string -> Z.
Variable py_float : string -> option R.
Local Open Scope R_scope.

Lemma engine_step_inv (e e' : Engine) :
  engine_step md5_int e e' ->
  canvas_wf (cv e) /\ layers_nonneg (cv e) ->
  canvas_wf (cv e') /\ layers_nonneg (cv e').
Proof.
  intros Hstep [Hwf Hnn]. destruct Hstep as [e now g mac rssi motion e' Hi|e now stamp e' Ht|e sz].
  - destruct (ingest_deposited md5_int e now g mac rssi motion Hwf) as (e1 & E & D & _).
    rewrite E in Hi. injection Hi as <-.
    split; [eapply deposited_wf; eassumption|]. by apply (dep_nonneg _ _ _ D).
  - rewrite (tick_canvas _ _ _ _ Ht). split; [by apply decay_wf|by apply decay_nonneg].
  - split; [apply resize_wf|apply resize_nonneg].
Qed.

Lemma reachable_inv (e : Engine) :
  reachable md5_int e -> canvas_wf (cv e) /\ layers_nonneg (cv e).
Proof.
  induction 1 as [sz now|e e' _ IH Hstep].
  - split; [apply resize_wf|apply resize_nonneg].
  - eapply engine_step_inv; eassumption.
Qed.

(** C9: in every engine reachable from a freshly constructed one by
    [ingest], [tick] (which decays) and resizes, every entry of the fast
    and the slow layer is non-negative and every hit counter is a
    non-negative integer.  The ink of a deposit is never negative, both
    decay factors are positive, and from such an engine [ingest] and
    [tick] always return, so every sequence of operations can be run. *)
Theorem layers_never_negative (e : Engine) :
  reachable md5_int e ->
  (Forall (fun v => 0 <= v) (fast (cv e))
   /\ Forall (fun v => 0 <= v) (slow (cv e))
   /\ Forall (fun h => (0 <= h)%Z) (hit (cv e)))
  /\ (forall m_ema d_rs k, 0 <= ink_per_deposit (motion_unit m_ema) (drssi_unit d_rs) k)
  /\ (forall dt, 0 < Rpower FAST_DECAY_PER_SEC dt /\ 0 < Rpower SLOW_DECAY_PER_SEC dt)
  /\ (forall now g mac rssi motion,
        exists e', ingest md5_int e now g mac rssi motion = Some e'
                   /\ reachable md5_int e')
  /\ (forall now stamp,
        exists e', tick e now stamp = Some e' /\ reachable md5_int e').
Proof.
  intros Hreach. destruct (reachable_inv e Hreach) as [Hwf Hnn].
  split; [exact Hnn|]. split; [apply ink_per_deposit_nonneg|].
  split; [intros dt; split; apply Rpower_pos|]. split.
  - intros now g mac rssi motion.
    destruct (ingest_deposited md5_int e now g mac rssi motion Hwf) as (e' & E & _).
    exists e'. split; [exact E|]. eapply reach_step; [exact Hreach|].
    eapply step_ingest; exact E.
  - intros now stamp. destruct (tick_defined e now stamp Hwf) as (e' & E & _).
    exists e'. split; [exact E|]. eapply reach_step; [exact Hreach|].
    eapply step_tick; exact E.
Qed.

(** C3: on a well-formed canvas, for any sample count [k], the [k]
    micro-deposits of [(0.9*motion_u + 0.1*drssi_u) / max(1, k)] ink each
    always complete and add to the fast layer at most
    [(0.9*motion_u + 0.1*drssi_u)] times a bound on the steps of one ray,
    [ray_steps_bound], which depends on the canvas radius and not on [k];
    nothing is taken away.  The same holds for the observation as
    [ingest] handles it, with the units and the count it derives. *)
Theorem total_ink_independent_of_sample_count (e : Engine) :
  canvas_wf (cv e) ->
  (forall (k : Z) (motion_u drssi_u theta r_pix : R) (g : G),
      0 <= motion_u -> 0 <= drssi_u -> 0 <= r_pix <= IZR (cv_R (cv e)) - 2 ->
      ink_per_deposit motion_u drssi_u k
      = (9 / 10 * motion_u + 1 / 10 * drssi_u) / IZR (Z.max 1 k)
      /\ exists cv' g',
          ingest_loop (Z.to_nat k) theta r_pix (ink_per_deposit motion_u drssi_u k) (cv e) g
          = Some (cv', g')
          /\ 0 <= layer_total (fast cv') - layer_total (fast (cv e))
             <= (9 / 10 * motion_u + 1 / 10 * drssi_u) * ray_steps_bound (IZR (cv_R (cv e))))
  /\ (forall (now : R) (g : G) (mac : string) (rssi motion : R),
      let obs := update_mac (state e !! mac) now rssi motion in
      let motion_u := motion_unit (motion_ema obs.1) in
      let drssi_u := drssi_unit obs.2 in
      exists e',
        ingest md5_int e now g mac rssi motion = Some e'
        /\ 0 <= layer_total (fast (cv e')) - layer_total (fast (cv e))
           <= (9 / 10 * motion_u + 1 / 10 * drssi_u) * ray_steps_bound (IZR (cv_R (cv e)))).
Proof.
  intros Hwf. split.
  - intros k motion_u drssi_u theta r_pix g Hm Hd Hr. split; [reflexivity|].
    destruct (deposit_loop_total_ink k motion_u drssi_u theta r_pix (cv e) g Hwf Hm Hd Hr)
      as (cv' & g' & E & D).
    exists cv', g'. split; [exact E|]. pose proof (dep_total _ _ _ D). lra.
  - intros now g mac rssi motion obs motion_u drssi_u.
    destruct (ingest_deposited md5_int e now g mac rssi motion Hwf) as (e' & E & D & _).
    exists e'. split; [exact E|]. pose proof (dep_total _ _ _ D) as Ht.
    subst obs motion_u drssi_u. lra.
Qed.

Lemma scale_total (f : R) (l : list R) : layer_total (scale f l) = layer_total l * f.
Proof.
  unfold scale. induction l as [|v l IH]; simpl; [lra|]. rewrite IH. lra.
Qed.

Lemma layer_total_nonneg (l : list R) :
  Forall (fun v => 0 <= v) l -> 0 <= layer_total l.
Proof. induction 1 as [|v l Hv _ IH]; simpl; lra. Qed.

Lemma decay_total_le (now : R) (cv0 : BrailleCanvas) :
  layers_nonneg cv0 ->
  layer_total (fast (decay now cv0)) <= layer_total (fast cv0).
Proof.
  intros (Nf & _ & _). rewrite decay_fast.
  destruct (Rgt_dec (now - last_fast cv0) 0) as [Hdt|Hdt]; [|lra].
  assert (Hf : Rpower FAST_DECAY_PER_SEC (now - last_fast cv0) <= 1).
  { rewrite <- (Rpower_O FAST_DECAY_PER_SEC) by (unfold FAST_DECAY_PER_SEC; lra).
    unfold Rpower. left. apply exp_increasing.
    assert (ln FAST_DECAY_PER_SEC < 0).
    { rewrite <- ln_1. apply ln_increasing; unfold FAST_DECAY_PER_SEC; lra. }
    nra. }
  rewrite scale_total. pose proof (layer_total_nonneg _ Nf). nra.
Qed.

Lemma malformed_ticks (e : Engine) (line : string) (env : LineEnv) :
  malformed py_float line ->
  process_line md5_int py_float e line env = tick e (t_tick env) (env_stamp env).
Proof.
  unfold malformed, process_line. intros [Hb|[Hc|[Hn|Hp]]].
  - rewrite Hb. reflexivity.
  - rewrite Hc. by rewrite orb_true_r.
  - destruct (_ || _); [reflexivity|].
    destruct (Z.ltb_spec (Z.of_nat (length (split_comma (strip line)))) 3); [reflexivity|lia].
  - destruct Hp as (p0 & p1 & p2 & rest & Hs & Hf).
    destruct (_ || _); [reflexivity|]. destruct (_ <? _)%Z; [reflexivity|].
    rewrite Hs. destruct Hf as [Hf|Hf].
    + rewrite Hf. reflexivity.
    + rewrite Hf. destruct (py_float p1); reflexivity.
Qed.

(** C4 (amended): a malformed line is handled exactly as [tick] alone:
    from any reachable engine it returns (no exception), nothing is
    deposited, the per-MAC state and the seed counter are untouched, and
    the canvas is the old one decayed to the time of the tick: no ink is
    added to the fast layer, and if no time has passed since the last
    decay of either layer the canvas is unchanged. *)
Theorem malformed_line_skips_deposition (e : Engine) (line : string) (env : LineEnv) :
  reachable md5_int e -> malformed py_float line ->
  exists e',
    process_line md5_int py_float e line env = Some e'
    /\ tick e (t_tick env) (env_stamp env) = Some e'
    /\ cv e' = decay (t_tick env) (cv e)
    /\ state e' = state e
    /\ seed_counter e' = seed_counter e
    /\ layer_total (fast (cv e')) <= layer_total (fast (cv e))
    /\ (t_tick env <= last_fast (cv e) -> t_tick env <= last_slow (cv e) -> cv e' = cv e).
Proof.
  intros Hreach Hmal. destruct (reachable_inv e Hreach) as [Hwf Hnn].
  destruct (tick_defined e (t_tick env) (env_stamp env) Hwf) as (e' & Et & Hcv & Hst & Hsc & _).
  exists e'. rewrite (malformed_ticks e line env Hmal).
  repeat split; try assumption.
  - rewrite Hcv. by apply decay_total_le.
  - intros Hf Hs. rewrite Hcv. by apply decay_no_elapsed.
Qed.

End RunInvariant.

(** ** Worked examples *)

Section Examples.
Local Open Scope R_scope.

Lemma fresh_canvas_wf : canvas_wf fresh_canvas.
Proof. apply resize_wf. Qed.

Lemma fresh_layer_sizes :
  length (fast fresh_canvas) = Z.to_nat (236 * 144)
  /\ length (slow fresh_canvas) = Z.to_nat (236 * 144)
  /\ length (hit fresh_canvas) = Z.to_nat (236 * 144).
Proof.
  pose proof fresh_canvas_wf as [].
  change (cv_ws fresh_canvas) with 236%Z in *. change (cv_hs fresh_canvas) with 144%Z in *.
  auto.
Qed.

Lemma centre_idx_lt : (centre_idx < Z.to_nat (236 * 144))%nat.
Proof. unfold centre_idx. lia. Qed.

Lemma lit_canvas_wf : canvas_wf lit_canvas.
Proof.
  apply with_layers_wf; [apply fresh_canvas_wf|..]; apply length_insert.
Qed.

Lemma lit_canvas_nonneg : layers_nonneg lit_canvas.
Proof.
  destruct (resize_nonneg (0, 0)%Z 0 0) as (Nf & Ns & Nh).
  repeat split; cbn [lit_canvas fast slow hit with_layers]; apply Forall_insert;
    try assumption; unfold SLOW_GAIN; lra || lia.
Qed.

Lemma lit_canvas_centre : fast lit_canvas !! centre_idx = Some 1.
Proof.
  cbn [lit_canvas fast with_layers]. apply list_lookup_insert_eq.
  destruct fresh_layer_sizes as (-> & _). apply centre_idx_lt.
Qed.

Lemma lookup_scale (f : R) (l : list R) (i : nat) (v : R) :
  l !! i = Some v -> scale f l !! i = Some (v * f).
Proof.
  revert i. induction l as [|x l IH]; intros [|i] Hl; simpl in *; try discriminate.
  - by injection Hl as ->.
  - by apply IH.
Qed.

Lemma x_y_malformed : malformed no_float "x,y".
Proof. right. right. left. vm_compute. lia. Qed.

(** C4, as stated, fails: the line ["x,y"] read one second after the last
    decay leaves the sub-pixel at the centre with 0.88 of the ink it
    had. *)
Lemma malformed_line_decays_canvas :
  let env := mkLineEnv 1 1 EmptyString low_end in
  canvas_wf (cv lit_engine) /\ layers_nonneg (cv lit_engine)
  /\ malformed no_float "x,y"
  /\ exists e',
      process_line zero_hash no_float lit_engine "x,y" env = Some e'
      /\ fast (cv lit_engine) !! centre_idx = Some 1
      /\ fast (cv e') !! centre_idx = Some (88 / 100)
      /\ cv e' <> cv lit_engine.
Proof.
  intros env. split; [apply lit_canvas_wf|]. split; [apply lit_canvas_nonneg|].
  split; [apply x_y_malformed|].
  destruct (tick_defined lit_engine 1 EmptyString lit_canvas_wf) as (e' & Et & Hcv & _).
  exists e'.
  assert (Hlit : fast (cv e') !! centre_idx = Some (88 / 100)).
  { rewrite Hcv, decay_fast. change (last_fast (cv lit_engine)) with 0.
    destruct (Rgt_dec (1 - 0) 0); [|lra].
    rewrite (lookup_scale _ _ _ _ lit_canvas_centre). f_equal.
    replace (1 - 0) with 1 by lra.
    rewrite Rpower_1 by (unfold FAST_DECAY_PER_SEC; lra). unfold FAST_DECAY_PER_SEC. lra. }
  split; [rewrite (malformed_ticks zero_hash no_float _ _ env x_y_malformed); exact Et|].
  split; [apply lit_canvas_centre|]. split; [exact Hlit|].
  intros Heq. rewrite Heq in Hlit. change (cv lit_engine) with lit_canvas in Hlit.
  rewrite lit_canvas_centre in Hlit. injection Hlit. lra.
Qed.

Lemma splat_probe_uncongested {G : Type} `{RandomSource G}
      (n : nat) (cv0 : BrailleCanvas) (x y best_i : Z) (g : G) :
  canvas_wf cv0 -> Forall (fun h => (0 <= h)%Z) (hit cv0) ->
  exists g', splat_probe n cv0 x y best_i 0 g = Some (best_i, g').
Proof.
  intros Hwf Hnn. revert g. induction n as [|n IH]; intros g; simpl; [eauto|].
  destruct (randint (-1) 1 g) as [rx g1]. destruct (randint (-1) 1 g1) as [ry g2].
  destruct (_ || _) eqn:Eg; [apply IH|].
  apply grid_guard in Eg as [Hx Hy].
  destruct (_in_circle_sub cv0 (x + rx) (y + ry)); simpl; [|apply IH].
  pose proof (idx_in_range cv0 _ _ Hx Hy) as Hi.
  destruct (layer_size cv0 Hwf) as (_ & _ & Hh).
  destruct (py_index_is_Some (hit cv0) (_idx cv0 (x + rx) (y + ry))) as [hh Hhh]; [lia|].
  rewrite Hhh. cbn [mbind option_bind].
  rewrite py_index_in_range in Hhh by lia.
  rewrite Forall_lookup in Hnn. specialize (Hnn _ _ Hhh). simpl in Hnn.
  destruct (Z.ltb_spec hh 0); [lia|]. apply IH.
Qed.

(** One unit of ink splatted at the centre of the fresh canvas lands on
    the centre sub-pixel: 1 in the fast layer, [SLOW_GAIN] in the slow
    layer, one hit. *)
Lemma lit_canvas_is_one_splat :
  splat_subpixel fresh_canvas 118 72 1 low_end = Some (lit_canvas, low_end).
Proof.
  unfold splat_subpixel.
  change ((118 <? 0)%Z || (118 >=? cv_ws fresh_canvas)%Z
          || (72 <? 0)%Z || (72 >=? cv_hs fresh_canvas)%Z) with false.
  change (_in_circle_sub fresh_canvas 118 72) with true. cbn [negb].
  change (_idx fresh_canvas 118 72) with (72 * 236 + 118)%Z.
  destruct fresh_layer_sizes as (Lf & Ls & Lh).
  destruct (resize_nonneg (0, 0)%Z 0 0) as (_ & _ & Nh).
  change (resize (0, 0)%Z 0 0) with fresh_canvas in Nh.
  assert (Hh : hit fresh_canvas !! centre_idx = Some 0%Z).
  { apply lookup_replicate_2. apply centre_idx_lt. }
  assert (Hf : fast fresh_canvas !! centre_idx = Some 0).
  { apply lookup_replicate_2. apply centre_idx_lt. }
  assert (Hs : slow fresh_canvas !! centre_idx = Some 0).
  { apply lookup_replicate_2. apply centre_idx_lt. }
  rewrite (py_index_in_range (hit fresh_canvas)) by (rewrite Lh; lia).
  fold centre_idx. rewrite Hh. cbn [mbind option_bind].
  destruct (splat_probe_uncongested 4 fresh_canvas 118 72 (72 * 236 + 118)%Z low_end
              fresh_canvas_wf Nh) as [g' Hp].
  rewrite Hp. destruct g'. cbn [mbind option_bind].
  rewrite (py_index_in_range (fast fresh_canvas)), (py_index_in_range (slow fresh_canvas)),
    (py_index_in_range (hit fresh_canvas)) by (rewrite ?Lf, ?Ls, ?Lh; lia).
  fold centre_idx. rewrite Hf, Hs, Hh. cbn [mbind option_bind].
  rewrite !py_store_in_range by (rewrite ?Lf, ?Ls, ?Lh; lia).
  cbn [mbind option_bind]. fold centre_idx. rewrite !Rplus_0_l. reflexivity.
Qed.

End Examples.

(** ** The theorems at concrete inputs *)

Lemma layers_never_negative_witness :
  let e := on_resize (200, 60) (new_engine (0, 0) 0) in
  reachable (G := LowEnd) zero_hash e
  /\ Forall (fun v => (0 <= v)%R) (fast (cv e))
  /\ exists e', ingest zero_hash e 1 low_end "aa:bb:cc:dd:ee:ff" (-40) 0 = Some e'.
Proof.
  intros e.
  assert (Hreach : reachable (G := LowEnd) zero_hash e).
  { eapply reach_step; [apply reach_new|apply step_resize]. }
  destruct (layers_never_negative zero_hash e Hreach) as ((Nf & _) & _ & _ & Hi & _).
  split; [exact Hreach|]. split; [exact Nf|].
  destruct (Hi 1%R low_end "aa:bb:cc:dd:ee:ff" (-40)%R 0%R) as (e' & E & _). eauto.
Defined.

Lemma total_ink_independent_of_sample_count_witness :
  let e := new_engine (0, 0) 0 in
  canvas_wf (cv e)
  /\ exists e',
      ingest (G := LowEnd) zero_hash e 1 low_end "aa:bb:cc:dd:ee:ff" (-40) 3 = Some e'
      /\ (0 <= layer_total (fast (cv e')) - layer_total (fast (cv e))
          <= (9 / 10 * motion_unit 3 + 1 / 10 * drssi_unit 0)
             * ray_steps_bound (IZR (cv_R (cv e))))%R.
Proof.
  intros e. pose proof (resize_wf (0, 0) 0 0 : canvas_wf (cv e)) as Hwf.
  split; [exact Hwf|].
  destruct (total_ink_independent_of_sample_count (G := LowEnd) zero_hash e Hwf) as [_ Hobs].
  exact (Hobs 1%R low_end "aa:bb:cc:dd:ee:ff" (-40)%R 3%R).
Defined.

Lemma malformed_line_skips_deposition_witness :
  let e := new_engine (0, 0) 0 in
  let env := mkLineEnv 1 1 EmptyString low_end in
  reachable (G := LowEnd) zero_hash e /\ malformed no_float "x,y"
  /\ exists e', process_line zero_hash no_float e "x,y" env = Some e'
                /\ cv e' = decay 1 (cv e) /\ state e' = state e.
Proof.
  intros e env.
  assert (Hreach : reachable (G := LowEnd) zero_hash e) by apply reach_new.
  assert (Hmal : malformed no_float "x,y").
  { right. right. left. vm_compute. lia. }
  destruct (malformed_line_skips_deposition zero_hash no_float e "x,y" env Hreach Hmal)
    as (e' & Hp & _ & Hcv & Hst & _).
  split; [exact Hreach|]. split; [exact Hmal|]. exists e'. auto.
Defined.

(** The hit counters are truncated at every decay, so unlike the two ink
    layers they depend on how the elapsed time is split: three hits decayed
    after one second and again after another leave 1, decayed once after
    two seconds they leave 2. *)
Lemma hit_decay_depends_on_cadence :
  let cv0 := with_layers fresh_canvas [] [] [3] in
  hit (decay 2 (decay 1 cv0)) = [1] /\ hit (decay 2 cv0) = [2].
Proof.
  intros cv0.
  assert (Hrate : Rpower FAST_DECAY_PER_SEC 1 = (88 / 100)%R).
  { rewrite Rpower_1; unfold FAST_DECAY_PER_SEC; lra. }
  assert (Hrate2 : Rpower FAST_DECAY_PER_SEC 2 = (88 / 100 * (88 / 100))%R).
  { replace 2%R with (1 + 1)%R by lra. rewrite Rpower_plus, Hrate. reflexivity. }
  split.
  - rewrite decay_hit, decay_last_fast, decay_hit.
    change (last_fast cv0) with 0%R. change (hit cv0) with [3].
    destruct (Rgt_dec (1 - 0) 0); [|lra]. destruct (Rgt_dec (2 - 1) 0); [|lra].
    replace (1 - 0)%R with 1%R by lra. replace (2 - 1)%R with 1%R by lra.
    rewrite Hrate. cbn [map].
    rewrite (py_int_eq (3 * (88 / 100)) 2) by lra.
    rewrite (py_int_eq (2 * (88 / 100)) 1) by lra. reflexivity.
  - rewrite decay_hit. change (last_fast cv0) with 0%R. change (hit cv0) with [3].
    destruct (Rgt_dec (2 - 0) 0); [|lra]. replace (2 - 0)%R with 2%R by lra.
    rewrite Hrate2. cbn [map].
    rewrite (py_int_eq (3 * (88 / 100 * (88 / 100))) 2) by lra. reflexivity.
Qed.

(** * Further properties of the code *)

(** ** Geometry *)

Section GeometryFacts.
Local Open Scope R_scope.

Lemma circle_inside_grid (cv0 : BrailleCanvas) (x y : Z) :
  canvas_wf cv0 -> _in_circle_sub cv0 x y = true ->
  (4 <= x <= cv_ws cv0 - 4)%Z /\ (4 <= y <= cv_hs cv0 - 4)%Z.
Proof.
  intros Hwf Hin. pose proof (canvas_radius_ge cv0 Hwf) as HR.
  apply in_circle_spec in Hin. destruct Hwf.
  rewrite wf_cx0, wf_cy0, wf_ws0, wf_hs0 in *.
  rewrite Z.div_mul in * by lia.
  replace (cv_hc cv0 * 4)%Z with (cv_hc cv0 * 2 * 2)%Z in * by ring.
  rewrite Z.div_mul in * by lia.
  assert (Hx : (- cv_R cv0 <= x - cv_wc cv0 <= cv_R cv0)%Z) by nia.
  assert (Hy : (- cv_R cv0 <= y - cv_hc cv0 * 2 <= cv_R cv0)%Z) by nia.
  lia.
Qed.

(** X1: on a well-formed canvas the circle lies inside the grid with a
    margin of four sub-pixels: a point that passes [_in_circle_sub] has
    [4 <= x <= ws - 4] and [4 <= y <= hs - 4], so the grid tests of
    [splat_subpixel] and [deposit_ray] never reject a point of the circle. *)
Theorem circle_fits_in_grid (cv0 : BrailleCanvas) (x y : Z) :
  canvas_wf cv0 -> _in_circle_sub cv0 x y = true ->
  (4 <= x <= cv_ws cv0 - 4)%Z /\ (4 <= y <= cv_hs cv0 - 4)%Z
  /\ (x <? 0)%Z || (x >=? cv_ws cv0)%Z || (y <? 0)%Z || (y >=? cv_hs cv0)%Z = false.
Proof.
  intros Hwf Hin. destruct (circle_inside_grid cv0 x y Hwf Hin) as [Hx Hy].
  split; [exact Hx|]. split; [exact Hy|].
  rewrite !orb_false_iff, !Z.geb_leb, !Z.ltb_ge, !Z.leb_gt. lia.
Qed.

Lemma circle_fits_in_grid_witness :
  canvas_wf fresh_canvas /\ _in_circle_sub fresh_canvas 50 72 = true
  /\ (4 <= 50 <= cv_ws fresh_canvas - 4)%Z.
Proof.
  assert (Hin : _in_circle_sub fresh_canvas 50 72 = true) by reflexivity.
  destruct (circle_fits_in_grid fresh_canvas 50 72 fresh_canvas_wf Hin) as (Hx & _).
  split; [apply fresh_canvas_wf|]. split; [exact Hin|exact Hx].
Defined.

(** X2: whatever size the terminal reports, [resize] lays the canvas out
    for at least 120 x 40 characters (each floor applied on its own, a larger
    terminal is used as it is), leaves two columns and four lines for border
    and header, packs 2 x 4 sub-pixels per cell, makes the radius at least
    68, clears the three layers to [ws * hs] zeros and keeps the two decay
    time stamps. *)
Theorem resize_resets_canvas (sz : Z * Z) (tf ts : R) :
  let cv0 := resize sz tf ts in
  (cv_W cv0 = Z.max 120 sz.1 /\ cv_H cv0 = Z.max 40 sz.2)
  /\ (120 <= cv_W cv0 /\ 40 <= cv_H cv0)%Z
  /\ (cv_wc cv0 = cv_W cv0 - 2 /\ cv_hc cv0 = cv_H cv0 - 4)%Z
  /\ (cv_ws cv0 = 2 * cv_wc cv0 /\ cv_hs cv0 = 4 * cv_hc cv0)%Z
  /\ (cv_cx cv0 = cv_wc cv0 /\ cv_cy cv0 = 2 * cv_hc cv0)%Z
  /\ (68 <= cv_R cv0)%Z
  /\ fast cv0 = replicate (Z.to_nat (cv_ws cv0 * cv_hs cv0)) 0
  /\ slow cv0 = replicate (Z.to_nat (cv_ws cv0 * cv_hs cv0)) 0
  /\ hit cv0 = replicate (Z.to_nat (cv_ws cv0 * cv_hs cv0)) 0%Z
  /\ length (cell_mask cv0) = Z.to_nat (cv_wc cv0 * cv_hc cv0)
  /\ last_fast cv0 = tf /\ last_slow cv0 = ts.
Proof.
  intros cv0. pose proof (canvas_radius_ge cv0 (resize_wf sz tf ts)) as HR.
  subst cv0. unfold resize, term_dims, BORDER, HEADER_LINES in *.
  cbn [cv_W cv_H cv_wc cv_hc cv_ws cv_hs cv_cx cv_cy cv_R fast slow hit cell_mask
       last_fast last_slow] in *.
  repeat split; try reflexivity; try lia.
  - rewrite Z.div_mul by lia. reflexivity.
  - replace ((Z.max 40 sz.2 - (2 + 1) - 1) * 4)%Z
      with ((2 * (Z.max 40 sz.2 - (2 + 1) - 1)) * 2)%Z by ring.
    rewrite Z.div_mul by lia. reflexivity.
  - apply build_mask_length.
Qed.

End GeometryFacts.

(** ** More on decay *)

Section DecayFacts.
Local Open Scope R_scope.

Lemma decay_stamps_ge (now : R) (cv0 : BrailleCanvas) :
  now <= last_fast (decay now cv0) /\ now <= last_slow (decay now cv0).
Proof.
  rewrite decay_last_fast, decay_last_slow.
  destruct (Rgt_dec (now - last_fast cv0) 0), (Rgt_dec (now - last_slow cv0) 0); lra.
Qed.

(** X3: [decay] is driven by the stored time stamps: applying it twice
    with the same [now] is the same as applying it once, a [now] that is not
    later than both stamps changes nothing, and afterwards each stamp is the
    later of [now] and its old value. *)
Theorem decay_idempotent (now : R) (cv0 : BrailleCanvas) :
  decay now (decay now cv0) = decay now cv0
  /\ (now <= last_fast cv0 -> now <= last_slow cv0 -> decay now cv0 = cv0)
  /\ last_fast (decay now cv0) = Rmax now (last_fast cv0)
  /\ last_slow (decay now cv0) = Rmax now (last_slow cv0).
Proof.
  destruct (decay_stamps_ge now cv0) as [Hf Hs].
  split; [by apply decay_no_elapsed|]. split; [apply decay_no_elapsed|].
  rewrite decay_last_fast, decay_last_slow. unfold Rmax.
  destruct (Rgt_dec (now - last_fast cv0) 0), (Rgt_dec (now - last_slow cv0) 0),
    (Rle_dec now (last_fast cv0)), (Rle_dec now (last_slow cv0)); split; lra.
Qed.

Lemma decay_idempotent_witness :
  (1 <= last_fast fresh_canvas -> 1 <= last_slow fresh_canvas ->
   decay 1 fresh_canvas = fresh_canvas)
  /\ decay 1 (decay 1 lit_canvas) = decay 1 lit_canvas
  /\ last_fast (decay 1 lit_canvas) = Rmax 1 (last_fast lit_canvas).
Proof.
  destruct (decay_idempotent 1 lit_canvas) as (Hi & _ & Hl & _).
  destruct (decay_idempotent 1 fresh_canvas) as (_ & Hn & _).
  split; [exact Hn|]. split; [exact Hi|exact Hl].
Defined.

Lemma Rpower_le_1 (rate dt : R) : 0 < rate < 1 -> 0 < dt -> Rpower rate dt <= 1.
Proof.
  intros Hr Hdt. rewrite <- (Rpower_O rate) by lra.
  unfold Rpower. left. apply exp_increasing.
  assert (ln rate < 0) by (rewrite <- ln_1; apply ln_increasing; lra). nra.
Qed.

Lemma lookup_scale_inv (f : R) (l : list R) (i : nat) (v' : R) :
  scale f l !! i = Some v' -> exists v, l !! i = Some v /\ v' = v * f.
Proof.
  revert i. induction l as [|x l IH]; intros [|i] Hl; simpl in *; try discriminate.
  - injection Hl as <-. eauto.
  - by apply IH.
Qed.

Lemma lookup_map_inv {A B : Type} (f : A -> B) (l : list A) (i : nat) (b : B) :
  map f l !! i = Some b -> exists a, l !! i = Some a /\ b = f a.
Proof.
  revert i. induction l as [|x l IH]; intros [|i] Hl; simpl in *; try discriminate.
  - injection Hl as <-. eauto.
  - by apply IH.
Qed.

(** X4: on a canvas with non-negative layers [decay] never raises an
    entry: every entry of the fast, slow and hit layer afterwards is between
    0 and the entry it replaces. *)
Theorem decay_never_brightens (now : R) (cv0 : BrailleCanvas) (i : nat) :
  layers_nonneg cv0 ->
  (forall v', fast (decay now cv0) !! i = Some v' ->
     exists v, fast cv0 !! i = Some v /\ 0 <= v' <= v)
  /\ (forall v', slow (decay now cv0) !! i = Some v' ->
     exists v, slow cv0 !! i = Some v /\ 0 <= v' <= v)
  /\ (forall h', hit (decay now cv0) !! i = Some h' ->
     exists h, hit cv0 !! i = Some h /\ (0 <= h' <= h)%Z).
Proof.
  intros (Nf & Ns & Nh). rewrite decay_fast, decay_slow, decay_hit.
  rewrite Forall_lookup in Nf. rewrite Forall_lookup in Ns. rewrite Forall_lookup in Nh.
  repeat split.
  - intros v' Hv'. destruct (Rgt_dec (now - last_fast cv0) 0) as [Hdt|Hdt].
    + apply lookup_scale_inv in Hv' as (v & Hv & ->). exists v. split; [exact Hv|].
      specialize (Nf _ _ Hv). simpl in Nf.
      pose proof (Rpower_pos FAST_DECAY_PER_SEC (now - last_fast cv0)).
      pose proof (Rpower_le_1 FAST_DECAY_PER_SEC (now - last_fast cv0)) as Hle.
      unfold FAST_DECAY_PER_SEC in *. nra.
    + exists v'. split; [exact Hv'|]. specialize (Nf _ _ Hv'). simpl in Nf. lra.
  - intros v' Hv'. destruct (Rgt_dec (now - last_slow cv0) 0) as [Hdt|Hdt].
    + apply lookup_scale_inv in Hv' as (v & Hv & ->). exists v. split; [exact Hv|].
      specialize (Ns _ _ Hv). simpl in Ns.
      pose proof (Rpower_pos SLOW_DECAY_PER_SEC (now - last_slow cv0)).
      pose proof (Rpower_le_1 SLOW_DECAY_PER_SEC (now - last_slow cv0)) as Hle.
      unfold SLOW_DECAY_PER_SEC in *. nra.
    + exists v'. split; [exact Hv'|]. specialize (Ns _ _ Hv'). simpl in Ns. lra.
  - intros h' Hh'. destruct (Rgt_dec (now - last_fast cv0) 0) as [Hdt|Hdt].
    + apply lookup_map_inv in Hh' as (h & Hh & ->). exists h. split; [exact Hh|].
      specialize (Nh _ _ Hh). simpl in Nh.
      pose proof (Rpower_pos FAST_DECAY_PER_SEC (now - last_fast cv0)) as Hp.
      pose proof (Rpower_le_1 FAST_DECAY_PER_SEC (now - last_fast cv0)) as Hle.
      assert (H0 : 0 <= IZR h) by (by apply IZR_le).
      split.
      * apply py_int_nonneg. unfold FAST_DECAY_PER_SEC in *. nra.
      * rewrite <- (py_int_IZR h Nh) at 2.
        apply py_int_mono; unfold FAST_DECAY_PER_SEC in *; nra.
    + exists h'. split; [exact Hh'|]. specialize (Nh _ _ Hh'). simpl in Nh. lia.
Qed.

Lemma decay_never_brightens_witness :
  layers_nonneg lit_canvas
  /\ forall v', fast (decay 1 lit_canvas) !! centre_idx = Some v' ->
       exists v, fast lit_canvas !! centre_idx = Some v /\ 0 <= v' <= v.
Proof.
  destruct (decay_never_brightens 1 lit_canvas centre_idx lit_canvas_nonneg) as (Hf & _).
  split; [apply lit_canvas_nonneg|exact Hf].
Defined.

End DecayFacts.

(** ** Where a splat lands *)

Section SplatTarget.
Context {G : Type} `{RandomSource G}.
Local Open Scope R_scope.

Lemma splat_probe_target (n : nat) (cv0 : BrailleCanvas) (x y best_i best_h : Z) (g : G) :
  canvas_wf cv0 -> near_target cv0 x y best_i best_h ->
  exists i h g', splat_probe n cv0 x y best_i best_h g = Some (i, g')
                 /\ near_target cv0 x y i h /\ (h <= best_h)%Z.
Proof.
  intros Hwf. revert best_i best_h g.
  induction n as [|n IH]; intros best_i best_h g Hb; simpl.
  { exists best_i, best_h, g. split; [reflexivity|]. split; [exact Hb|lia]. }
  pose proof (randint_range (-1) 1 g) as Hrx.
  destruct (randint (-1) 1 g) as [rx g1]. cbn [fst] in Hrx.
  pose proof (randint_range (-1) 1 g1) as Hry.
  destruct (randint (-1) 1 g1) as [ry g2]. cbn [fst] in Hry.
  destruct (_ || _) eqn:Eg; [by apply IH|].
  apply grid_guard in Eg as [Hx Hy].
  destruct (_in_circle_sub cv0 (x + rx) (y + ry)) eqn:Ec; simpl; [|by apply IH].
  pose proof (idx_in_range cv0 _ _ Hx Hy) as Hi.
  destruct (layer_size cv0 Hwf) as (_ & _ & Hh).
  destruct (py_index_is_Some (hit cv0) (_idx cv0 (x + rx) (y + ry))) as [hh Hhh]; [lia|].
  rewrite Hhh. cbn [mbind option_bind].
  assert (Hnew : near_target cv0 x y (_idx cv0 (x + rx) (y + ry)) hh).
  { exists (x + rx)%Z, (y + ry)%Z. repeat split; try assumption; lia. }
  destruct (Z.ltb_spec hh best_h) as [Hlt|Hge]; [|by apply IH].
  destruct (hh =? 0)%Z.
  - exists (_idx cv0 (x + rx) (y + ry)), hh, g2. split; [reflexivity|].
    split; [exact Hnew|lia].
  - destruct (IH (_idx cv0 (x + rx) (y + ry)) hh g2 Hnew) as (i & h & g' & E & Ht & Hle).
    exists i, h, g'. split; [exact E|]. split; [exact Ht|lia].
Qed.

Lemma near_target_in_range (cv0 : BrailleCanvas) (x y i h : Z) :
  near_target cv0 x y i h -> (0 <= i < cv_ws cv0 * cv_hs cv0)%Z.
Proof.
  intros (nx & ny & -> & Hx & Hy & _). by apply idx_in_range.
Qed.

(** What [splat_subpixel] does at a point of the grid inside the circle. *)
Lemma splat_inside (cv0 : BrailleCanvas) (x y : Z) (ink : R) (g : G) :
  canvas_wf cv0 ->
  (0 <= x < cv_ws cv0)%Z -> (0 <= y < cv_hs cv0)%Z -> _in_circle_sub cv0 x y = true ->
  exists (i h0 h : Z) (f s : R) (g' : G),
    py_index (hit cv0) (_idx cv0 x y) = Some h0
    /\ near_target cv0 x y i h /\ (h <= h0)%Z
    /\ fast cv0 !! Z.to_nat i = Some f /\ slow cv0 !! Z.to_nat i = Some s
    /\ hit cv0 !! Z.to_nat i = Some h
    /\ splat_subpixel cv0 x y ink g
       = Some (with_layers cv0 (<[Z.to_nat i := f + ink]> (fast cv0))
                           (<[Z.to_nat i := s + ink * SLOW_GAIN]> (slow cv0))
                           (<[Z.to_nat i := (h + 1)%Z]> (hit cv0)), g').
Proof.
  intros Hwf Hx Hy Hin. unfold splat_subpixel.
  assert (Eg : (x <? 0)%Z || (x >=? cv_ws cv0)%Z || (y <? 0)%Z || (y >=? cv_hs cv0)%Z = false).
  { rewrite !orb_false_iff, !Z.geb_leb, !Z.ltb_ge, !Z.leb_gt. lia. }
  rewrite Eg, Hin. cbn [negb].
  pose proof (idx_in_range cv0 _ _ Hx Hy) as Hi.
  destruct (layer_size cv0 Hwf) as (Hf & Hs & Hh).
  destruct (py_index_is_Some (hit cv0) (_idx cv0 x y)) as [h0 Hh0]; [lia|].
  rewrite Hh0. cbn [mbind option_bind].
  assert (Hstart : near_target cv0 x y (_idx cv0 x y) h0).
  { exists x, y. repeat split; try assumption; lia. }
  destruct (splat_probe_target 4 cv0 x y (_idx cv0 x y) h0 g Hwf Hstart)
    as (i & h & g' & Hp & Ht & Hle).
  rewrite Hp. cbn [mbind option_bind].
  pose proof (near_target_in_range _ _ _ _ _ Ht) as Hir.
  assert (Hhi : py_index (hit cv0) i = Some h).
  { destruct Ht as (nx & ny & -> & _ & _ & _ & _ & _ & Hl). exact Hl. }
  rewrite (py_index_in_range (hit cv0)) in Hhi by lia.
  rewrite (py_index_in_range (fast cv0)), (py_index_in_range (slow cv0)),
    (py_index_in_range (hit cv0)) by lia.
  destruct (lookup_lt_is_Some_2 (fast cv0) (Z.to_nat i)) as [f Ef]; [lia|].
  destruct (lookup_lt_is_Some_2 (slow cv0) (Z.to_nat i)) as [s Es]; [lia|].
  rewrite Ef, Es, Hhi. cbn [mbind option_bind].
  rewrite !py_store_in_range by lia. cbn [mbind option_bind].
  exists i, h0, h, f, s, g'. repeat split; try assumption.
Qed.

(** X5: at a point of the grid inside the circle, [splat_subpixel]
    writes exactly one position: that of a sub-pixel inside the circle, at
    most one step away in x and in y, whose hit counter is not above the one
    at [(x, y)] itself.  There it adds [ink] to the fast layer,
    [ink * SLOW_GAIN] to the slow layer and 1 to the hit counter; every
    other entry of the three layers is left as it was. *)
Theorem splat_writes_one_neighbour (cv0 : BrailleCanvas) (x y : Z) (ink : R) (g : G) :
  canvas_wf cv0 ->
  (0 <= x < cv_ws cv0)%Z -> (0 <= y < cv_hs cv0)%Z -> _in_circle_sub cv0 x y = true ->
  exists (nx ny h0 h : Z) (f s : R) (cv' : BrailleCanvas) (g' : G),
    splat_subpixel cv0 x y ink g = Some (cv', g')
    /\ (x - 1 <= nx <= x + 1)%Z /\ (y - 1 <= ny <= y + 1)%Z
    /\ (0 <= nx < cv_ws cv0)%Z /\ (0 <= ny < cv_hs cv0)%Z
    /\ _in_circle_sub cv0 nx ny = true
    /\ py_index (hit cv0) (_idx cv0 x y) = Some h0
    /\ py_index (hit cv0) (_idx cv0 nx ny) = Some h /\ (h <= h0)%Z
    /\ py_index (fast cv0) (_idx cv0 nx ny) = Some f
    /\ py_index (slow cv0) (_idx cv0 nx ny) = Some s
    /\ py_index (fast cv') (_idx cv0 nx ny) = Some (f + ink)
    /\ py_index (slow cv') (_idx cv0 nx ny) = Some (s + ink * SLOW_GAIN)
    /\ py_index (hit cv') (_idx cv0 nx ny) = Some (h + 1)%Z
    /\ (forall j : nat, j <> Z.to_nat (_idx cv0 nx ny) ->
          fast cv' !! j = fast cv0 !! j /\ slow cv' !! j = slow cv0 !! j
          /\ hit cv' !! j = hit cv0 !! j)
    /\ cv' = with_layers cv0 (fast cv') (slow cv') (hit cv').
Proof.
  intros Hwf Hx Hy Hin.
  destruct (splat_inside cv0 x y ink g Hwf Hx Hy Hin)
    as (i & h0 & h & f & s & g' & Hh0 & Ht & Hle & Ef & Es & Eh & E).
  pose proof (near_target_in_range _ _ _ _ _ Ht) as Hir.
  destruct Ht as (nx & ny & -> & Hnx & Hny & Hc & Hdx & Hdy & Hl).
  destruct (layer_size cv0 Hwf) as (Hf & Hs & Hh).
  exists nx, ny, h0, h, f, s. eexists _, g'. split; [exact E|].
  cbn [fast slow hit with_layers].
  repeat split; try assumption; try lia.
  - rewrite py_index_in_range by lia. exact Ef.
  - rewrite py_index_in_range by lia. exact Es.
  - rewrite py_index_in_range by (rewrite length_insert; lia).
    apply list_lookup_insert_eq. lia.
  - rewrite py_index_in_range by (rewrite length_insert; lia).
    apply list_lookup_insert_eq. lia.
  - rewrite py_index_in_range by (rewrite length_insert; lia).
    apply list_lookup_insert_eq. lia.
  - by apply list_lookup_insert_ne.
  - by apply list_lookup_insert_ne.
  - by apply list_lookup_insert_ne.
Qed.

(** X6: a splat at a sub-pixel of the circle that has no hits yet, on a
    canvas whose hit counters are non-negative, lands on that very
    sub-pixel. *)
Theorem splat_uncongested_stays (cv0 : BrailleCanvas) (x y : Z) (ink f s : R) (g : G) :
  canvas_wf cv0 -> Forall (fun h => (0 <= h)%Z) (hit cv0) ->
  (0 <= x < cv_ws cv0)%Z -> (0 <= y < cv_hs cv0)%Z -> _in_circle_sub cv0 x y = true ->
  py_index (hit cv0) (_idx cv0 x y) = Some 0%Z ->
  py_index (fast cv0) (_idx cv0 x y) = Some f ->
  py_index (slow cv0) (_idx cv0 x y) = Some s ->
  exists g',
    splat_subpixel cv0 x y ink g
    = Some (with_layers cv0
              (<[Z.to_nat (_idx cv0 x y) := f + ink]> (fast cv0))
              (<[Z.to_nat (_idx cv0 x y) := s + ink * SLOW_GAIN]> (slow cv0))
              (<[Z.to_nat (_idx cv0 x y) := 1%Z]> (hit cv0)), g').
Proof.
  intros Hwf Hnn Hx Hy Hin Hh0 Hf0 Hs0. unfold splat_subpixel.
  assert (Eg : (x <? 0)%Z || (x >=? cv_ws cv0)%Z || (y <? 0)%Z || (y >=? cv_hs cv0)%Z = false).
  { rewrite !orb_false_iff, !Z.geb_leb, !Z.ltb_ge, !Z.leb_gt. lia. }
  rewrite Eg, Hin. cbn [negb]. rewrite Hh0. cbn [mbind option_bind].
  destruct (splat_probe_uncongested 4 cv0 x y (_idx cv0 x y) g Hwf Hnn) as [g' Hp].
  rewrite Hp. cbn [mbind option_bind]. rewrite Hf0, Hs0, Hh0. cbn [mbind option_bind].
  pose proof (idx_in_range cv0 _ _ Hx Hy) as Hi.
  destruct (layer_size cv0 Hwf) as (Hf & Hs & Hh).
  rewrite !py_store_in_range by lia. cbn [mbind option_bind]. eauto.
Qed.

End SplatTarget.

Lemma splat_writes_one_neighbour_witness :
  canvas_wf lit_canvas /\ (0 <= 118 < cv_ws lit_canvas)%Z /\ (0 <= 72 < cv_hs lit_canvas)%Z
  /\ _in_circle_sub lit_canvas 118 72 = true
  /\ exists cv' g', splat_subpixel lit_canvas 118 72 1 low_end = Some (cv', g').
Proof.
  assert (Hx : (0 <= 118 < cv_ws lit_canvas)%Z) by (change (0 <= 118 < 236)%Z; lia).
  assert (Hy : (0 <= 72 < cv_hs lit_canvas)%Z) by (change (0 <= 72 < 144)%Z; lia).
  assert (Hin : _in_circle_sub lit_canvas 118 72 = true) by reflexivity.
  destruct (splat_writes_one_neighbour lit_canvas 118 72 1 low_end lit_canvas_wf Hx Hy Hin)
    as (nx & ny & h0 & h & f & s & cv' & g' & E & _).
  split; [apply lit_canvas_wf|]. split; [exact Hx|]. split; [exact Hy|].
  split; [exact Hin|]. exists cv', g'. exact E.
Defined.

Lemma splat_uncongested_stays_witness :
  canvas_wf fresh_canvas /\ Forall (fun h => 0 <= h) (hit fresh_canvas)
  /\ py_index (hit fresh_canvas) (_idx fresh_canvas 118 72) = Some 0
  /\ exists g',
      splat_subpixel fresh_canvas 118 72 1 low_end
      = Some (with_layers fresh_canvas
                (<[Z.to_nat (_idx fresh_canvas 118 72) := (0 + 1)%R]> (fast fresh_canvas))
                (<[Z.to_nat (_idx fresh_canvas 118 72) := (0 + 1 * SLOW_GAIN)%R]>
                   (slow fresh_canvas))
                (<[Z.to_nat (_idx fresh_canvas 118 72) := 1]> (hit fresh_canvas)), g').
Proof.
  destruct (resize_nonneg (0, 0) 0 0) as (_ & _ & Nh).
  change (resize (0, 0) 0 0) with fresh_canvas in Nh.
  destruct fresh_layer_sizes as (Lf & Ls & Lh).
  assert (Hx : 0 <= 118 < cv_ws fresh_canvas) by (change (0 <= 118 < 236); lia).
  assert (Hy : 0 <= 72 < cv_hs fresh_canvas) by (change (0 <= 72 < 144); lia).
  assert (Hin : _in_circle_sub fresh_canvas 118 72 = true) by reflexivity.
  assert (Hh : py_index (hit fresh_canvas) (_idx fresh_canvas 118 72) = Some 0).
  { change (_idx fresh_canvas 118 72) with (72 * 236 + 118).
    rewrite py_index_in_range by (rewrite Lh; lia).
    apply lookup_replicate_2. apply centre_idx_lt. }
  assert (Hf : py_index (fast fresh_canvas) (_idx fresh_canvas 118 72) = Some 0%R).
  { change (_idx fresh_canvas 118 72) with (72 * 236 + 118).
    rewrite py_index_in_range by (rewrite Lf; lia).
    apply lookup_replicate_2. apply centre_idx_lt. }
  assert (Hs : py_index (slow fresh_canvas) (_idx fresh_canvas 118 72) = Some 0%R).
  { change (_idx fresh_canvas 118 72) with (72 * 236 + 118).
    rewrite py_index_in_range by (rewrite Ls; lia).
    apply lookup_replicate_2. apply centre_idx_lt. }
  split; [apply fresh_canvas_wf|]. split; [exact Nh|]. split; [exact Hh|].
  exact (splat_uncongested_stays fresh_canvas 118 72 1 0 0 low_end
           fresh_canvas_wf Nh Hx Hy Hin Hh Hf Hs).
Defined.

(** ** Accounting for the ink of an observation *)

Section Painting.
Context {G : Type} `{RandomSource G}.
Local Open Scope R_scope.

Lemma hit_total_insert (l : list Z) (i : nat) (old v : Z) :
  l !! i = Some old -> hit_total (<[i := v]> l) = (hit_total l - old + v)%Z.
Proof.
  revert i. induction l as [|x l IH]; intros [|i] Hl; simpl in *; try discriminate.
  - injection Hl as ->. lia.
  - rewrite (IH i Hl). lia.
Qed.

Lemma painted_refl (ink : R) (cv0 : BrailleCanvas) : painted ink 0 cv0 cv0.
Proof.
  constructor; try reflexivity; try lia; try (simpl; lra).
  - apply with_layers_same.
  - auto.
Qed.

Lemma painted_wf (ink : R) (n : Z) (cv0 cv' : BrailleCanvas) :
  canvas_wf cv0 -> painted ink n cv0 cv' -> canvas_wf cv'.
Proof.
  intros Hwf [F Lf Ls Lh _ _ _ _ _]. rewrite F. by apply with_layers_wf.
Qed.

Lemma painted_trans (ink : R) (n1 n2 : Z) (cv0 cv1 cv2 : BrailleCanvas) :
  painted ink n1 cv0 cv1 -> painted ink n2 cv1 cv2 -> painted ink (n1 + n2) cv0 cv2.
Proof.
  intros [F1 Lf1 Ls1 Lh1 C1 Tf1 Ts1 Th1 O1] [F2 Lf2 Ls2 Lh2 C2 Tf2 Ts2 Th2 O2].
  constructor; try congruence; try lia.
  - rewrite F2 at 1. rewrite F1 at 1. reflexivity.
  - rewrite Tf2, Tf1, plus_IZR. ring.
  - rewrite Ts2, Ts1, plus_IZR. ring.
  - intros i Hi. destruct (O1 i Hi) as (A1 & B1 & D1).
    destruct (O2 i) as (A2 & B2 & D2).
    { rewrite F1. exact Hi. }
    repeat split; congruence.
Qed.

Lemma idx_inj (cv0 : BrailleCanvas) (x y x' y' : Z) :
  (0 <= x < cv_ws cv0)%Z -> (0 <= x' < cv_ws cv0)%Z -> (0 <= y)%Z -> (0 <= y')%Z ->
  _idx cv0 x y = _idx cv0 x' y' -> x = x' /\ y = y'.
Proof.
  unfold _idx. intros Hx Hx' Hy Hy' E.
  assert (y = y') by nia. subst. lia.
Qed.

Lemma splat_painted (cv0 cv' : BrailleCanvas) (x y : Z) (ink : R) (g g' : G) :
  canvas_wf cv0 -> splat_subpixel cv0 x y ink g = Some (cv', g') ->
  exists n, (n <= 1)%Z /\ painted ink n cv0 cv'.
Proof.
  intros Hwf E.
  destruct ((x <? 0)%Z || (x >=? cv_ws cv0)%Z || (y <? 0)%Z || (y >=? cv_hs cv0)%Z) eqn:Eg.
  { unfold splat_subpixel in E. rewrite Eg in E. injection E as <- _.
    exists 0%Z. split; [lia|apply painted_refl]. }
  destruct (_in_circle_sub cv0 x y) eqn:Ec.
  2:{ unfold splat_subpixel in E. rewrite Eg, Ec in E. injection E as <- _.
      exists 0%Z. split; [lia|apply painted_refl]. }
  apply grid_guard in Eg as [Hx Hy].
  destruct (splat_inside cv0 x y ink g Hwf Hx Hy Ec)
    as (i & h0 & h & f & s & g1 & _ & Ht & _ & Ef & Es & Eh & E1).
  rewrite E1 in E. injection E as <- _.
  exists 1%Z. split; [lia|].
  constructor; cbn [fast slow hit with_layers]; try apply length_insert; try lia.
  - reflexivity.
  - rewrite (layer_total_insert _ _ _ _ Ef). lra.
  - rewrite (layer_total_insert _ _ _ _ Es). lra.
  - rewrite (hit_total_insert _ _ _ _ Eh). lia.
  - intros j Hj. destruct Ht as (nx & ny & -> & Hnx & Hny & Hc & _).
    specialize (Hj nx ny Hnx Hny Hc).
    repeat split; by apply list_lookup_insert_ne.
Qed.

Lemma ray_step_painted (theta r_pix k : R) (start steps s : Z)
      (cv0 cv' : BrailleCanvas) (g g' : G) :
  canvas_wf cv0 -> ray_step theta r_pix k start steps s cv0 g = Some (cv', g') ->
  exists n, (n <= 1)%Z /\ painted k n cv0 cv'.
Proof.
  intros Hwf. unfold ray_step.
  destruct (uniform (- JITTER_ARC_DEG) JITTER_ARC_DEG g) as [u1 g1].
  destruct (uniform (- JITTER_R_FRAC) JITTER_R_FRAC g1) as [u2 g2].
  destruct (_ && _); [by apply splat_painted|].
  intros [= <- _]. exists 0%Z. split; [lia|apply painted_refl].
Qed.

Lemma ray_loop_painted (theta r_pix k : R) (start steps : Z) (ss : list Z)
      (cv0 cv' : BrailleCanvas) (g g' : G) :
  canvas_wf cv0 -> ray_loop theta r_pix k start steps ss cv0 g = Some (cv', g') ->
  exists n, (n <= Z.of_nat (length ss))%Z /\ painted k n cv0 cv'.
Proof.
  revert cv0 g. induction ss as [|s ss IH]; intros cv0 g Hwf E.
  - injection E as <- _. exists 0%Z. split; [simpl; lia|apply painted_refl].
  - cbn [ray_loop] in E.
    destruct (ray_step theta r_pix k start steps s cv0 g) as [[cv1 g1]|] eqn:E1;
      [|discriminate].
    cbn [mbind option_bind] in E.
    destruct (ray_step_painted _ _ _ _ _ _ _ _ _ _ Hwf E1) as (n1 & Hn1 & P1).
    destruct (IH cv1 g1 (painted_wf _ _ _ _ Hwf P1) E) as (n2 & Hn2 & P2).
    exists (n1 + n2)%Z. split; [cbn [length]; lia|]. eapply painted_trans; eassumption.
Qed.

Lemma deposit_ray_painted (cv0 cv' : BrailleCanvas) (theta r_pix k : R) (g g' : G) :
  canvas_wf cv0 -> deposit_ray cv0 theta r_pix k g = Some (cv', g') ->
  exists n, (n <= ray_steps r_pix)%Z /\ painted k n cv0 cv'.
Proof.
  intros Hwf E. unfold deposit_ray in E.
  destruct (ray_loop_painted _ _ _ _ _ _ _ _ _ _ Hwf E) as (n & Hn & P).
  exists n. split; [|exact P]. rewrite length_seqZ in Hn.
  pose proof (ray_steps_pos r_pix). lia.
Qed.

Lemma ingest_loop_painted (n : nat) (theta r_pix ink : R)
      (cv0 cv' : BrailleCanvas) (g g' : G) :
  canvas_wf cv0 -> ingest_loop n theta r_pix ink cv0 g = Some (cv', g') ->
  exists m, painted ink m cv0 cv'.
Proof.
  revert cv0 g. induction n as [|n IH]; intros cv0 g Hwf E.
  - injection E as <- _. exists 0%Z. apply painted_refl.
  - cbn [ingest_loop] in E.
    destruct (uniform (- JITTER_ARC_DEG) JITTER_ARC_DEG g) as [u1 g1].
    destruct (uniform (- JITTER_R_FRAC) JITTER_R_FRAC g1) as [u2 g2].
    destruct (deposit_ray cv0 (theta + radians u1) (r_pix * (1 + u2)) ink g2)
      as [[cv1 g3]|] eqn:E1; [|discriminate].
    cbn [mbind option_bind] in E.
    destruct (deposit_ray_painted _ _ _ _ _ _ _ Hwf E1) as (n1 & _ & P1).
    destruct (IH cv1 g3 (painted_wf _ _ _ _ Hwf P1) E) as (n2 & P2).
    exists (n1 + n2)%Z. eapply painted_trans; eassumption.
Qed.

End Painting.

Section ObservationAccounting.
Context {G : Type} `{RandomSource G}.
Variable md5_int : string -> Z.
Local Open Scope R_scope.

(** What a returning [ingest] has done to the engine. *)
Lemma ingest_painted (e e' : Engine) (now : R) (g : G) (mac : string) (rssi motion : R) :
  canvas_wf (cv e) ->
  ingest md5_int e now g mac rssi motion = Some e' ->
  let obs := update_mac (state e !! mac) now rssi motion in
  let motion_u := motion_unit (motion_ema obs.1) in
  let drssi_u := drssi_unit obs.2 in
  (exists n, painted (ink_per_deposit motion_u drssi_u (sample_count motion_u drssi_u))
                     n (cv e) (cv e'))
  /\ state e' = <[mac := obs.1]> (state e)
  /\ seed_counter e' = (seed_counter e + 1)%Z
  /\ last_draw e' = last_draw e /\ min_dt e' = min_dt e /\ stdout e' = stdout e.
Proof.
  intros Hwf. unfold ingest.
  destruct (update_mac (state e !! mac) now rssi motion) as [st d_rs]. cbn [fst snd].
  destruct (ingest_loop _ _ _ _ (cv e) g) as [[cv' g']|] eqn:E; [|discriminate].
  cbn [mbind option_bind]. intros [= <-]. cbn [cv state seed_counter last_draw min_dt stdout].
  split; [|auto]. eapply ingest_loop_painted; eassumption.
Qed.

(** X7: the ink of an observation is accounted for splat by splat: if
    [n] splats landed inside the circle, the fast layer holds exactly
    [n * ink_per] more, the slow layer exactly [SLOW_GAIN] times that, and
    the hit counters add up to exactly [n] more, where [ink_per] is the ink
    per micro-deposit that [ingest] derives. *)
Theorem ingest_ink_accounting (e e' : Engine) (now : R) (g : G) (mac : string)
        (rssi motion : R) :
  canvas_wf (cv e) ->
  ingest md5_int e now g mac rssi motion = Some e' ->
  let obs := update_mac (state e !! mac) now rssi motion in
  let motion_u := motion_unit (motion_ema obs.1) in
  let drssi_u := drssi_unit obs.2 in
  let ink_per := ink_per_deposit motion_u drssi_u (sample_count motion_u drssi_u) in
  exists n : Z,
    (0 <= n)%Z
    /\ layer_total (fast (cv e')) = layer_total (fast (cv e)) + IZR n * ink_per
    /\ layer_total (slow (cv e')) = layer_total (slow (cv e)) + IZR n * ink_per * SLOW_GAIN
    /\ hit_total (hit (cv e')) = (hit_total (hit (cv e)) + n)%Z
    /\ layer_total (slow (cv e')) - layer_total (slow (cv e))
       = SLOW_GAIN * (layer_total (fast (cv e')) - layer_total (fast (cv e))).
Proof.
  intros Hwf E obs motion_u drssi_u ink_per.
  destruct (ingest_painted e e' now g mac rssi motion Hwf E) as ([n P] & _).
  fold obs motion_u drssi_u ink_per in P.
  destruct P as [_ _ _ _ Hn Tf Ts Th _].
  exists n. split; [exact Hn|]. split; [exact Tf|].
  split; [rewrite Ts; ring|]. split; [exact Th|]. rewrite Ts, Tf. ring.
Qed.

End ObservationAccounting.

Lemma ingest_ink_accounting_witness :
  let e := new_engine (0, 0) 0 in
  canvas_wf (cv e)
  /\ exists e' n,
      ingest (G := LowEnd) zero_hash e 1 low_end "aa:bb:cc:dd:ee:ff" (-40) 3 = Some e'
      /\ hit_total (hit (cv e')) = hit_total (hit (cv e)) + n.
Proof.
  intros e. pose proof (resize_wf (0, 0) 0 0 : canvas_wf (cv e)) as Hwf.
  split; [exact Hwf|].
  destruct (ingest_deposited (G := LowEnd) zero_hash e 1 low_end "aa:bb:cc:dd:ee:ff"
              (-40) 3 Hwf) as (e' & E & _).
  destruct (ingest_ink_accounting (G := LowEnd) zero_hash e e' 1 low_end
              "aa:bb:cc:dd:ee:ff" (-40) 3 Hwf E) as (n & _ & _ & _ & Hh & _).
  exists e', n. split; [exact E|exact Hh].
Defined.

(** ** Nothing is ever written outside the circle *)

Section OutsideDark.
Context {G : Type} `{RandomSource G}.
Variable md5_int : string -> Z.
Local Open Scope R_scope.

Lemma resize_outside_dark (sz : Z * Z) (tf ts : R) : outside_dark (resize sz tf ts).
Proof.
  intros x y Hx Hy _. pose proof (resize_wf sz tf ts) as Hwf.
  pose proof (idx_in_range _ _ _ Hx Hy) as Hi.
  destruct (layer_size _ Hwf) as (Lf & Ls & Lh).
  rewrite !py_index_in_range by lia. clear Lf Ls Lh Hwf.
  unfold _idx, resize in *. cbn [term_dims fast slow hit cv_ws cv_hs] in *.
  repeat split; apply lookup_replicate_2; lia.
Qed.

Lemma decay_geometry (now : R) (cv0 : BrailleCanvas) :
  cv_ws (decay now cv0) = cv_ws cv0 /\ cv_hs (decay now cv0) = cv_hs cv0
  /\ cv_cx (decay now cv0) = cv_cx cv0 /\ cv_cy (decay now cv0) = cv_cy cv0
  /\ cv_R (decay now cv0) = cv_R cv0 /\ cell_mask (decay now cv0) = cell_mask cv0.
Proof.
  unfold decay. destruct (Rgt_dec (now - last_fast cv0) 0); cbn;
    destruct (Rgt_dec _ 0); cbn; auto 10.
Qed.

Lemma py_index_map_zero {A B : Type} (f : A -> B) (l : list A) (i : Z) (a : A) (b : B) :
  f a = b -> py_index l i = Some a -> py_index (map f l) i = Some b.
Proof.
  intros Hf. unfold py_index. rewrite List.length_map.
  assert (Hm : forall n, l !! n = Some a -> map f l !! n = Some b).
  { intros n. revert n. induction l as [|x l IH]; intros [|n] Hl; simpl in *;
      try discriminate; [injection Hl as ->; by rewrite Hf|by apply IH]. }
  destruct (_ && _); [apply Hm|]. destruct (_ && _); [apply Hm|discriminate].
Qed.

Lemma decay_outside_dark (now : R) (cv0 : BrailleCanvas) :
  outside_dark cv0 -> outside_dark (decay now cv0).
Proof.
  intros Hd x y. destruct (decay_geometry now cv0) as (Ews & Ehs & Ecx & Ecy & ER & _).
  unfold _in_circle_sub, _idx. rewrite Ews, Ehs, Ecx, Ecy, ER.
  intros Hx Hy Hc. destruct (Hd x y Hx Hy Hc) as (Hf & Hs & Hh).
  rewrite decay_fast, decay_slow, decay_hit. unfold _idx in *. repeat split.
  - destruct (Rgt_dec _ 0); [|exact Hf]. unfold scale.
    eapply py_index_map_zero; [|exact Hf]. simpl. ring.
  - destruct (Rgt_dec _ 0); [|exact Hs]. unfold scale.
    eapply py_index_map_zero; [|exact Hs]. simpl. ring.
  - destruct (Rgt_dec _ 0); [|exact Hh].
    eapply py_index_map_zero; [|exact Hh]. simpl.
    apply py_int_eq; simpl; lra.
Qed.

Lemma painted_outside_dark (ink : R) (n : Z) (cv0 cv' : BrailleCanvas) :
  canvas_wf cv0 -> painted ink n cv0 cv' -> outside_dark cv0 -> outside_dark cv'.
Proof.
  intros Hwf [F Lf Ls Lh _ _ _ _ O] Hd x y.
  rewrite F. cbn [cv_ws cv_hs with_layers]. unfold _in_circle_sub, _idx.
  cbn [cv_ws cv_cx cv_cy cv_R with_layers fast slow hit].
  intros Hx Hy Hc. destruct (Hd x y Hx Hy Hc) as (Hf & Hs & Hh).
  pose proof (idx_in_range cv0 _ _ Hx Hy) as Hi. unfold _idx in *.
  destruct (layer_size cv0 Hwf) as (Sf & Ss & Sh).
  rewrite py_index_in_range in Hf by lia. rewrite py_index_in_range in Hs by lia.
  rewrite py_index_in_range in Hh by lia.
  rewrite (py_index_in_range (fast cv')), (py_index_in_range (slow cv')),
    (py_index_in_range (hit cv')) by lia.
  destruct (O (Z.to_nat (y * cv_ws cv0 + x))) as (Of & Os & Oh).
  { intros x' y' Hx' Hy' Hc' E. apply Z2Nat.inj in E; try nia.
    destruct (idx_inj cv0 x' y' x y) as [-> ->]; try assumption; try lia.
    unfold _in_circle_sub in Hc'. congruence. }
  rewrite Of, Os, Oh. auto.
Qed.

Lemma engine_step_outside_dark (e e' : Engine) :
  engine_step md5_int e e' -> canvas_wf (cv e) -> outside_dark (cv e) ->
  outside_dark (cv e').
Proof.
  intros Hstep Hwf Hd.
  destruct Hstep as [e now g mac rssi motion e' Hi|e now stamp e' Ht|e sz].
  - destruct (ingest_painted md5_int e e' now g mac rssi motion Hwf Hi) as ([n P] & _).
    eapply painted_outside_dark; eassumption.
  - rewrite (tick_canvas _ _ _ _ Ht). by apply decay_outside_dark.
  - apply resize_outside_dark.
Qed.

(** X8: in every engine reachable from a freshly constructed one by
    [ingest], [tick] and resizes, each sub-pixel of the grid that lies
    outside the circle holds 0 in the fast layer, 0 in the slow layer and no
    hits: nothing is ever deposited there. *)
Theorem outside_circle_stays_dark (e : Engine) (x y : Z) :
  reachable md5_int e ->
  (0 <= x < cv_ws (cv e))%Z -> (0 <= y < cv_hs (cv e))%Z ->
  ((x - cv_cx (cv e)) ^ 2 + (y - cv_cy (cv e)) ^ 2 > cv_R (cv e) ^ 2)%Z ->
  py_index (fast (cv e)) (_idx (cv e) x y) = Some 0
  /\ py_index (slow (cv e)) (_idx (cv e) x y) = Some 0
  /\ py_index (hit (cv e)) (_idx (cv e) x y) = Some 0%Z.
Proof.
  intros Hreach.
  assert (Hd : outside_dark (cv e)).
  { induction Hreach as [sz now|e0 e1 Hr IH Hstep].
    - apply resize_outside_dark.
    - eapply engine_step_outside_dark; [exact Hstep| |exact IH].
      apply (reachable_inv md5_int e0 Hr). }
  intros Hx Hy Hout. apply Hd; try assumption. by apply in_circle_false.
Qed.

End OutsideDark.

Lemma outside_circle_stays_dark_witness :
  let e := on_resize (200, 60) (new_engine (0, 0) 0) in
  reachable (G := LowEnd) zero_hash e
  /\ py_index (fast (cv e)) (_idx (cv e) 0 0) = Some 0%R.
Proof.
  intros e.
  assert (Hreach : reachable (G := LowEnd) zero_hash e).
  { eapply reach_step; [apply reach_new|apply step_resize]. }
  split; [exact Hreach|].
  destruct (outside_circle_stays_dark (G := LowEnd) zero_hash e 0 0 Hreach) as (Hf & _).
  - change (0 <= 0 < 396). lia.
  - change (0 <= 0 < 224). lia.
  - change ((0 - 198) ^ 2 + (0 - 112) ^ 2 > 108 ^ 2). lia.
  - exact Hf.
Defined.

(** ** The per-MAC state *)

Section MacStateFacts.
Context {G : Type} `{RandomSource G}.
Variable md5_int : string -> Z.
Local Open Scope R_scope.

(** X9: an observation changes the entry of its own MAC and no other:
    after [ingest] the state holds for [mac] the smoothed values with
    [last_t = now] and [last_rssi = rssi], every other MAC has the entry it
    had, the seed counter has advanced by one, and nothing has been written
    or drawn. *)
Theorem ingest_updates_one_mac (e : Engine) (now : R) (g : G) (mac : string)
        (rssi motion : R) :
  canvas_wf (cv e) ->
  exists e' st,
    ingest md5_int e now g mac rssi motion = Some e'
    /\ state e' !! mac = Some st
    /\ st = (update_mac (state e !! mac) now rssi motion).1
    /\ last_t st = now /\ last_rssi st = rssi
    /\ (forall other, other <> mac -> state e' !! other = state e !! other)
    /\ seed_counter e' = (seed_counter e + 1)%Z
    /\ stdout e' = stdout e /\ last_draw e' = last_draw e.
Proof.
  intros Hwf.
  destruct (ingest_deposited md5_int e now g mac rssi motion Hwf) as (e' & E & _).
  destruct (ingest_painted md5_int e e' now g mac rssi motion Hwf E)
    as (_ & Hst & Hsc & Hld & _ & Hout).
  exists e', (update_mac (state e !! mac) now rssi motion).1.
  split; [exact E|]. rewrite Hst.
  split; [apply lookup_insert_eq|]. split; [reflexivity|].
  split; [unfold update_mac; destruct (state e !! mac); reflexivity|].
  split; [unfold update_mac; destruct (state e !! mac); reflexivity|].
  split; [intros other Hne; by apply lookup_insert_ne|]. auto.
Qed.

End MacStateFacts.

Lemma ingest_updates_one_mac_witness :
  let e := new_engine (0, 0) 0 in
  canvas_wf (cv e)
  /\ exists e' st,
      ingest (G := LowEnd) zero_hash e 1 low_end "aa:bb:cc:dd:ee:ff" (-40) 3 = Some e'
      /\ state e' !! "aa:bb:cc:dd:ee:ff" = Some st /\ last_rssi st = (-40)%R.
Proof.
  intros e. pose proof (resize_wf (0, 0) 0 0 : canvas_wf (cv e)) as Hwf.
  split; [exact Hwf|].
  destruct (ingest_updates_one_mac (G := LowEnd) zero_hash e 1 low_end
              "aa:bb:cc:dd:ee:ff" (-40) 3 Hwf) as (e' & st & E & Hs & _ & _ & Hr & _).
  exists e', st. auto.
Defined.

Section ConditionerFacts.
Local Open Scope R_scope.

(** X10: the smoothing of [ingest].  The first observation of a MAC seeds
    both averages with the raw values and has rate of change 0.  Every
    later one moves each average to a point between its old value and the
    new raw value, and the rate of change has the sign of the change of the
    raw strength, is that change divided by the elapsed time when more than
    a millisecond has passed, and is never more than a thousand times the
    change in magnitude. *)
Theorem update_mac_smooths (old : MacState) (now rssi motion : R) :
  update_mac None now rssi motion = (mkMacState rssi motion now rssi, 0)
  /\ let st := (update_mac (Some old) now rssi motion).1 in
     let d_rs := (update_mac (Some old) now rssi motion).2 in
     Rmin (rssi_ema old) rssi <= rssi_ema st <= Rmax (rssi_ema old) rssi
     /\ Rmin (motion_ema old) motion <= motion_ema st <= Rmax (motion_ema old) motion
     /\ last_t st = now /\ last_rssi st = rssi
     /\ (1 / 1000 < now - last_t old ->
         d_rs * (now - last_t old) = rssi - last_rssi old)
     /\ (now - last_t old <= 1 / 1000 -> d_rs = 1000 * (rssi - last_rssi old))
     /\ Rabs d_rs <= 1000 * Rabs (rssi - last_rssi old)
     /\ 0 <= d_rs * (rssi - last_rssi old).
Proof.
  split; [reflexivity|]. cbn [update_mac fst snd rssi_ema motion_ema last_t last_rssi].
  unfold EMA_RSSI_ALPHA, EMA_MOTION_ALPHA.
  split.
  { unfold Rmin, Rmax. destruct (Rle_dec (rssi_ema old) rssi); lra. }
  split.
  { unfold Rmin, Rmax. destruct (Rle_dec (motion_ema old) motion); lra. }
  split; [reflexivity|]. split; [reflexivity|].
  destruct (Rgt_dec (now - last_t old) (1 / 1000)) as [Hdt|Hdt].
  - assert (Hpos : 0 < now - last_t old) by lra.
    assert (Hinv : 0 < / (now - last_t old) < 1000).
    { split; [by apply Rinv_0_lt_compat|].
      replace 1000 with (/ (1 / 1000)) by lra.
      apply Rinv_lt_contravar; [|lra].
      apply Rmult_lt_0_compat; lra. }
    split; [intros _; field; lra|]. split; [lra|].
    unfold Rdiv. split.
    + rewrite Rabs_mult, (Rabs_pos_eq (/ _)) by lra.
      pose proof (Rabs_pos (rssi - last_rssi old)). nra.
    + replace ((rssi - last_rssi old) * / (now - last_t old) * (rssi - last_rssi old))
        with ((rssi - last_rssi old) * (rssi - last_rssi old) * / (now - last_t old))
        by ring.
      apply Rmult_le_pos; [apply (Rle_0_sqr (rssi - last_rssi old))|lra].
  - split; [lra|]. split; [intros _; lra|].
    replace ((rssi - last_rssi old) / (1 / 1000)) with (1000 * (rssi - last_rssi old)) by lra.
    split.
    + rewrite Rabs_mult, (Rabs_pos_eq 1000) by lra. lra.
    + replace (1000 * (rssi - last_rssi old) * (rssi - last_rssi old))
        with (1000 * ((rssi - last_rssi old) * (rssi - last_rssi old))) by ring.
      apply Rmult_le_pos; [lra|apply (Rle_0_sqr (rssi - last_rssi old))].
Qed.

Lemma update_mac_smooths_witness :
  let old := mkMacState (-50) 1 0 (-50) in
  (1 / 1000 < 2 - last_t old ->
   (update_mac (Some old) 2 (-40) 3).2 * (2 - last_t old) = -40 - last_rssi old)
  /\ Rmin (rssi_ema old) (-40) <= rssi_ema (update_mac (Some old) 2 (-40) 3).1.
Proof.
  intros old.
  destruct (update_mac_smooths old 2 (-40) 3) as (_ & (Hlo & _) & _ & _ & _ & Hd & _).
  split; [exact Hd|exact Hlo].
Defined.

Lemma py_int_pair_mono (a x y : R) :
  0 <= a -> 0 <= x <= y -> (py_int (a * x) <= py_int (a * y))%Z.
Proof. intros Ha Hxy. apply py_int_mono; nra. Qed.

(** X11: more motion or a faster change of strength never lowers the
    sample count: [sample_count] is non-decreasing in both units, and it
    sits at the cap of 600 as soon as the two truncated contributions reach
    576. *)
Theorem sample_count_monotone (motion_u motion_u' drssi_u drssi_u' : R) :
  0 <= motion_u <= motion_u' -> 0 <= drssi_u <= drssi_u' ->
  (sample_count motion_u drssi_u <= sample_count motion_u' drssi_u')%Z
  /\ ((576 <= py_int (10 * motion_u) + py_int (30 * drssi_u))%Z ->
      sample_count motion_u drssi_u = 600%Z).
Proof.
  intros Hm Hd. rewrite !sample_count_cap. unfold raw_sample_count,
    BASE_SAMPLES, SAMPLES_PER_MOTION, SAMPLES_PER_DRSSI, MAX_SAMPLES_PER.
  pose proof (py_int_pair_mono 10 motion_u motion_u') as H1.
  pose proof (py_int_pair_mono 30 drssi_u drssi_u') as H2.
  split; [|lia].
  assert ((py_int (10 * motion_u) <= py_int (10 * motion_u'))%Z) by (apply H1; lra).
  assert ((py_int (30 * drssi_u) <= py_int (30 * drssi_u'))%Z) by (apply H2; lra).
  lia.
Qed.

Lemma sample_count_monotone_witness :
  0 <= 1 <= 2 /\ 0 <= 0 <= 1 / 2
  /\ (sample_count 1 0 <= sample_count 2 (1 / 2))%Z.
Proof.
  assert (Hm : 0 <= 1 <= 2) by lra. assert (Hd : 0 <= 0 <= 1 / 2) by lra.
  destruct (sample_count_monotone 1 2 0 (1 / 2) Hm Hd) as [Hle _].
  split; [exact Hm|]. split; [exact Hd|exact Hle].
Defined.

(** X12: the two units [ingest] derives.  The motion unit is the smoothed
    motion floored at 0.  The rate unit depends only on the magnitude of
    the rate of change, grows with it, is [|d_rs| / 8] up to 8 dBm/s and 1
    from there on. *)
Theorem units_saturate (m_ema d_rs d_rs' : R) :
  motion_unit m_ema = Rmax 0 m_ema
  /\ drssi_unit (- d_rs) = drssi_unit d_rs
  /\ (Rabs d_rs <= DRSSI_CLAMP -> drssi_unit d_rs = Rabs d_rs / DRSSI_CLAMP)
  /\ (DRSSI_CLAMP <= Rabs d_rs -> drssi_unit d_rs = 1)
  /\ (Rabs d_rs <= Rabs d_rs' -> drssi_unit d_rs <= drssi_unit d_rs').
Proof.
  assert (Hval : forall d, drssi_unit d = Rmin (Rabs d) 8 / 8).
  { intros d. unfold drssi_unit, clamp, DRSSI_CLAMP, Rmin.
    pose proof (Rabs_pos d).
    destruct (Rlt_dec (Rabs d) 0); [lra|].
    destruct (Rgt_dec (Rabs d) 8), (Rle_dec (Rabs d) 8); lra. }
  split.
  { unfold motion_unit, Rmax. destruct (Rgt_dec m_ema 0), (Rle_dec 0 m_ema); lra. }
  rewrite !Hval, Rabs_Ropp. unfold DRSSI_CLAMP, Rmin.
  split; [reflexivity|].
  destruct (Rle_dec (Rabs d_rs) 8), (Rle_dec (Rabs d_rs') 8); repeat split; intros; lra.
Qed.

Lemma units_saturate_witness :
  (DRSSI_CLAMP <= Rabs 20 -> drssi_unit 20 = 1) /\ motion_unit (-3) = Rmax 0 (-3).
Proof.
  destruct (units_saturate (-3) 20 20) as (Hm & _ & _ & Hs & _).
  split; [exact Hs|exact Hm].
Defined.

End ConditionerFacts.

(** ** Frame pacing and the main loop *)

Section Pacing.
Local Open Scope R_scope.

Lemma tick_draws (e : Engine) (now : R) (stamp : string) :
  canvas_wf (cv e) -> now - last_draw e >= min_dt e ->
  exists frame,
    render stamp (decay now (cv e)) = Some frame
    /\ tick e now stamp
       = Some (mkEngine (decay now (cv e)) now (min_dt e) (seed_counter e) (state e)
                        (stdout e ++ [frame])).
Proof.
  intros Hwf Hdt. unfold tick. destruct (Rge_dec _ _); [|lra].
  destruct (render_defined stamp (decay now (cv e)) (decay_wf now _ Hwf)) as [frame Hf].
  rewrite Hf. eauto.
Qed.

Lemma tick_skips (e : Engine) (now : R) (stamp : string) :
  now - last_draw e < min_dt e ->
  tick e now stamp
  = Some (mkEngine (decay now (cv e)) (last_draw e) (min_dt e) (seed_counter e) (state e)
                   (stdout e)).
Proof.
  intros Hdt. unfold tick. destruct (Rge_dec _ _); [lra|reflexivity].
Qed.

(** X13: [tick] paces the frames by the clock.  When at least [min_dt]
    has passed since the last frame it writes exactly one frame, the
    rendering of the decayed canvas, and remembers the time; otherwise it
    writes nothing and only decays.  So a tick that follows a drawing tick
    by less than [min_dt] never draws. *)
Theorem tick_paces_frames (e : Engine) (now now' : R) (stamp stamp' : string) :
  canvas_wf (cv e) ->
  (now - last_draw e >= min_dt e ->
   exists frame e',
     tick e now stamp = Some e'
     /\ render stamp (decay now (cv e)) = Some frame
     /\ stdout e' = stdout e ++ [frame] /\ last_draw e' = now
     /\ cv e' = decay now (cv e)
     /\ (now' - now < min_dt e ->
         exists e'', tick e' now' stamp' = Some e''
                     /\ stdout e'' = stdout e' /\ last_draw e'' = now))
  /\ (now - last_draw e < min_dt e ->
      exists e',
        tick e now stamp = Some e'
        /\ stdout e' = stdout e /\ last_draw e' = last_draw e
        /\ cv e' = decay now (cv e)).
Proof.
  intros Hwf. split.
  - intros Hdt. destruct (tick_draws e now stamp Hwf Hdt) as (frame & Hf & Et).
    eexists frame, _. split; [exact Et|]. cbn [stdout last_draw cv].
    repeat split; try assumption.
    intros Hnext. eexists. split; [apply tick_skips; cbn [last_draw min_dt]; lra|].
    cbn [stdout last_draw]. auto.
  - intros Hdt. eexists. split; [by apply tick_skips|]. cbn [stdout last_draw cv]. auto.
Qed.

End Pacing.

Lemma tick_paces_frames_witness :
  let e := new_engine (0, 0) 1 in
  canvas_wf (cv e) /\ (1 - last_draw e >= min_dt e)%R
  /\ exists frame e',
      tick e 1 EmptyString = Some e' /\ stdout e' = stdout e ++ [frame].
Proof.
  intros e. pose proof (resize_wf (0, 0) 1 1 : canvas_wf (cv e)) as Hwf.
  assert (Hdt : (1 - last_draw e >= min_dt e)%R).
  { change (1 - 0 >= 1 / TARGET_FPS)%R. unfold TARGET_FPS. lra. }
  destruct (tick_paces_frames e 1 1 EmptyString EmptyString Hwf) as [Hdraw _].
  destruct (Hdraw Hdt) as (frame & e' & Et & _ & Hout & _).
  split; [exact Hwf|]. split; [exact Hdt|]. exists frame, e'. auto.
Defined.

Section MainLoop.
Context {G : Type} `{RandomSource G}.
Variable md5_int : string -> Z.
Variable py_float : string -> option R.
Local Open Scope R_scope.












End MainLoop.








(** ** Reading a line *)

Section LineReader.

Lemma append_cons (a : ascii) (s t : string) : String a s +:+ t = String a (s +:+ t).
Proof. reflexivity. Qed.

Lemma append_nil (t : string) : EmptyString +:+ t = t.
Proof. reflexivity. Qed.













Lemma split_comma_nonempty (s : string) : split_comma s <> [].
Proof.
  destruct s as [|a s]; simpl; [discriminate|].
  destruct (Ascii.eqb a ","); [discriminate|]. destruct (split_comma s); discriminate.
Qed.

Lemma join_comma_cons (f : string) (fs : list string) :
  fs <> [] -> join_comma (f :: fs) = f +:+ ("," +:+ join_comma fs).
Proof. destruct fs; [congruence|reflexivity]. Qed.

Lemma split_comma_field (f s : string) :
  no_comma f = true -> split_comma (f +:+ String "," s) = f :: split_comma s.
Proof.
  induction f as [|a f IH]; rewrite ?append_cons, ?append_nil; simpl; [reflexivity|].
  intros [Ha Hf]%andb_true_iff. apply negb_true_iff in Ha. rewrite Ha, (IH Hf). reflexivity.
Qed.

Lemma split_comma_single (f : string) : no_comma f = true -> split_comma f = [f].
Proof.
  induction f as [|a f IH]; simpl; [reflexivity|].
  intros [Ha Hf]%andb_true_iff. apply negb_true_iff in Ha. rewrite Ha, (IH Hf). reflexivity.
Qed.

(** X17: [split(",")] and [",".join] are inverse to each other: joining
    the fields of a line gives the line back, and splitting the join of
    comma-free fields (at least one) gives the fields back.  A line always
    has one field more than it has commas, and no field contains a comma. *)
Theorem split_comma_join_round_trip (s : string) (fields : list string) :
  join_comma (split_comma s) = s
  /\ length (split_comma s) = S (count_commas s)
  /\ Forall (fun f => no_comma f = true) (split_comma s)
  /\ (fields <> [] -> Forall (fun f => no_comma f = true) fields ->
      split_comma (join_comma fields) = fields).
Proof.
  split; [|split; [|split]].
  - induction s as [|a s IH]; [reflexivity|]. simpl.
    destruct (Ascii.eqb_spec a ",") as [->|Hne].
    + rewrite join_comma_cons by apply split_comma_nonempty. rewrite IH. reflexivity.
    + pose proof (split_comma_nonempty s) as Hn.
      destruct (split_comma s) as [|f fs]; [congruence|].
      destruct fs as [|f' fs].
      * unfold join_comma in *. simpl in *. by rewrite IH.
      * rewrite join_comma_cons in IH by discriminate.
        rewrite join_comma_cons by discriminate. rewrite append_cons. by rewrite IH.
  - induction s as [|a s IH]; [reflexivity|]. simpl.
    destruct (Ascii.eqb a ","); simpl; [by rewrite IH|].
    pose proof (split_comma_nonempty s) as Hn.
    destruct (split_comma s) as [|f fs]; [congruence|]. exact IH.
  - induction s as [|a s IH]; [by repeat constructor|]. simpl.
    destruct (Ascii.eqb a ",") eqn:Ea; [by constructor|].
    pose proof (split_comma_nonempty s) as Hn.
    destruct (split_comma s) as [|f fs]; [congruence|].
    inversion IH as [|? ? Hf Hfs]; subst. constructor; [|exact Hfs].
    simpl. by rewrite Ea, Hf.
  - intros Hne Hall. induction Hall as [|f fs Hf Hfs IH]; [congruence|].
    destruct fs as [|f' fs].
    + unfold join_comma. simpl. by apply split_comma_single.
    + rewrite join_comma_cons by discriminate.
      change ("," +:+ join_comma (f' :: fs)) with (String "," (join_comma (f' :: fs))).
      rewrite split_comma_field by exact Hf. f_equal. apply IH. discriminate.
Qed.

Lemma split_comma_join_round_trip_witness :
  ["aa:bb"; "-40"; "3"] <> []
  /\ Forall (fun f => no_comma f = true) ["aa:bb"; "-40"; "3"]
  /\ split_comma (join_comma ["aa:bb"; "-40"; "3"]) = ["aa:bb"; "-40"; "3"].
Proof.
  assert (Hne : ["aa:bb"; "-40"; "3"] <> []) by discriminate.
  assert (Hall : Forall (fun f => no_comma f = true) ["aa:bb"; "-40"; "3"])
    by (repeat constructor).
  destruct (split_comma_join_round_trip EmptyString ["aa:bb"; "-40"; "3"]) as (_ & _ & _ & Hr).
  split; [exact Hne|]. split; [exact Hall|]. exact (Hr Hne Hall).
Defined.






End LineReader.


Section Records.
Context {G : Type} `{RandomSource G}.
Variable md5_int : string -> Z.
Variable py_float : string -> option R.
Local Open Scope R_scope.


(** X20: the angle of a MAC is a whole number of degrees in [0, 360),
    given in radians: it lies in [0, 2 pi). *)
Theorem mac_angle_range (mac : string) :
  0 <= mac_angle md5_int mac < 2 * PI
  /\ exists d : Z, (0 <= d < 360)%Z /\ mac_angle md5_int mac = IZR d * PI / 180.
Proof.
  unfold mac_angle. pose proof (Z.mod_pos_bound (md5_int mac) 360) as Hd.
  assert (Hr : (0 <= md5_int mac `mod` 360 < 360)%Z) by lia. clear Hd.
  split; [|eauto].
  destruct Hr as [Hlo Hhi]. apply IZR_le in Hlo. apply IZR_lt in Hhi.
  pose proof PI_RGT_0. split; nra.
Qed.

End Records.


(** ** Dot patterns *)

Section DotPatterns.

Lemma log2_byte (a : Z) : (0 <= a < 256)%Z -> (Z.log2 a < 8)%Z.
Proof.
  intros Ha. destruct (Z.eq_dec a 0) as [->|Hne]; [reflexivity|].
  apply Z.log2_lt_pow2; lia.
Qed.

Lemma lor_byte (a b : Z) : (0 <= a < 256)%Z -> (0 <= b < 256)%Z -> (0 <= Z.lor a b < 256)%Z.
Proof.
  intros Ha Hb. assert (Hnn : (0 <= Z.lor a b)%Z) by (apply Z.lor_nonneg; lia).
  split; [exact Hnn|].
  destruct (Z.eq_dec (Z.lor a b) 0) as [->|Hne]; [lia|].
  change 256%Z with (2 ^ 8)%Z. apply Z.log2_lt_pow2; [lia|].
  rewrite Z.log2_lor by lia.
  pose proof (log2_byte a Ha). pose proof (log2_byte b Hb). lia.
Qed.

Lemma set_dot_table (bits sx sy : Z) :
  (0 <= sx < 2)%Z -> (0 <= sy < 4)%Z ->
  set_dot bits sx sy = Z.lor bits (2 ^ (dot_number sx sy - 1)).
Proof.
  intros Hx Hy.
  assert (Ex : sx = 0%Z \/ sx = 1%Z) by lia.
  assert (Ey : sy = 0%Z \/ sy = 1%Z \/ sy = 2%Z \/ sy = 3%Z) by lia.
  destruct Ex as [-> | ->], Ey as [-> | [-> | [-> | ->]]]; reflexivity.
Qed.

Lemma dot_number_range (sx sy : Z) :
  (0 <= sx < 2)%Z -> (0 <= sy < 4)%Z -> (1 <= dot_number sx sy <= 8)%Z.
Proof. intros Hx Hy. unfold dot_number. destruct (Z.ltb_spec sy 3); lia. Qed.

Lemma dot_bit_byte (sx sy : Z) :
  (0 <= sx < 2)%Z -> (0 <= sy < 4)%Z -> (0 < 2 ^ (dot_number sx sy - 1) < 256)%Z.
Proof.
  intros Hx Hy. pose proof (dot_number_range sx sy Hx Hy) as Hd.
  split; [apply Z.pow_pos_nonneg; lia|].
  change 256%Z with (2 ^ 8)%Z. apply Z.pow_lt_mono_r; lia.
Qed.

Lemma set_dot_byte (bits sx sy : Z) :
  0 <= sx < 2 -> 0 <= sy < 4 -> 0 <= bits < 256 -> 0 < set_dot bits sx sy < 256.
Proof.
  intros Hx Hy Hb. rewrite set_dot_table by assumption.
  pose proof (dot_bit_byte sx sy Hx Hy) as Hd.
  pose proof (lor_byte bits (2 ^ (dot_number sx sy - 1)) Hb) as Hl.
  assert (Hr : 0 <= Z.lor bits (2 ^ (dot_number sx sy - 1)) < 256) by (apply Hl; lia).
  destruct (Z.eq_dec (Z.lor bits (2 ^ (dot_number sx sy - 1))) 0) as [E|Hne]; [|lia].
  apply Z.lor_eq_0_iff in E. lia.
Qed.

(** X21: the eight tests of [render] implement the dot numbering of its
    comment: for a sub-cell [(sx, sy)] of the 2 x 4 block, [set_dot] ors in
    the bit [2^(d-1)] of its dot number [d], distinct sub-cells have
    distinct dot numbers between 1 and 8, a mask below 256 stays below 256
    and is never 0 afterwards; outside the block nothing is set. *)
Theorem set_dot_follows_dot_numbers (bits sx sy sx' sy' : Z) :
  (0 <= sx < 2)%Z -> (0 <= sy < 4)%Z ->
  set_dot bits sx sy = Z.lor bits (2 ^ (dot_number sx sy - 1))
  /\ (1 <= dot_number sx sy <= 8)%Z
  /\ ((0 <= sx' < 2)%Z -> (0 <= sy' < 4)%Z ->
      dot_number sx sy = dot_number sx' sy' -> sx = sx' /\ sy = sy')
  /\ ((0 <= bits < 256)%Z -> (0 < set_dot bits sx sy < 256)%Z)
  /\ ((sx' < 0 \/ 2 <= sx' \/ sy' < 0 \/ 4 <= sy')%Z -> set_dot bits sx' sy' = bits).
Proof.
  intros Hx Hy. split; [by apply set_dot_table|].
  split; [by apply dot_number_range|]. split; [|split].
  - intros Hx' Hy'. unfold dot_number.
    destruct (Z.ltb_spec sy 3), (Z.ltb_spec sy' 3); lia.
  - intros Hb. by apply set_dot_byte.
  - intros Hout. unfold set_dot.
    destruct (Z.eqb_spec sx' 0), (Z.eqb_spec sx' 1), (Z.eqb_spec sy' 0),
      (Z.eqb_spec sy' 1), (Z.eqb_spec sy' 2), (Z.eqb_spec sy' 3);
      cbn [andb]; try reflexivity; lia.
Qed.

Lemma set_dot_follows_dot_numbers_witness :
  (0 <= 1 < 2)%Z /\ (0 <= 3 < 4)%Z /\ set_dot 1 1 3 = 129%Z /\ dot_number 1 3 = 8%Z.
Proof.
  assert (Hx : (0 <= 1 < 2)%Z) by lia. assert (Hy : (0 <= 3 < 4)%Z) by lia.
  destruct (set_dot_follows_dot_numbers 1 1 3 0 0 Hx Hy) as (E & _).
  split; [exact Hx|]. split; [exact Hy|]. split; [rewrite E; reflexivity|reflexivity].
Defined.

End DotPatterns.

Section CellGlyphs.
Local Open Scope R_scope.

(** A sub-pixel of the cell block at [(base_x, base_y)] is lit when its
    normalized value is above the threshold. *)
Lemma cell_loop_bits (cv0 : BrailleCanvas) (merged : list R) (q : R) (bx by' : Z)
      (ps : list (Z * Z)) (bits : Z) (agg : R) (bits' : Z) (agg' : R) :
  Forall (fun p : Z * Z => (0 <= p.1 < 4)%Z /\ (0 <= p.2 < 2)%Z) ps ->
  (0 <= bits < 256)%Z ->
  cell_loop cv0 merged q bx by' (bits, agg) ps = Some (bits', agg') ->
  (0 <= bits' < 256)%Z
  /\ (bits' = 0%Z <->
      bits = 0%Z
      /\ forall p v, p ∈ ps ->
           normalized merged q (_idx cv0 (bx + p.2) (by' + p.1)) = Some v ->
           v <= 12 / 100).
Proof.
  intros Hps. revert bits agg.
  induction Hps as [|[sy sx] ps [Hsy Hsx] _ IH]; intros bits agg Hb E.
  - injection E as <- <-. split; [exact Hb|]. split; [|tauto].
    intros ->. split; [reflexivity|]. intros p v Hp. inversion Hp.
  - cbn [fst snd] in Hsy, Hsx. cbn [cell_loop] in E. unfold cell_subpixel in E.
    destruct (normalized merged q (_idx cv0 (bx + sx) (by' + sy))) as [v|] eqn:Ev;
      [|discriminate].
    cbn [mbind option_bind] in E.
    destruct (Rgt_dec v (12 / 100)) as [Hlit|Hdark].
    + pose proof (set_dot_byte bits sx sy Hsx Hsy Hb) as Hs.
      destruct (IH _ _ (conj (Z.lt_le_incl _ _ (proj1 Hs)) (proj2 Hs)) E) as [Hr Hiff].
      split; [exact Hr|]. split.
      * intros E0. apply Hiff in E0 as [E0 _]. lia.
      * intros [_ Hall]. exfalso.
        specialize (Hall (sy, sx) v (list_elem_of_here _ _) Ev). lra.
    + destruct (IH _ _ Hb E) as [Hr Hiff]. split; [exact Hr|]. rewrite Hiff.
      split.
      * intros [-> Hall]. split; [reflexivity|]. intros p v' Hp Hv'.
        apply elem_of_cons in Hp as [->|Hp]; [|by eapply Hall].
        cbn [fst snd] in Hv'. rewrite Ev in Hv'. injection Hv' as <-. lra.
      * intros [-> Hall]. split; [reflexivity|]. intros p v' Hp. apply Hall. by right.
Qed.

(** X22: a character cell inside the circle is drawn as a colour escape
    followed by one glyph.  The glyph is a blank exactly when none of the
    eight sub-pixels behind the cell has a normalized value above 0.12;
    otherwise it is the character [0x2800 + bits] of the Braille block, with
    [bits] between 1 and 255. *)
Theorem cell_glyph_shows_lit_subpixels
        (cv0 : BrailleCanvas) (merged : list R) (q : R) (i j : Z) :
  canvas_wf cv0 -> Z.of_nat (length merged) = (cv_ws cv0 * cv_hs cv0)%Z -> 0 < q ->
  (0 <= i < cv_wc cv0)%Z -> (0 <= j < cv_hc cv0)%Z ->
  in_circle (cv_cx cv0) (cv_cy cv0) (cv_R cv0) (i * 2 + 1) (j * 4 + 2) = true ->
  exists (col : string) (bits : Z) (agg : R),
    cell_loop cv0 merged q (i * 2) (j * 4) (0%Z, 0) cell_positions = Some (bits, agg)
    /\ color_for (clamp (agg / 8) 0 1) = Some col
    /\ (0 <= bits < 256)%Z
    /\ (bits = 0%Z <->
        forall sx sy v, (0 <= sx < 2)%Z -> (0 <= sy < 4)%Z ->
          normalized merged q (_idx cv0 (i * 2 + sx) (j * 4 + sy)) = Some v ->
          v <= 12 / 100)
    /\ render_cell cv0 merged q j i
       = Some (col +:+ (if (bits =? 0)%Z then " " else chr (10240 + bits))).
Proof.
  intros Hwf Hlen Hq Hi Hj Hin.
  destruct (cell_loop_defined cv0 merged q i j cell_positions (0%Z, 0) Hwf Hlen Hq Hi Hj
              cell_positions_range) as [[bits agg] Hst].
  destruct (color_for_defined (clamp (agg / 8) 0 1)) as [col Hcol].
  destruct (cell_loop_bits cv0 merged q (i * 2) (j * 4) cell_positions 0 0 bits agg
              cell_positions_range ltac:(lia) Hst) as [Hr Hiff].
  exists col, bits, agg. split; [exact Hst|]. split; [exact Hcol|]. split; [exact Hr|].
  split.
  - rewrite Hiff. split.
    + intros [_ Hall] sx sy v Hsx Hsy Hv. apply (Hall (sy, sx) v); [|exact Hv].
      assert (Ex : sx = 0%Z \/ sx = 1%Z) by lia.
      assert (Ey : sy = 0%Z \/ sy = 1%Z \/ sy = 2%Z \/ sy = 3%Z) by lia.
      change cell_positions
        with [(0, 0); (0, 1); (1, 0); (1, 1); (2, 0); (2, 1); (3, 0); (3, 1)]%Z.
      destruct Ex as [-> | ->], Ey as [-> | [-> | [-> | ->]]];
        repeat (first [apply list_elem_of_here | apply list_elem_of_further]).
    + intros Hall. split; [reflexivity|]. intros [sy sx] v Hp Hv.
      pose proof cell_positions_range as Hrange. rewrite Forall_forall in Hrange.
      destruct (Hrange _ Hp) as [Hsy Hsx]. by apply (Hall sx sy v).
  - unfold render_cell. rewrite (wf_mask cv0 Hwf), build_mask_lookup by assumption.
    cbn [mbind option_bind]. rewrite Hin. cbn [negb]. rewrite Hst.
    cbn [mbind option_bind]. rewrite Hcol. reflexivity.
Qed.

End CellGlyphs.

Lemma cell_glyph_shows_lit_subpixels_witness :
  let merged := zip_with Rplus (fast fresh_canvas) (slow fresh_canvas) in
  canvas_wf fresh_canvas
  /\ Z.of_nat (length merged) = cv_ws fresh_canvas * cv_hs fresh_canvas
  /\ in_circle (cv_cx fresh_canvas) (cv_cy fresh_canvas) (cv_R fresh_canvas)
               (59 * 2 + 1) (18 * 4 + 2) = true
  /\ exists col bits,
      render_cell fresh_canvas merged 1 18 59
      = Some (col +:+ (if bits =? 0 then " " else chr (10240 + bits))).
Proof.
  intros merged. destruct (merged_size fresh_canvas fresh_canvas_wf) as [Hlen _].
  assert (Hin : in_circle (cv_cx fresh_canvas) (cv_cy fresh_canvas) (cv_R fresh_canvas)
                          (59 * 2 + 1) (18 * 4 + 2) = true) by reflexivity.
  assert (Hi : 0 <= 59 < cv_wc fresh_canvas) by (change (0 <= 59 < 118); lia).
  assert (Hj : 0 <= 18 < cv_hc fresh_canvas) by (change (0 <= 18 < 36); lia).
  destruct (cell_glyph_shows_lit_subpixels fresh_canvas merged 1 59 18
              fresh_canvas_wf Hlen Rlt_0_1 Hi Hj Hin) as (col & bits & agg & _ & _ & _ & _ & E).
  split; [apply fresh_canvas_wf|]. split; [exact Hlen|]. split; [exact Hin|].
  exists col, bits. exact E.
Defined.

(** ** Clamping and the radius map *)

Section ClampFacts.
Local Open Scope R_scope.

(** X23: [clamp] with [lo <= hi] returns a value of [lo, hi], leaves a
    value of that range as it is, maps anything below to [lo] and anything
    above to [hi], is non-decreasing, and clamping twice is clamping once. *)
Theorem clamp_saturates (a b lo hi : R) :
  lo <= hi ->
  lo <= clamp a lo hi <= hi
  /\ (lo <= a <= hi -> clamp a lo hi = a)
  /\ (a <= lo -> clamp a lo hi = lo)
  /\ (hi <= a -> clamp a lo hi = hi)
  /\ (a <= b -> clamp a lo hi <= clamp b lo hi)
  /\ clamp (clamp a lo hi) lo hi = clamp a lo hi.
Proof.
  intros Hlh. unfold clamp.
  repeat split; intros;
    repeat match goal with
           | |- context [Rlt_dec ?x ?y] => destruct (Rlt_dec x y)
           | |- context [Rgt_dec ?x ?y] => destruct (Rgt_dec x y)
           end; lra.
Qed.

Lemma clamp_saturates_witness :
  0 <= 8 /\ clamp 20 0 8 = 8 /\ clamp (-3) 0 8 = 0.
Proof.
  assert (Hlh : 0 <= 8) by lra.
  destruct (clamp_saturates 20 20 0 8 Hlh) as (_ & _ & _ & Hhi & _).
  destruct (clamp_saturates (-3) 20 0 8 Hlh) as (_ & _ & Hlo & _).
  split; [exact Hlh|]. split; [apply Hhi; lra|apply Hlo; lra].
Defined.

(** X24: inside the configured range and for a radius above 4 the map
    from strength to radius is strictly decreasing, so distinct strengths
    get distinct radii, and the strength can be read back from the radius:
    [rssi = RSSI_NEAR - 60 * (r - 2) / (Rsub - 4)]. *)
Theorem rssi_to_radius_pix_invertible (a b Rsub : R) :
  4 < Rsub -> RSSI_FAR <= a <= RSSI_NEAR -> RSSI_FAR <= b <= RSSI_NEAR ->
  (a < b -> rssi_to_radius_pix b Rsub < rssi_to_radius_pix a Rsub)
  /\ (rssi_to_radius_pix a Rsub = rssi_to_radius_pix b Rsub -> a = b)
  /\ RSSI_NEAR - 60 * (rssi_to_radius_pix a Rsub - 2) / (Rsub - 4) = a.
Proof.
  intros HR Ha Hb. rewrite !radius_affine by assumption.
  unfold RSSI_NEAR, RSSI_FAR in *.
  assert (Hlin : forall c, (-30 - c) / 60 * (Rsub - 4) = (-30 - c) * ((Rsub - 4) / 60))
    by (intros; field).
  rewrite !Hlin.
  assert (Hk : 0 < (Rsub - 4) / 60) by (apply Rdiv_lt_0_compat; lra).
  split; [intros Hab; nra|]. split; [intros E; nra|]. field. lra.
Qed.

Lemma rssi_to_radius_pix_invertible_witness :
  4 < 68 /\ RSSI_FAR <= -60 <= RSSI_NEAR
  /\ RSSI_NEAR - 60 * (rssi_to_radius_pix (-60) 68 - 2) / (68 - 4) = -60.
Proof.
  assert (HR : 4 < 68) by lra.
  assert (Ha : RSSI_FAR <= -60 <= RSSI_NEAR) by (unfold RSSI_FAR, RSSI_NEAR; lra).
  destruct (rssi_to_radius_pix_invertible (-60) (-60) 68 HR Ha Ha) as (_ & _ & Hinv).
  split; [exact HR|]. split; [exact Ha|exact Hinv].
Defined.

End ClampFacts.

(** ** One ray *)

Section OneRay.
Context {G : Type} `{RandomSource G}.
Local Open Scope R_scope.

(** X25: a ray has at least one step and, for a non-negative length, at
    most [max(1, 9/8 * r_pix)].  On a well-formed canvas [deposit_ray]
    lands at most that many splats: if [n] of its steps fall inside the
    circle, the fast layer holds exactly [n * k] more, the slow layer
    [SLOW_GAIN] times that and the hit layer [n] more, and nothing else
    about the canvas changes. *)
Theorem deposit_ray_lands_at_most_steps
        (cv0 cv' : BrailleCanvas) (theta r_pix k : R) (g g' : G) :
  canvas_wf cv0 -> deposit_ray cv0 theta r_pix k g = Some (cv', g') ->
  (1 <= ray_steps r_pix)%Z
  /\ (0 <= r_pix -> IZR (ray_steps r_pix) <= Rmax 1 (r_pix * (9 / 8)))
  /\ exists n : Z,
      (0 <= n <= ray_steps r_pix)%Z
      /\ layer_total (fast cv') = layer_total (fast cv0) + IZR n * k
      /\ layer_total (slow cv') = layer_total (slow cv0) + IZR n * (k * SLOW_GAIN)
      /\ hit_total (hit cv') = (hit_total (hit cv0) + n)%Z
      /\ cv' = with_layers cv0 (fast cv') (slow cv') (hit cv').
Proof.
  intros Hwf E. split; [apply ray_steps_pos|]. split.
  - intros Hr. pose proof (ray_steps_le r_pix r_pix) as Hle.
    unfold RAY_STEPS_PER_M in Hle. apply Hle. lra.
  - destruct (deposit_ray_painted cv0 cv' theta r_pix k g g' Hwf E) as (n & Hn & P).
    destruct P as [F _ _ _ Hc Tf Ts Th _].
    exists n. repeat split; try assumption; lia.
Qed.

End OneRay.

Lemma deposit_ray_lands_at_most_steps_witness :
  canvas_wf fresh_canvas
  /\ exists cv' g' n,
      deposit_ray fresh_canvas 0 40 1 low_end = Some (cv', g')
      /\ (0 <= n <= ray_steps 40)
      /\ hit_total (hit cv') = hit_total (hit fresh_canvas) + n.
Proof.
  destruct (deposit_ray_deposited (G := LowEnd) fresh_canvas 0 40 1 low_end
              fresh_canvas_wf Rle_0_1) as (cv' & g' & E & _).
  destruct (deposit_ray_lands_at_most_steps (G := LowEnd) fresh_canvas cv' 0 40 1
              low_end g' fresh_canvas_wf E) as (_ & _ & n & Hn & _ & _ & Hh & _).
  split; [apply fresh_canvas_wf|]. exists cv', g', n. auto.
Defined.

(** * The sample count on binary64 *)

Lemma b64_sample_count_capped (motion_u drssi_u : PrimFloat.float) (k : Z) :
  B64.sample_count motion_u drssi_u = Some k -> k <= MAX_SAMPLES_PER.
Proof.
  unfold B64.sample_count.
  destruct (B64.py_int (PrimFloat.mul B64.SAMPLES_PER_MOTION motion_u)) as [a|];
    cbn [mbind option_bind]; [|discriminate].
  destruct (B64.py_int (PrimFloat.mul B64.SAMPLES_PER_DRSSI drssi_u)) as [b|];
    cbn [mbind option_bind]; [|discriminate].
  intros [= <-].
  destruct (Z.gtb_spec (BASE_SAMPLES + a + b) MAX_SAMPLES_PER); lia.
Qed.

(** C6 (defect of the code): on binary64 the sample count is not within
    [base, hardCap] for every motion, because for a huge one it is not
    computed at all.  For the first observation of a MAC with motion 1e308
    the motion unit is 1e308, the product [10 * motion_u] overflows to
    infinity, and [int] raises before the cap is reached: [sample_count]
    has no value.  The cap itself works whenever both calls of [int]
    return (motion 1e6 gives 600, motion 0.06 gives 24), and the
    rate-of-change path cannot overflow, being clamped to [0, 8] before it
    is scaled: a rate of 1e308 gives the unit 1 and the count 54. *)
Theorem sample_count_raises_on_huge_motion :
  B64.motion_unit B64.huge_motion = B64.huge_motion
  /\ PrimFloat.mul B64.SAMPLES_PER_MOTION (B64.motion_unit B64.huge_motion)
     = PrimFloat.infinity
  /\ B64.py_int (PrimFloat.mul B64.SAMPLES_PER_MOTION (B64.motion_unit B64.huge_motion))
     = None
  /\ B64.first_sample_count B64.huge_motion = None
  /\ B64.first_sample_count B64.large_motion = Some 600
  /\ B64.first_sample_count B64.small_motion = Some 24
  /\ B64.sample_count (B64.motion_unit PrimFloat.zero) (B64.drssi_unit B64.huge_motion)
     = Some 54
  /\ (forall motion_u drssi_u k,
        B64.sample_count motion_u drssi_u = Some k -> k <= MAX_SAMPLES_PER).
Proof.
  repeat split; try (vm_compute; reflexivity).
  apply b64_sample_count_capped.
Qed.
